(** * GDB pretty-printer providers for Rust standard-library types

    A shallow embedding of [prettyPrinters/gdb_providers.py].  The debugger
    host ([gdb.Value], [gdb.Type], the inspected memory, [lookup_type]) is
    modelled by a small executable interface; every provider is transcribed
    on top of it.  Python exceptions are the [Raise] branch of [result];
    a generator is the list of what it yielded together with the exception
    that ended it, if any. *)

From Stdlib Require Import ZArith List String Ascii Bool Lia.
From Stdlib Require Import Sorted Permutation.
From Stdlib Require Import DecimalString.
Import ListNotations.

Set Warnings "-register-all".

Local Open Scope string_scope.
Local Open Scope Z_scope.

(** ** Exceptions and results *)

Inductive exn : Type :=
| IndexError         (* list index or format argument out of range *)
| ZeroDivisionError  (* integer modulo by zero *)
| TypeError          (* operation applied to the wrong kind of value *)
| GdbError           (* gdb.error: no such field, no such type, bad subscript *)
| MemoryError.       (* gdb.MemoryError: nothing mapped at an address *)

Inductive result (A : Type) : Type :=
| Ok (a : A)
| Raise (e : exn).

Arguments Ok {A} a.
Arguments Raise {A} e.

Definition bind {A B : Type} (r : result A) (k : A -> result B) : result B :=
  match r with
  | Ok a => k a
  | Raise e => Raise e
  end.

Declare Scope py_scope.
Delimit Scope py_scope with py.
Notation "x <- c ;; k" := (bind c (fun x => k))
  (at level 61, c at next level, right associativity) : py_scope.
Local Open Scope py_scope.

(** ** Generators *)

Record gen (A : Type) : Type := Gen {
  yielded : list A;
  raised : option exn
}.

Arguments Gen {A} yielded raised.
Arguments yielded {A} g.
Arguments raised {A} g.

(** A generator body that ends without yielding. *)
Definition gpass {A : Type} : gen A := Gen [] None.

(** [yield x]. *)
Definition gyield {A : Type} (x : A) : gen A := Gen [x] None.

(** Two statements in sequence: the second runs only if the first did not
    raise. *)
Definition gseq {A : Type} (g1 g2 : gen A) : gen A :=
  match raised g1 with
  | Some e => g1
  | None => Gen (yielded g1 ++ yielded g2) (raised g2)
  end.

(** An expression evaluated inside a generator body. *)
Definition gbind {X A : Type} (r : result X) (k : X -> gen A) : gen A :=
  match r with
  | Ok x => k x
  | Raise e => Gen [] (Some e)
  end.

(** [for x in l: body]. *)
Fixpoint gfor {I A : Type} (l : list I) (body : I -> gen A) : gen A :=
  match l with
  | [] => gpass
  | x :: l' => gseq (body x) (gfor l' body)
  end.

Notation "x <~ c ;; k" := (gbind c (fun x => k))
  (at level 61, c at next level, right associativity) : py_scope.
Notation "g1 ;;; g2" := (gseq g1 g2)
  (at level 62, right associativity) : py_scope.

(** ** Python built-ins used by the providers *)

(** [xrange(lo, hi)] / [range(lo, hi)]: empty when [hi <= lo]. *)
Definition xrange (lo hi : Z) : list Z :=
  map (fun k => lo + Z.of_nat k) (seq 0 (Z.to_nat (hi - lo))).

(** [l[i]] on a Python list: a negative index counts from the end. *)
Definition py_index {A : Type} (l : list A) (i : Z) : result A :=
  let n := Z.of_nat (List.length l) in
  let j := if i <? 0 then i + n else i in
  if j <? 0 then Raise IndexError
  else match nth_error l (Z.to_nat j) with
       | Some a => Ok a
       | None => Raise IndexError
       end.

(** [a % b] on Python integers: the sign follows the divisor. *)
Definition py_mod (a b : Z) : result Z :=
  if b =? 0 then Raise ZeroDivisionError else Ok (a mod b).

(** [str(n)] for an integer. *)
Definition str_of_int (n : Z) : string :=
  NilZero.string_of_int (Z.to_int n).

(** [template.format(args...)] for templates whose only replacement field is
    the automatic [{}]: each [{}] consumes the next argument, a missing
    argument raises, surplus arguments are ignored. *)
Fixpoint format (template : string) (args : list string) : result string :=
  match template with
  | EmptyString => Ok EmptyString
  | String "{" (String "}" rest) =>
      match args with
      | [] => Raise IndexError
      | a :: args' => s <- format rest args' ;; Ok (a ++ s)%string
      end
  | String c rest => s <- format rest args ;; Ok (String c s)
  end.

(** [s.replace(old, new)]: every non-overlapping occurrence, left to right.
    [skip] counts the characters of a matched occurrence still to drop. *)
Fixpoint replace_from (old new : string) (skip : nat) (s : string) : string :=
  match s with
  | EmptyString => EmptyString
  | String c rest =>
      match skip with
      | S k => replace_from old new k rest
      | O =>
          if andb (negb (String.eqb old EmptyString)) (prefix old s)
          then (new ++ replace_from old new (String.length old - 1) rest)%string
          else String c (replace_from old new O rest)
      end
  end.

Definition replace (old new s : string) : string := replace_from old new O s.

(** ** The debugger host: types, values, memory *)

(** [gdb.Type].  [sizeof] is in bytes, as gdb reports it. *)
Inductive gdb_type : Type :=
| TInt (name : string) (signed : bool) (size : Z)
| TStruct (name : string) (size : Z) (targs : list gdb_type)
| TPtr (target : gdb_type).

(** [str(t)]. *)
Fixpoint type_str (t : gdb_type) : string :=
  match t with
  | TInt n _ _ => n
  | TStruct n _ _ => n
  | TPtr t' => ("*mut " ++ type_str t')%string
  end.

(** [t.name]. *)
Definition type_name (t : gdb_type) : string := type_str t.

(** The pointer width of the inspected target, in bytes. *)
Definition word_size : Z := 8.

(** [t.sizeof]. *)
Definition sizeof (t : gdb_type) : Z :=
  match t with
  | TInt _ _ s => s
  | TStruct _ s _ => s
  | TPtr _ => word_size
  end.

(** [t.pointer()]. *)
Definition pointer (t : gdb_type) : gdb_type := TPtr t.

(** [t.target()]. *)
Definition target (t : gdb_type) : result gdb_type :=
  match t with
  | TPtr t' => Ok t'
  | _ => Raise GdbError
  end.

(** [t.template_argument(n)]. *)
Definition template_argument (t : gdb_type) (n : Z) : result gdb_type :=
  match t with
  | TStruct _ _ targs =>
      if n <? 0 then Raise GdbError
      else match nth_error targs (Z.to_nat n) with
           | Some a => Ok a
           | None => Raise GdbError
           end
  | _ => Raise GdbError
  end.

(** [gdb.Value]: a scalar, a pointer (pointee type and byte address), a
    struct with its fields in declaration order, or an array. *)
Inductive Value : Type :=
| VInt (ty : gdb_type) (n : Z)
| VPtr (pointee : gdb_type) (addr : Z)
| VStruct (ty : gdb_type) (flds : list (string * Value))
| VArray (elems : list Value).

(** [gdb.Field]: the providers only use its name. *)
Record Field : Type := mkField { name : string }.

(** The inspected image and the host's type table.  Memory is typed: the
    object found at an address depends on the type it is read at, which is
    what a pointer cast changes. *)
Record Host : Type := mkHost {
  memory : Z -> string -> option Value;
  types : string -> option gdb_type
}.

(** [gdb.lookup_type(name)]. *)
Definition lookup_type (h : Host) (nm : string) : result gdb_type :=
  match types h nm with
  | Some t => Ok t
  | None => Raise GdbError
  end.

Inductive type_code : Type :=
| TYPE_CODE_PTR | TYPE_CODE_STRUCT | TYPE_CODE_INT | TYPE_CODE_ARRAY.

Definition type_code_eqb (a b : type_code) : bool :=
  match a, b with
  | TYPE_CODE_PTR, TYPE_CODE_PTR
  | TYPE_CODE_STRUCT, TYPE_CODE_STRUCT
  | TYPE_CODE_INT, TYPE_CODE_INT
  | TYPE_CODE_ARRAY, TYPE_CODE_ARRAY => true
  | _, _ => false
  end.

(** [v.type.code]. *)
Definition code (v : Value) : type_code :=
  match v with
  | VInt _ _ => TYPE_CODE_INT
  | VPtr _ _ => TYPE_CODE_PTR
  | VStruct _ _ => TYPE_CODE_STRUCT
  | VArray _ => TYPE_CODE_ARRAY
  end.

(** [v.type] (arrays are never asked for their type by the providers). *)
Definition type_of (v : Value) : result gdb_type :=
  match v with
  | VInt t _ => Ok t
  | VPtr t _ => Ok (TPtr t)
  | VStruct t _ => Ok t
  | VArray _ => Raise GdbError
  end.

(** [t.name] of [v.type]. *)
Definition type_name_of (v : Value) : result string :=
  t <- type_of v ;; Ok (type_name t).

(** [v.type.fields()]: the fields of a struct in declaration order; a type
    without fields has none. *)
Definition fields (v : Value) : list Field :=
  match v with
  | VStruct _ fl => map (fun p => mkField (fst p)) fl
  | _ => []
  end.

(** [int(v)]. *)
Definition int (v : Value) : result Z :=
  match v with
  | VInt _ n => Ok n
  | VPtr _ a => Ok a
  | _ => Raise TypeError
  end.

(** [p.dereference()].  The object is fetched at once: reading an address
    where the image holds nothing of that type raises here, not when the
    value is later displayed. *)
Definition dereference (h : Host) (v : Value) : result Value :=
  match v with
  | VPtr t a =>
      match memory h a (type_str t) with
      | Some o => Ok o
      | None => Raise MemoryError
      end
  | _ => Raise GdbError
  end.

(** [p + i]: pointer arithmetic scaled by the pointee size. *)
Definition ptr_add (v : Value) (i : Z) : result Value :=
  match v with
  | VPtr t a => Ok (VPtr t (a + i * sizeof t))
  | _ => Raise TypeError
  end.

(** [v.cast(t)] to a pointer type: the address is kept. *)
Definition cast (v : Value) (t : gdb_type) : result Value :=
  match v, t with
  | VPtr _ a, TPtr t' => Ok (VPtr t' a)
  | VInt _ a, TPtr t' => Ok (VPtr t' a)
  | _, _ => Raise GdbError
  end.

Fixpoint assoc (fl : list (string * Value)) (nm : string) : result Value :=
  match fl with
  | [] => Raise GdbError
  | (n, v) :: fl' => if String.eqb n nm then Ok v else assoc fl' nm
  end.

(** [v[name]]: a field of a struct, read through a pointer if need be. *)
Definition field (h : Host) (v : Value) (nm : string) : result Value :=
  match v with
  | VStruct _ fl => assoc fl nm
  | VPtr _ _ =>
      o <- dereference h v ;;
      match o with
      | VStruct _ fl => assoc fl nm
      | _ => Raise GdbError
      end
  | _ => Raise GdbError
  end.

(** [v[f]] for a [gdb.Field] [f]. *)
Definition field_of (h : Host) (v : Value) (f : Field) : result Value :=
  field h v (name f).

(** [v[i]]: an element of an array, or of the memory a pointer points into. *)
Definition subscript (h : Host) (v : Value) (i : Z) : result Value :=
  match v with
  | VArray el =>
      if i <? 0 then Raise GdbError
      else match nth_error el (Z.to_nat i) with
           | Some e => Ok e
           | None => Raise GdbError
           end
  | VPtr _ _ => p <- ptr_add v i ;; dereference h p
  | _ => Raise GdbError
  end.

(** Integer arithmetic on a [gdb.Value] with a Python integer operand: the
    operand becomes a signed [long]; the result is an unsigned [long] when
    the value is unsigned and as wide as a [long], a signed [long]
    otherwise, and wraps accordingly. *)
Definition long_bits : Z := 8 * word_size.

Definition promote (t : gdb_type) : gdb_type :=
  match t with
  | TInt _ false s =>
      if word_size <=? s then TInt "unsigned long" false word_size
      else TInt "long" true word_size
  | _ => TInt "long" true word_size
  end.

Definition wrap (t : gdb_type) (n : Z) : Z :=
  match t with
  | TInt _ false _ => n mod 2 ^ long_bits
  | _ => (n + 2 ^ (long_bits - 1)) mod 2 ^ long_bits - 2 ^ (long_bits - 1)
  end.

Definition binop (op : Z -> Z -> Z) (v : Value) (k : Z) : result Value :=
  match v with
  | VInt t n => let t' := promote t in Ok (VInt t' (wrap t' (op n k)))
  | _ => Raise TypeError
  end.

(** [v - k] and [v & k]. *)
Definition value_sub : Value -> Z -> result Value := binop Z.sub.
Definition value_and : Value -> Z -> result Value := binop Z.land.

(** [str(v)], what [format] inserts for a [gdb.Value] argument.  Only
    integers are ever formatted by the providers. *)
Definition value_str (v : Value) : string :=
  match v with
  | VInt _ n => str_of_int n
  | VPtr _ a => str_of_int a
  | VStruct _ _ => "{...}"
  | VArray _ => "[...]"
  end.

Definition ZERO_FIELD : string := "__0".
Definition FIRST_FIELD : string := "__1".

(** [gdb.Value(n)] for a Python integer. *)
Definition gdb_Value (n : Z) : Value := VInt (TInt "long" true word_size) n.

(** A loop that updates a local variable and may raise. *)
Fixpoint for_acc {S I : Type} (l : list I) (s : S)
    (body : S -> I -> result S) : result S :=
  match l with
  | [] => Ok s
  | x :: l' => s' <- body s x ;; for_acc l' s' body
  end.

(** [for i, x in enumerate(g): body] where [g] is itself a generator: the
    body runs on what [g] yielded, then the exception that ended [g], if
    any, propagates. *)
Fixpoint enumerate_from {A : Type} (i : Z) (l : list A) : list (Z * A) :=
  match l with
  | [] => []
  | x :: l' => (i, x) :: enumerate_from (i + 1) l'
  end.

Definition enumerate {A : Type} (l : list A) : list (Z * A) :=
  enumerate_from 0 l.

Definition gfor_gen {A B : Type} (g : gen A) (body : Z -> A -> gen B) : gen B :=
  gfor (enumerate (yielded g)) (fun p => body (fst p) (snd p))
  ;;; Gen [] (raised g).

(** ** The providers *)

Definition child : Type := (string * Value)%type.

(** [unwrap_unique_or_non_null] *)
Definition unwrap_unique_or_non_null (h : Host) (unique_or_nonnull : Value)
    : result Value :=
  ptr <- field h unique_or_nonnull "pointer" ;;
  if type_code_eqb (code ptr) TYPE_CODE_PTR then Ok ptr
  else field h ptr ZERO_FIELD.

Module EnumProvider.

(** [self.empty] is the constructor; [name] and [active_variant] only
    exist on a non-empty provider. *)
Inductive t : Type :=
| Empty (full_name : string)
| Active (active_variant : Value) (name : string) (full_name : string).

(** The discriminant computed by [__init__] for a non-empty field list. *)
Definition discriminant (h : Host) (content : Value) (fields : list Field)
    : result Z :=
  if (List.length fields =? 1)%nat then Ok 0
  else
    f0 <- py_index fields 0 ;;
    tag <- field_of h content f0 ;;
    n <- int tag ;;
    Ok (n + 1).

Definition init (h : Host) (valobj : Value) : result t :=
  f0 <- py_index (fields valobj) 0 ;;
  content <- field_of h valobj f0 ;;
  let fields := fields content in
  let empty := (List.length fields =? 0)%nat in
  if negb empty then
    discriminant <- discriminant h content fields ;;
    fd <- py_index fields discriminant ;;
    active_variant <- field_of h content fd ;;
    fd' <- py_index fields discriminant ;;
    let name := name fd' in
    tn <- type_name_of valobj ;;
    full_name <- format "{}::{}" [tn; name] ;;
    Ok (Active active_variant name full_name)
  else
    tn <- type_name_of valobj ;;
    Ok (Empty tn).

Definition empty (self : t) : bool :=
  match self with Empty _ => true | Active _ _ _ => false end.

Definition to_string (self : t) : string :=
  match self with
  | Empty full_name => full_name
  | Active _ _ full_name => full_name
  end.

Definition children (self : t) : gen child :=
  match self with
  | Empty _ => gpass
  | Active active_variant name _ => gyield (name, active_variant)
  end.

End EnumProvider.

Module StdVecProvider.

Record t : Type := mk {
  valobj : Value;
  length : Z;
  data_ptr : Value
}.

Definition init (h : Host) (valobj : Value) : result t :=
  len <- field h valobj "len" ;;
  length <- int len ;;
  buf <- field h valobj "buf" ;;
  ptr <- field h buf "ptr" ;;
  data_ptr <- unwrap_unique_or_non_null h ptr ;;
  Ok (mk valobj length data_ptr).

Definition to_string (self : t) : result string :=
  format "size={}" [str_of_int (length self)].

Definition children (h : Host) (self : t) : gen child :=
  gfor (xrange 0 (length self)) (fun index =>
    key <~ format "[{}]" [str_of_int index] ;;
    p <~ ptr_add (data_ptr self) index ;;
    v <~ dereference h p ;;
    gyield (key, v)).

Definition display_hint : string := "array".

End StdVecProvider.

Module StdVecDequeProvider.

Record t : Type := mk {
  valobj : Value;
  head : Z;
  tail : Z;
  cap : Z;
  data_ptr : Value;
  size : Z
}.

Definition init (h : Host) (valobj : Value) : result t :=
  hd <- field h valobj "head" ;;
  head <- int hd ;;
  tl <- field h valobj "tail" ;;
  tail <- int tl ;;
  buf <- field h valobj "buf" ;;
  c <- field h buf "cap" ;;
  cap <- int c ;;
  buf' <- field h valobj "buf" ;;
  ptr <- field h buf' "ptr" ;;
  data_ptr <- unwrap_unique_or_non_null h ptr ;;
  let size := if head >=? tail then head - tail else cap + head - tail in
  Ok (mk valobj head tail cap data_ptr size).

Definition to_string (self : t) : result string :=
  format "size={}" [str_of_int (size self)].

(** The buffer slot read for logical position [index]. *)
Definition slot (self : t) (index : Z) : result Z :=
  py_mod (tail self + index) (cap self).

Definition children (h : Host) (self : t) : gen child :=
  gfor (xrange 0 (size self)) (fun index =>
    key <~ format "[{}]" [str_of_int index] ;;
    k <~ slot self index ;;
    p <~ ptr_add (data_ptr self) k ;;
    v <~ dereference h p ;;
    gyield (key, v)).

Definition display_hint : string := "array".

End StdVecDequeProvider.

Module StdRcProvider.

Record t : Type := mk {
  valobj : Value;
  ptr : Value;
  value : Value;
  strong : Value;
  weak : Value
}.

Definition init (h : Host) (valobj : Value) (is_atomic : bool) : result t :=
  p <- field h valobj "ptr" ;;
  ptr <- unwrap_unique_or_non_null h p ;;
  value <- field h ptr (if is_atomic then "data" else "value") ;;
  s <- field h ptr "strong" ;;
  s' <- field h s (if is_atomic then "v" else "value") ;;
  strong <- field h s' "value" ;;
  w <- field h ptr "weak" ;;
  w' <- field h w (if is_atomic then "v" else "value") ;;
  w'' <- field h w' "value" ;;
  weak <- value_sub w'' 1 ;;
  Ok (mk valobj ptr value strong weak).

Definition to_string (self : t) : result string :=
  s <- int (strong self) ;;
  w <- int (weak self) ;;
  format "strong={}, weak={}" [str_of_int s; str_of_int w].

Definition children (self : t) : gen child :=
  gyield ("value", value self) ;;;
  gyield ("strong", strong self) ;;;
  gyield ("weak", weak self).

End StdRcProvider.

Module StdCellProvider.

Record t : Type := mk { value : Value }.

Definition init (h : Host) (valobj : Value) : result t :=
  v <- field h valobj "value" ;;
  value <- field h v "value" ;;
  Ok (mk value).

Definition children (self : t) : gen child :=
  gyield ("value", value self).

End StdCellProvider.

Module StdRefProvider.

Record t : Type := mk { value : Value; borrow : Value }.

Definition init (h : Host) (valobj : Value) : result t :=
  v <- field h valobj "value" ;;
  value <- dereference h v ;;
  b <- field h valobj "borrow" ;;
  b' <- field h b "borrow" ;;
  b'' <- field h b' "value" ;;
  borrow <- field h b'' "value" ;;
  Ok (mk value borrow).

Definition to_string (self : t) : result string :=
  borrow <- int (borrow self) ;;
  if borrow >=? 0 then format "borrow={}" [str_of_int borrow]
  else format "borrow_mut={}" [str_of_int (- borrow)].

Definition children (self : t) : gen child :=
  gyield ("*value", value self) ;;;
  gyield ("borrow", borrow self).

End StdRefProvider.

Module StdRefCellProvider.

Record t : Type := mk { value : Value; borrow : Value }.

Definition init (h : Host) (valobj : Value) : result t :=
  v <- field h valobj "value" ;;
  value <- field h v "value" ;;
  b <- field h valobj "borrow" ;;
  b' <- field h b "value" ;;
  borrow <- field h b' "value" ;;
  Ok (mk value borrow).

Definition to_string (self : t) : result string :=
  borrow <- int (borrow self) ;;
  if borrow >=? 0 then format "borrow={}" [str_of_int borrow]
  else format "borrow_mut={}" [str_of_int (- borrow)].

Definition children (self : t) : gen child :=
  gyield ("value", value self) ;;;
  gyield ("borrow", borrow self).

End StdRefCellProvider.

(** What [children_of_node] yields: a bare key, or a [(key, value)] tuple. *)
Inductive node_item : Type :=
| Key (k : Value)
| KeyVal (k v : Value).

(** [child[i]] on a yielded item. *)
Definition item_get (h : Host) (c : node_item) (i : Z) : result Value :=
  match c with
  | KeyVal k v => py_index [k; v] i
  | Key k => subscript h k i
  end.

Definition cast_to_internal (h : Host) (node : Value) : result Value :=
  nt <- type_of node ;;
  tt <- target nt ;;
  let internal_type_name := replace "LeafNode" "InternalNode" (type_str tt) in
  internal_type <- lookup_type h internal_type_name ;;
  cast node (pointer internal_type).

(** [children_of_node]: yield each key (and optionally value) from a
    BoxedNode. *)
Fixpoint children_of_node (h : Host) (boxed_node : Value) (height : nat)
    (want_values : bool) : gen node_item :=
  p <~ field h boxed_node "ptr" ;;
  ptr <~ field h p "pointer" ;;
  node <~ field h ptr ZERO_FIELD ;;
  node <~ (match height with S _ => cast_to_internal h node | O => Ok node end) ;;
  leaf <~ (match height with S _ => field h node "data" | O => dereference h node end) ;;
  k <~ field h leaf "keys" ;;
  k' <~ field h k "value" ;;
  keys <~ field h k' "value" ;;
  v <~ field h leaf "vals" ;;
  v' <~ field h v "value" ;;
  values <~ field h v' "value" ;;
  len <~ field h leaf "len" ;;
  length <~ int len ;;
  gfor (xrange 0 (length + 1)) (fun i =>
    match height with
    | S height' =>
        edges <~ field h node "edges" ;;
        edge <~ subscript h edges i ;;
        children_of_node h edge height' want_values
    | O => gpass
    end ;;;
    if i <? length then
      if want_values then
        key <~ subscript h keys i ;;
        val <~ subscript h values i ;;
        gyield (KeyVal key val)
      else
        key <~ subscript h keys i ;;
        gyield (Key key)
    else gpass).

Module StdBTreeSetProvider.

Record t : Type := mk { valobj : Value }.

Definition init (valobj : Value) : t := mk valobj.

Definition to_string (h : Host) (self : t) : result string :=
  m <- field h (valobj self) "map" ;;
  len <- field h m "length" ;;
  format "size=" [value_str len].

(** [root["height"]] is an unsigned machine integer; the walk only tests
    [height > 0] and passes [height - 1] down, so it is read once here as
    a natural number.  With [want_values=False] the walk yields bare keys
    only (lemma [children_of_node_keys_only]). *)
Definition children (h : Host) (self : t) : gen child :=
  m <~ field h (valobj self) "map" ;;
  root <~ field h m "root" ;;
  node_ptr <~ field h root "node" ;;
  hv <~ field h root "height" ;;
  height <~ int hv ;;
  gfor_gen (children_of_node h node_ptr (Z.to_nat height) false)
    (fun i child =>
       key <~ format "[{}]" [str_of_int i] ;;
       match child with
       | Key k => gyield (key, k)
       | KeyVal _ _ => Gen [] (Some TypeError)
       end).

Definition display_hint : string := "array".

End StdBTreeSetProvider.

Module StdBTreeMapProvider.

Record t : Type := mk { valobj : Value }.

Definition init (valobj : Value) : t := mk valobj.

Definition to_string (h : Host) (self : t) : result string :=
  len <- field h (valobj self) "length" ;;
  format "size=" [value_str len].

Definition children (h : Host) (self : t) : gen child :=
  root <~ field h (valobj self) "root" ;;
  node_ptr <~ field h root "node" ;;
  hv <~ field h root "height" ;;
  height <~ int hv ;;
  gfor_gen (children_of_node h node_ptr (Z.to_nat height) true)
    (fun i child =>
       (kname <~ format "key{}" [str_of_int i] ;;
        k <~ item_get h child 0 ;;
        gyield (kname, k)) ;;;
       (vname <~ format "val{}" [str_of_int i] ;;
        v <~ item_get h child 1 ;;
        gyield (vname, v))).

Definition display_hint : string := "map".

End StdBTreeMapProvider.

(** The loop body shared by both hash-table [children]: the entries shown
    for the [index]-th occupied bucket. *)
Definition table_entry (h : Host) (show_values : bool) (index : Z)
    (element : Value) : gen child :=
  if show_values then
    (kname <~ format "key{}" [str_of_int index] ;;
     k <~ field h element ZERO_FIELD ;;
     gyield (kname, k)) ;;;
    (vname <~ format "val{}" [str_of_int index] ;;
     v <~ field h element FIRST_FIELD ;;
     gyield (vname, v))
  else
    key <~ format "[{}]" [str_of_int index] ;;
    k <~ field h element ZERO_FIELD ;;
    gyield (key, k).

Module StdOldHashMapProvider.

Record t : Type := mk {
  valobj : Value;
  show_values : bool;
  table : Value;
  size : Z;
  hashes : Value;
  hash_uint_type : gdb_type;
  hash_uint_size : Z;
  modulo : Z;
  data_ptr : Value;
  capacity_mask : Z;
  capacity : Z;
  pair_type : gdb_type;
  pair_type_size : Z;
  valid_indices : list Z
}.

(** Whether the hash word of bucket [idx] marks it occupied. *)
Definition occupied (h : Host) (data_ptr : Value) (hash_uint_type : gdb_type)
    (idx : Z) : result bool :=
  data_ptr' <- cast data_ptr (pointer hash_uint_type) ;;
  address <- ptr_add data_ptr' idx ;;
  hash_uint <- dereference h address ;;
  z <- field h hash_uint ZERO_FIELD ;;
  hash_ptr <- field h z "pointer" ;;
  n <- int hash_ptr ;;
  Ok (negb (n =? 0)).

Definition init (h : Host) (valobj : Value) (show_values : bool) : result t :=
  table <- field h valobj "table" ;;
  sz <- field h table "size" ;;
  size <- int sz ;;
  hashes <- field h table "hashes" ;;
  hash_uint_type <- type_of hashes ;;
  let hash_uint_size := sizeof hash_uint_type in
  let modulo := 2 ^ hash_uint_size in
  z <- field h hashes ZERO_FIELD ;;
  data_ptr <- field h z "pointer" ;;
  cm <- field h table "capacity_mask" ;;
  capacity_mask <- int cm ;;
  capacity <- py_mod (capacity_mask + 1) modulo ;;
  mk' <- field h table "marker" ;;
  marker <- type_of mk' ;;
  pair_type <- template_argument marker 0 ;;
  let pair_type_size := sizeof pair_type in
  valid_indices <-
    for_acc (xrange 0 capacity) [] (fun valid_indices idx =>
      b <- occupied h data_ptr hash_uint_type idx ;;
      Ok (if b then (valid_indices ++ [idx])%list else valid_indices)) ;;
  Ok (mk valobj show_values table size hashes hash_uint_type hash_uint_size
         modulo data_ptr capacity_mask capacity pair_type pair_type_size
         valid_indices).

Definition to_string (self : t) : result string :=
  format "size={}" [str_of_int (size self)].

(** The offset of the pair array from the start of the allocation. *)
Definition pairs_offset (self : t) : result Z :=
  let hashes := hash_uint_size self * capacity self in
  let align := pair_type_size self in
  a <- py_mod (hashes + align) (modulo self) ;;
  b <- py_mod (a - 1) (modulo self) ;;
  c <- py_mod (align - 1) (modulo self) ;;
  d <- py_mod (Z.land b (Z.lnot c)) (modulo self) ;;
  len_rounded_up <- py_mod (d - hashes) (modulo self) ;;
  Ok (hashes + len_rounded_up).

Definition children (h : Host) (self : t) : gen child :=
  s <~ int (data_ptr self) ;;
  let start := Z.land s (Z.lnot 1) in
  pairs_offset <~ pairs_offset self ;;
  pairs_start <~ cast (gdb_Value (start + pairs_offset))
                      (pointer (pair_type self)) ;;
  gfor (xrange 0 (size self)) (fun index =>
    table_index <~ py_index (valid_indices self) index ;;
    let idx := Z.land table_index (capacity_mask self) in
    p <~ ptr_add pairs_start idx ;;
    element <~ dereference h p ;;
    table_entry h (show_values self) index element).

Definition display_hint (self : t) : string :=
  if show_values self then "map" else "array".

End StdOldHashMapProvider.

Module StdHashMapProvider.

Record t : Type := mk {
  valobj : Value;
  show_values : bool;
  size : Z;
  data_ptr : Value;
  pair_type : gdb_type;
  valid_indices : list Z
}.

(** [is_presented]: the control byte of bucket [idx] has its high bit
    clear. *)
Definition is_presented (h : Host) (ctrl : Value) (idx : Z) : result bool :=
  address <- ptr_add ctrl idx ;;
  value <- dereference h address ;;
  masked <- value_and value 128 ;;
  n <- int masked ;;
  Ok (n =? 0).

Definition init (h : Host) (valobj : Value) (show_values : bool) : result t :=
  base <- field h valobj "base" ;;
  table <- field h base "table" ;;
  bm <- field h table "bucket_mask" ;;
  bucket_mask <- int bm ;;
  let capacity := bucket_mask + 1 in
  c <- field h table "ctrl" ;;
  ctrl <- field h c "pointer" ;;
  it <- field h table "items" ;;
  size <- int it ;;
  d <- field h table "data" ;;
  data_ptr <- field h d "pointer" ;;
  pt <- type_of data_ptr ;;
  pair_type <- target pt ;;
  valid_indices <-
    for_acc (xrange 0 capacity) [] (fun valid_indices idx =>
      b <- is_presented h ctrl idx ;;
      Ok (if b then (valid_indices ++ [idx])%list else valid_indices)) ;;
  Ok (mk valobj show_values size data_ptr pair_type valid_indices).

Definition to_string (self : t) : result string :=
  format "size={}" [str_of_int (size self)].

Definition children (h : Host) (self : t) : gen child :=
  let pairs_start := data_ptr self in
  gfor (xrange 0 (size self)) (fun index =>
    idx <~ py_index (valid_indices self) index ;;
    p <~ ptr_add pairs_start idx ;;
    element <~ dereference h p ;;
    table_entry h (show_values self) index element).

Definition display_hint (self : t) : string :=
  if show_values self then "map" else "array".

End StdHashMapProvider.

(** ** Hash tables, abstractly *)

(** The entries shown for the [n]-th occupied bucket, holding key [k] and
    value [v]. *)
Definition entries (show_values : bool) (n : Z) (k v : Value) : list child :=
  if show_values
  then [("key" ++ str_of_int n, k); ("val" ++ str_of_int n, v)]%string
  else [("[" ++ str_of_int n ++ "]", k)]%string.

(** The buckets of a current-layout table that hold an entry: those whose
    control byte has its high bit clear. *)
Definition occupied_buckets (ctrl_bytes : Z -> Z) (capacity : Z) : list Z :=
  filter (fun idx => negb (Z.testbit (ctrl_bytes idx) 7)) (xrange 0 capacity).

(** The buckets of a legacy table that hold an entry: those whose hash
    word is not zero. *)
Definition occupied_words (hash_words : Z -> Z) (capacity : Z) : list Z :=
  filter (fun idx => negb (hash_words idx =? 0)) (xrange 0 capacity).

(** ** B-trees, abstractly *)

(** A B-tree node: its keys, its values (one per key) and, at internal
    height, its child edges. *)
Inductive btree : Type :=
| BNode (keys vals : list Value) (edges : list btree).

Fixpoint btree_induction (P : btree -> Prop)
    (step : forall ks vs es, Forall P es -> P (BNode ks vs es))
    (t : btree) : P t :=
  match t with
  | BNode ks vs es =>
      step ks vs es
        ((fix all (l : list btree) : Forall P l :=
            match l with
            | [] => Forall_nil P
            | e :: l' => Forall_cons e (btree_induction P step e) (all l')
            end) es)
  end.

(** Every key stored anywhere in the tree, node by node. *)
Fixpoint keys_of (t : btree) : list Value :=
  match t with
  | BNode ks _ es => (ks ++ flat_map keys_of es)%list
  end.

(** [interleave [s0; s1; ...; sn] [k0; ...; k(n-1)]] is
    [s0 ++ k0 :: s1 ++ k1 :: ... ++ sn]; with no [s] at all (a leaf) it is
    the [k]s. *)
Fixpoint interleave {A : Type} (subs : list (list A)) (seps : list A) : list A :=
  match subs, seps with
  | [], _ => seps
  | s :: subs', [] => (s ++ interleave subs' [])%list
  | s :: subs', k :: seps' => (s ++ k :: interleave subs' seps')%list
  end.

(** What one loop index contributes: an element if there is one. *)
Definition opt_list {A : Type} (o : option A) : list A :=
  match o with
  | Some a => [a]
  | None => []
  end.

(** The entries of one node, as the walk yields them. *)
Definition items (want_values : bool) (ks vs : list Value) : list node_item :=
  if want_values then map (fun kv => KeyVal (fst kv) (snd kv)) (combine ks vs)
  else map Key ks.

(** In-order traversal: each key after the whole subtree on its left and
    before the whole subtree on its right. *)
Fixpoint inorder (want_values : bool) (t : btree) : list node_item :=
  match t with
  | BNode ks vs es =>
      interleave (map (inorder want_values) es) (items want_values ks vs)
  end.

Fixpoint inorder_keys (t : btree) : list Value :=
  match t with
  | BNode ks _ es => interleave (map inorder_keys es) ks
  end.

Definition item_key (c : node_item) : Value :=
  match c with
  | Key k => k
  | KeyVal k _ => k
  end.

(** The shape of a tree of a given height: one value per key, no edges at
    height 0, [len + 1] edges above. *)
Fixpoint well_formed (height : nat) (t : btree) {struct height} : Prop :=
  match t with
  | BNode ks vs es =>
      List.length vs = List.length ks /\
      match height with
      | O => es = []
      | S height' =>
          List.length es = S (List.length ks) /\
          Forall (well_formed height') es
      end
  end.

Section SearchOrder.

(** The order on keys. *)
Variable lt : Value -> Value -> Prop.

(** Key [i] separates subtree [i] from subtree [i + 1]: every key on its
    left is smaller, every key on its right is larger. *)
Fixpoint separates (subs : list (list Value)) (ks : list Value) : Prop :=
  match subs, ks with
  | s0 :: ((s1 :: _) as rest), k :: ks' =>
      Forall (fun x => lt x k) s0 /\ Forall (lt k) s1 /\ separates rest ks'
  | _, _ => True
  end.

(** The search-tree invariant of a tree built from distinct keys. *)
Inductive search_tree : btree -> Prop :=
| search_node (ks vs : list Value) (es : list btree) :
    StronglySorted lt ks ->
    es = [] \/ List.length es = S (List.length ks) ->
    separates (map keys_of es) ks ->
    Forall search_tree es ->
    search_tree (BNode ks vs es).

End SearchOrder.

(** ** B-trees, in memory *)

(** The leaf-shaped header of a node holds the keys [ks] and values [vs]:
    its [len] field is their number and its key and value arrays start
    with them (the arrays have a fixed capacity; what lies beyond [len] is
    uninitialised). *)
Definition leaf_repr (h : Host) (leaf : Value) (ks vs : list Value) : Prop :=
  exists karr varr,
    (k <- field h leaf "keys" ;; k' <- field h k "value" ;; field h k' "value")
      = Ok (VArray karr) /\
    (v <- field h leaf "vals" ;; v' <- field h v "value" ;; field h v' "value")
      = Ok (VArray varr) /\
    (l <- field h leaf "len" ;; int l) = Ok (Z.of_nat (List.length ks)) /\
    List.length vs = List.length ks /\
    firstn (List.length ks) karr = ks /\
    firstn (List.length ks) varr = vs.

(** [boxed] is a BoxedNode owning a node of the given height that stores
    the tree [t]: a leaf at height 0; above, an internal node whose header
    is leaf-shaped and whose first [len + 1] edges own the children. *)
Fixpoint node_repr (h : Host) (height : nat) (boxed : Value) (t : btree)
    {struct height} : Prop :=
  match t with
  | BNode ks vs es =>
      exists (lty : gdb_type) (a : Z) (leaf : Value),
        (p <- field h boxed "ptr" ;; q <- field h p "pointer" ;;
         field h q ZERO_FIELD) = Ok (VPtr lty a) /\
        leaf_repr h leaf ks vs /\
        match height with
        | O => es = [] /\ dereference h (VPtr lty a) = Ok leaf
        | S height' =>
            exists (ity : gdb_type) (earr : list Value),
              lookup_type h (replace "LeafNode" "InternalNode" (type_str lty))
                = Ok ity /\
              field h (VPtr ity a) "data" = Ok leaf /\
              field h (VPtr ity a) "edges" = Ok (VArray earr) /\
              List.length es = S (List.length ks) /\
              Forall2 (node_repr h height') (firstn (List.length es) earr) es
        end
  end.

(** ** Fixtures: small inspected images *)

Definition usize : gdb_type := TInt "usize" false 8.
Definition isize : gdb_type := TInt "isize" true 8.
Definition i32 : gdb_type := TInt "i32" true 4.
Definition u8 : gdb_type := TInt "u8" false 1.

(** A memory image given as a list of typed objects. *)
Fixpoint image (objs : list (Z * gdb_type * Value)) (a : Z) (tn : string)
    : option Value :=
  match objs with
  | [] => None
  | (a', t, v) :: objs' =>
      if andb (a =? a') (String.eqb tn (type_str t)) then Some v
      else image objs' a tn
  end.

(** A type table given as a list of types, found by their names. *)
Fixpoint type_table (ts : list gdb_type) (nm : string) : option gdb_type :=
  match ts with
  | [] => None
  | t :: ts' => if String.eqb nm (type_str t) then Some t else type_table ts' nm
  end.

(** [Unique<T>] / [NonNull<T>] holding its raw pointer directly. *)
Definition unique (t : gdb_type) (a : Z) : Value :=
  VStruct (TStruct "core::ptr::unique::Unique" 8 [t]) [("pointer", VPtr t a)].

(** The older layout: the raw pointer sits one level deeper. *)
Definition unique_nested (t : gdb_type) (a : Z) : Value :=
  VStruct (TStruct "core::ptr::Unique" 8 [t])
    [("pointer", VStruct (TStruct "core::nonzero::NonZero" 8 [TPtr t])
                   [(ZERO_FIELD, VPtr t a)])].

Definition raw_vec (t : gdb_type) (a cap : Z) : Value :=
  VStruct (TStruct "alloc::raw_vec::RawVec" 16 [t])
    [("ptr", unique t a); ("cap", VInt usize cap)].

Module VecFixture.

(** [vec![10, 20, 30]] with capacity 4, stored at address 1000. *)
Definition host : Host :=
  mkHost (image [(1000, i32, VInt i32 10); (1004, i32, VInt i32 20);
                 (1008, i32, VInt i32 30)])
         (type_table [i32]).

Definition valobj : Value :=
  VStruct (TStruct "alloc::vec::Vec<i32>" 24 [i32])
    [("buf", raw_vec i32 1000 4); ("len", VInt usize 3)].

Definition elems (i : Z) : Value := VInt i32 (10 * (i + 1)).

End VecFixture.

Module DequeFixture.

(** Capacity 4, head 1, tail 3, backing slots [A, B, C, D] = 65..68. *)
Definition host : Host :=
  mkHost (image [(2000, i32, VInt i32 65); (2004, i32, VInt i32 66);
                 (2008, i32, VInt i32 67); (2012, i32, VInt i32 68)])
         (type_table [i32]).

Definition valobj : Value :=
  VStruct (TStruct "alloc::collections::vec_deque::VecDeque<i32>" 32 [i32])
    [("tail", VInt usize 3); ("head", VInt usize 1);
     ("buf", raw_vec i32 2000 4)].

Definition slots (k : Z) : Value := VInt i32 (65 + k).

(** An empty ring buffer whose capacity field reads zero. *)
Definition empty_valobj : Value :=
  VStruct (TStruct "alloc::collections::vec_deque::VecDeque<i32>" 32 [i32])
    [("tail", VInt usize 0); ("head", VInt usize 0);
     ("buf", raw_vec i32 2000 0)].

End DequeFixture.

Module BTreeFixture.

(** A map from [i32] to [i32] of height 2 holding the keys 10, 20, ..., 80,
    each mapped to itself plus 1000.  Key and value arrays have room for
    three entries, edge arrays for four. *)
Definition leaf_ty : gdb_type :=
  TStruct "alloc::collections::btree::node::LeafNode<i32, i32>" 40 [i32; i32].
Definition internal_ty : gdb_type :=
  TStruct "alloc::collections::btree::node::InternalNode<i32, i32>" 72
          [i32; i32].
Definition u16 : gdb_type := TInt "u16" false 2.

Definition key (k : Z) : Value := VInt i32 k.
Definition val (k : Z) : Value := VInt i32 (k + 1000).

Definition pad (l : list Value) (n : nat) (d : Value) : list Value :=
  (l ++ repeat d (n - List.length l))%list.

Definition maybe_uninit (x : Value) : Value :=
  VStruct (TStruct "core::mem::MaybeUninit" 12 [])
    [("value", VStruct (TStruct "core::mem::ManuallyDrop" 12 [])
                 [("value", x)])].

Definition leaf (ks : list Z) : Value :=
  VStruct leaf_ty
    [("parent", VPtr internal_ty 0);
     ("parent_idx", maybe_uninit (VInt u16 0));
     ("len", VInt u16 (Z.of_nat (List.length ks)));
     ("keys", maybe_uninit (VArray (pad (map key ks) 3 (VInt i32 (-1)))));
     ("vals", maybe_uninit (VArray (pad (map val ks) 3 (VInt i32 (-1)))))].

Definition boxed (a : Z) : Value :=
  VStruct (TStruct "alloc::collections::btree::node::BoxedNode<i32, i32>" 8
                   [i32; i32])
    [("ptr", unique_nested leaf_ty a)].

Definition internal (ks : list Z) (edges : list Z) : Value :=
  VStruct internal_ty
    [("data", leaf ks);
     ("edges", VArray (pad (map boxed edges) 4 (boxed 0)))].

Definition host : Host :=
  mkHost (image [(100, internal_ty, internal [40] [200; 300]);
                 (200, internal_ty, internal [20] [400; 500]);
                 (300, internal_ty, internal [60] [600; 700]);
                 (400, leaf_ty, leaf [10]);
                 (500, leaf_ty, leaf [30]);
                 (600, leaf_ty, leaf [50]);
                 (700, leaf_ty, leaf [70; 80])])
         (type_table [leaf_ty; internal_ty; i32]).

Definition node (ks : list Z) (es : list btree) : btree :=
  BNode (map key ks) (map val ks) es.

Definition tree : btree :=
  node [40] [node [20] [node [10] []; node [30] []];
             node [60] [node [50] []; node [70; 80] []]].

Definition sorted_keys : list Value :=
  map key [10; 20; 30; 40; 50; 60; 70; 80].

(** Keys compared as the integers they hold. *)
Definition key_lt (a b : Value) : Prop :=
  match a, b with
  | VInt _ x, VInt _ y => x < y
  | _, _ => False
  end.

Definition root : Value :=
  VStruct (TStruct "alloc::collections::btree::node::Root<i32, i32>" 16
                   [i32; i32])
    [("node", boxed 100); ("height", VInt usize 2)].

Definition map_valobj : Value :=
  VStruct (TStruct "alloc::collections::btree::map::BTreeMap<i32, i32>" 24
                   [i32; i32])
    [("root", root); ("length", VInt usize 8)].

Definition set_valobj : Value :=
  VStruct (TStruct "alloc::collections::btree::set::BTreeSet<i32>" 24 [i32])
    [("map", map_valobj)].

End BTreeFixture.

Module RcFixture.

Definition rcbox_ty : gdb_type := TStruct "alloc::rc::RcBox<i32>" 24 [i32].
Definition arcinner_ty : gdb_type :=
  TStruct "alloc::sync::ArcInner<i32>" 24 [i32].

Definition unsafe_cell (t : gdb_type) (n : Z) : Value :=
  VStruct (TStruct "core::cell::UnsafeCell" (sizeof t) [t])
    [("value", VInt t n)].

Definition cell (t : gdb_type) (n : Z) : Value :=
  VStruct (TStruct "core::cell::Cell" (sizeof t) [t])
    [("value", unsafe_cell t n)].

Definition atomic (n : Z) : Value :=
  VStruct (TStruct "core::sync::atomic::AtomicUsize" 8 [])
    [("v", unsafe_cell usize n)].

(** An [Rc<i32>] holding 42 with stored strong 2 and weak 3, and an
    [Arc<i32>] holding 7 with stored strong 1 and weak 1. *)
Definition host : Host :=
  mkHost (image [(3000, rcbox_ty,
                  VStruct rcbox_ty [("strong", cell usize 2);
                                    ("weak", cell usize 3);
                                    ("value", VInt i32 42)]);
                 (4000, arcinner_ty,
                  VStruct arcinner_ty [("strong", atomic 1);
                                       ("weak", atomic 1);
                                       ("data", VInt i32 7)])])
         (type_table [rcbox_ty; arcinner_ty; i32]).

Definition rc_valobj : Value :=
  VStruct (TStruct "alloc::rc::Rc<i32>" 8 [i32])
    [("ptr", unique rcbox_ty 3000)].

Definition arc_valobj : Value :=
  VStruct (TStruct "alloc::sync::Arc<i32>" 8 [i32])
    [("ptr", unique arcinner_ty 4000)].

End RcFixture.

Module RefCellFixture.

Definition cell_isize_ty : gdb_type := TStruct "core::cell::Cell" 8 [isize].

(** A [RefCell<i32>] holding 5 with borrow counter [n], and a guard
    borrowed from it. *)
Definition host (n : Z) : Host :=
  mkHost (image [(7000, i32, VInt i32 5);
                 (7008, cell_isize_ty, RcFixture.cell isize n)])
         (type_table [i32]).

Definition refcell_valobj (n : Z) : Value :=
  VStruct (TStruct "core::cell::RefCell<i32>" 16 [i32])
    [("borrow", RcFixture.cell isize n);
     ("value", RcFixture.unsafe_cell i32 5)].

Definition ref_valobj : Value :=
  VStruct (TStruct "core::cell::Ref<i32>" 16 [i32])
    [("value", VPtr i32 7000);
     ("borrow", VStruct (TStruct "core::cell::BorrowRef" 8 [])
                  [("borrow", VPtr cell_isize_ty 7008)])].

End RefCellFixture.

Module EnumFixture.

Definition variant (nm : string) (payload : Z) : Value :=
  VStruct (TStruct nm 8 []) [(ZERO_FIELD, VInt i32 payload)].

Definition enum_of (content : Value) : Value :=
  VStruct (TStruct "shapes::Shape" 16 []) [("__enum", content)].

(** Three sub-fields: the discriminant tag, then two variant payloads;
    the tag says variant 1. *)
Definition tagged : Value :=
  enum_of (VStruct (TStruct "shapes::Shape::payload" 16 [])
             [("RUST$ENUM$DISR", VInt u8 1);
              ("Circle", variant "shapes::Shape::Circle" 3);
              ("Square", variant "shapes::Shape::Square" 4)]).

(** A single sub-field: the only variant, no tag. *)
Definition single : Value :=
  enum_of (VStruct (TStruct "shapes::Shape::payload" 8 [])
             [("Circle", variant "shapes::Shape::Circle" 3)]).

(** No sub-field at all. *)
Definition uninhabited : Value :=
  enum_of (VStruct (TStruct "shapes::Shape::payload" 0 []) []).

(** Enum values are decoded from their own fields; no memory is read. *)
Definition host : Host := mkHost (image []) (type_table []).

End EnumFixture.

Definition pair_ty : gdb_type := TStruct "(i32, i32)" 8 [i32; i32].

Definition pair (k v : Z) : Value :=
  VStruct pair_ty [(ZERO_FIELD, VInt i32 k); (FIRST_FIELD, VInt i32 v)].

Module HashFixture.

(** Current layout, four buckets: control bytes 0x25, 0xFF (empty),
    0x80 (tombstone), 0x11; two items, in buckets 0 and 3. *)
Definition host : Host :=
  mkHost (image [(5000, u8, VInt u8 37); (5001, u8, VInt u8 255);
                 (5002, u8, VInt u8 128); (5003, u8, VInt u8 17);
                 (6000, pair_ty, pair 1 100); (6024, pair_ty, pair 4 400)])
         (type_table [u8; pair_ty]).

Definition table (bucket_mask items : Z) : Value :=
  VStruct (TStruct "hashbrown::raw::RawTable<(i32, i32)>" 40 [pair_ty])
    [("bucket_mask", VInt usize bucket_mask);
     ("ctrl", unique u8 5000);
     ("data", unique pair_ty 6000);
     ("growth_left", VInt usize 1);
     ("items", VInt usize items)].

Definition valobj : Value :=
  VStruct (TStruct "std::collections::hash::map::HashMap<i32, i32>" 56
                   [i32; i32])
    [("base", VStruct (TStruct "hashbrown::map::HashMap<i32, i32>" 56
                               [i32; i32])
                [("table", table 3 2)])].

Definition ctrl_bytes (idx : Z) : Z :=
  nth (Z.to_nat idx) [37; 255; 128; 17] 255.

Definition elems (idx : Z) : Value := pair (idx + 1) (100 * (idx + 1)).

End HashFixture.

Module OldHashFixture.

Definition tagged_ty : gdb_type :=
  TStruct "std::collections::hash::table::TaggedHashUintPtr" 8 [].

(** One hash word, read at the type of the [hashes] field. *)
Definition hash_word (n : Z) : Value :=
  VStruct tagged_ty [(ZERO_FIELD, unique usize n)].

Definition base : Z := 8000.

(** The single allocation of a table with [cap] buckets: [cap] hash
    words (zero when the bucket is empty), then [cap] pairs. *)
Definition allocation (cap : Z) (occupied : Z -> bool) (a : Z) (tn : string)
    : option Value :=
  let hashes_end := base + 8 * cap in
  if String.eqb tn (type_str tagged_ty) then
    if andb (andb (base <=? a) (a <? hashes_end)) ((a - base) mod 8 =? 0)
    then let idx := (a - base) / 8 in
         Some (hash_word (if occupied idx then 2 ^ 63 + idx else 0))
    else None
  else if String.eqb tn (type_str pair_ty) then
    if andb (andb (hashes_end <=? a) (a <? hashes_end + 8 * cap))
            ((a - hashes_end) mod 8 =? 0)
    then let idx := (a - hashes_end) / 8 in
         if occupied idx then Some (pair idx (idx + 1000)) else None
    else None
  else None.

Definition host (cap : Z) (occupied : Z -> bool) : Host :=
  mkHost (allocation cap occupied) (type_table [tagged_ty; pair_ty]).

Definition valobj (capacity_mask size : Z) : Value :=
  VStruct (TStruct "std::collections::hash::map::HashMap<i32, i32>" 40
                   [i32; i32])
    [("table",
      VStruct (TStruct "std::collections::hash::table::RawTable<i32, i32>" 24
                       [i32; i32])
        [("capacity_mask", VInt usize capacity_mask);
         ("size", VInt usize size);
         ("hashes", VStruct tagged_ty [(ZERO_FIELD, unique usize base)]);
         ("marker", VStruct (TStruct "core::marker::PhantomData" 0 [pair_ty])
                      [])])].

(** Four buckets, buckets 1 and 3 occupied. *)
Definition small_occupied (idx : Z) : bool := orb (idx =? 1) (idx =? 3).
Definition small_host : Host := host 4 small_occupied.
Definition small_valobj : Value := valobj 3 2.

(** 256 buckets ([capacity_mask] 255), only bucket 0 occupied: a map
    created with room for 200 entries and holding one. *)
Definition big_occupied (idx : Z) : bool := idx =? 0.
Definition big_host : Host := host 256 big_occupied.
Definition big_valobj : Value := valobj 255 1.

End OldHashFixture.

(** ** The remaining providers *)

(** [sub in s] on strings. *)
Fixpoint contains (sub s : string) : bool :=
  orb (prefix sub s)
      match s with
      | EmptyString => false
      | String _ rest => contains sub rest
      end.

(** [gdb.LazyString]: where the text starts, how many units long it is, how
    it is encoded, and the type of its units.  The host fetches and decodes
    it when it displays it. *)
Module LazyString.

Record t : Type := mk {
  address : Z;
  length : Z;
  encoding : string;
  type : gdb_type
}.

End LazyString.

(** [p.lazy_string(encoding=..., length=...)]: only a pointer can be made
    into a lazy string here (an array value carries no address in this
    model), and a length below -1 is rejected. *)
Definition lazy_string (v : Value) (encoding : string) (length : Z)
    : result LazyString.t :=
  match v with
  | VPtr t a =>
      if length <? -1 then Raise GdbError
      else Ok (LazyString.mk a length encoding t)
  | _ => Raise GdbError
  end.

Module StructProvider.

Definition type_fields (v : Value) : list Field := fields v.

Record t : Type := mk {
  valobj : Value;
  fields : list Field
}.

Definition init (valobj : Value) : t := mk valobj (type_fields valobj).

Definition to_string (self : t) : result string :=
  type_name_of (valobj self).

Definition children (h : Host) (self : t) : gen child :=
  gfor (fields self) (fun field =>
    v <~ field_of h (valobj self) field ;;
    gyield (name field, v)).

End StructProvider.

Module TupleProvider.

Definition type_fields (v : Value) : list Field := fields v.

Record t : Type := mk {
  valobj : Value;
  fields : list Field
}.

Definition init (valobj : Value) : t := mk valobj (type_fields valobj).

Definition to_string (self : t) : result string :=
  format "size={}" [str_of_int (Z.of_nat (List.length (fields self)))].

Definition children (h : Host) (self : t) : gen child :=
  gfor (enumerate (fields self)) (fun p =>
    let i := fst p in
    let field := snd p in
    v <~ field_of h (valobj self) field ;;
    gyield (str_of_int i, v)).

Definition display_hint : string := "array".

End TupleProvider.

Module StdStringProvider.

Record t : Type := mk {
  valobj : Value;
  length : Z;
  data_ptr : Value
}.

Definition init (h : Host) (valobj : Value) : result t :=
  vec <- field h valobj "vec" ;;
  len <- field h vec "len" ;;
  length <- int len ;;
  buf <- field h vec "buf" ;;
  ptr <- field h buf "ptr" ;;
  data_ptr <- unwrap_unique_or_non_null h ptr ;;
  Ok (mk valobj length data_ptr).

Definition to_string (self : t) : result LazyString.t :=
  lazy_string (data_ptr self) "utf-8" (length self).

Definition display_hint : string := "string".

End StdStringProvider.

Module StdOsStringProvider.

Record t : Type := mk {
  valobj : Value;
  length : Z;
  data_ptr : Value
}.

Definition init (h : Host) (valobj : Value) : result t :=
  inner <- field h valobj "inner" ;;
  buf <- field h inner "inner" ;;
  nm <- type_name_of buf ;;
  let is_windows := contains "Wtf8Buf" nm in
  vec <- (if is_windows then field h buf ZERO_FIELD else Ok buf) ;;
  len <- field h vec "len" ;;
  length <- int len ;;
  b <- field h vec "buf" ;;
  ptr <- field h b "ptr" ;;
  data_ptr <- unwrap_unique_or_non_null h ptr ;;
  Ok (mk valobj length data_ptr).

Definition to_string (self : t) : result LazyString.t :=
  lazy_string (data_ptr self) "utf-8" (length self).

Definition display_hint : string := "string".

End StdOsStringProvider.

Module StdStrProvider.

Record t : Type := mk {
  valobj : Value;
  length : Z;
  data_ptr : Value
}.

Definition init (h : Host) (valobj : Value) : result t :=
  len <- field h valobj "length" ;;
  length <- int len ;;
  data_ptr <- field h valobj "data_ptr" ;;
  Ok (mk valobj length data_ptr).

Definition to_string (self : t) : result LazyString.t :=
  lazy_string (data_ptr self) "utf-8" (length self).

Definition display_hint : string := "string".

End StdStrProvider.

(** The key/value pairs of a tree in in-order. *)
Fixpoint inorder_pairs (t : btree) : list (Value * Value) :=
  match t with
  | BNode ks vs es => interleave (map inorder_pairs es) (combine ks vs)
  end.

Module StringFixture.

(** The text [hello] in a buffer of capacity 8 at address 9000. *)
Definition vec : Value :=
  VStruct (TStruct "alloc::vec::Vec<u8>" 24 [u8])
    [("buf", raw_vec u8 9000 8); ("len", VInt usize 5)].

Definition string_valobj : Value :=
  VStruct (TStruct "alloc::string::String" 24 []) [("vec", vec)].

Definition os_string (buf : Value) : Value :=
  VStruct (TStruct "std::ffi::os_str::OsString" 24 [])
    [("inner", VStruct (TStruct "std::sys::os_str::Buf" 24 [])
                 [("inner", buf)])].

Definition unix_valobj : Value := os_string vec.

Definition wtf8buf : Value :=
  VStruct (TStruct "std::sys_common::wtf8::Wtf8Buf" 24 []) [(ZERO_FIELD, vec)].

Definition windows_valobj : Value := os_string wtf8buf.

Definition str_valobj : Value :=
  VStruct (TStruct "&str" 16 [])
    [("data_ptr", VPtr u8 9000); ("length", VInt usize 5)].

Definition host : Host := mkHost (image []) (type_table [u8]).

End StringFixture.

Module StructFixture.

(** A struct and a tuple struct with the same two fields. *)
Definition point : Value :=
  VStruct (TStruct "geometry::Point" 8 [])
    [("x", VInt i32 3); ("y", VInt i32 4)].

Definition tuple : Value :=
  VStruct (TStruct "(i32, i32)" 8 [i32; i32])
    [(ZERO_FIELD, VInt i32 3); (FIRST_FIELD, VInt i32 4)].

Definition host : Host := mkHost (image []) (type_table [i32]).

End StructFixture.

Module UnwrappedDequeFixture.

(** A ring buffer over the buffer of [VecFixture] that has not wrapped
    around: tail 0, head 3, capacity 4. *)
Definition valobj : Value :=
  VStruct (TStruct "alloc::collections::vec_deque::VecDeque<i32>" 32 [i32])
    [("tail", VInt usize 0); ("head", VInt usize 3);
     ("buf", raw_vec i32 1000 4)].

End UnwrappedDequeFixture.

Module BadEnumFixture.

(** Two variants, and a discriminant tag that names a third. *)
Definition content : Value :=
  VStruct (TStruct "shapes::Shape::payload" 16 [])
    [("RUST$ENUM$DISR", VInt u8 2);
     ("Circle", EnumFixture.variant "shapes::Shape::Circle" 3);
     ("Square", EnumFixture.variant "shapes::Shape::Square" 4)].

Definition valobj : Value := EnumFixture.enum_of content.

End BadEnumFixture.

Module InconsistentHashFixture.

(** The table of [HashFixture] with a stored size of 3 although only two
    buckets are occupied. *)
Definition self : StdHashMapProvider.t :=
  StdHashMapProvider.mk HashFixture.valobj true 3 (VPtr pair_ty 6000) pair_ty
    [0; 3].

End InconsistentHashFixture.

Module OldHashProviderFixture.

(** The provider built from the small legacy table. *)
Definition self : StdOldHashMapProvider.t :=
  StdOldHashMapProvider.mk OldHashFixture.small_valobj true
    (VStruct (TStruct "std::collections::hash::table::RawTable<i32, i32>" 24
                      [i32; i32])
       [("capacity_mask", VInt usize 3);
        ("size", VInt usize 2);
        ("hashes", VStruct OldHashFixture.tagged_ty
                     [(ZERO_FIELD, unique usize OldHashFixture.base)]);
        ("marker", VStruct (TStruct "core::marker::PhantomData" 0 [pair_ty])
                     [])])
    2
    (VStruct OldHashFixture.tagged_ty
       [(ZERO_FIELD, unique usize OldHashFixture.base)])
    OldHashFixture.tagged_ty 8 256 (VPtr usize OldHashFixture.base)
    3 4 pair_ty 8 [1; 3].

End OldHashProviderFixture.

(** ** Basic facts about the Python layer *)

Lemma append_empty_r (s : string) : (s ++ "")%string = s.
Proof.
  induction s as [|c s IH]; simpl; [reflexivity | now rewrite IH].
Qed.

Lemma xrange_empty (lo hi : Z) : hi <= lo -> xrange lo hi = [].
Proof.
  intros H. unfold xrange.
  replace (Z.to_nat (hi - lo)) with 0%nat by lia. reflexivity.
Qed.

Lemma xrange_length (lo hi : Z) :
  List.length (xrange lo hi) = Z.to_nat (hi - lo).
Proof.
  unfold xrange. now rewrite length_map, length_seq.
Qed.

Lemma xrange_In (lo hi i : Z) : In i (xrange lo hi) <-> lo <= i < hi.
Proof.
  unfold xrange. rewrite in_map_iff. split.
  - intros (k & <- & Hk). apply in_seq in Hk. lia.
  - intros H. exists (Z.to_nat (i - lo)). split; [lia|].
    apply in_seq. lia.
Qed.

Lemma xrange_nth (lo hi : Z) (k : nat) :
  (k < Z.to_nat (hi - lo))%nat ->
  nth_error (xrange lo hi) k = Some (lo + Z.of_nat k).
Proof.
  intros H. unfold xrange.
  rewrite nth_error_map, nth_error_seq.
  destruct (Nat.ltb_spec k (Z.to_nat (hi - lo))); [reflexivity | lia].
Qed.

Lemma xrange_snoc (lo hi : Z) :
  lo <= hi -> xrange lo (hi + 1) = (xrange lo hi ++ [hi])%list.
Proof.
  intros H. unfold xrange.
  replace (Z.to_nat (hi + 1 - lo)) with (Z.to_nat (hi - lo) + 1)%nat by lia.
  rewrite seq_app, map_app. simpl. do 3 f_equal. lia.
Qed.

Lemma gseq_pass_r {A : Type} (g : gen A) : gseq g gpass = g.
Proof.
  destruct g as [ys [e|]]; unfold gseq; simpl; [reflexivity|].
  now rewrite app_nil_r.
Qed.

Lemma gseq_done {A : Type} (l1 : list A) (g : gen A) :
  gseq (Gen l1 None) g = Gen (l1 ++ yielded g) (raised g).
Proof. reflexivity. Qed.

(** A loop whose every iteration yields [f x] and falls through yields the
    concatenation, in order. *)
Lemma gfor_flat_map {I A : Type} (l : list I) (body : I -> gen A)
    (f : I -> list A) :
  (forall x, In x l -> body x = Gen (f x) None) ->
  gfor l body = Gen (flat_map f l) None.
Proof.
  induction l as [|x l IH]; intros H; simpl; [reflexivity|].
  rewrite (H x (or_introl eq_refl)), IH by (intros; apply H; now right).
  reflexivity.
Qed.

Lemma gfor_map {I A : Type} (l : list I) (body : I -> gen A) (f : I -> A) :
  (forall x, In x l -> body x = Gen [f x] None) ->
  gfor l body = Gen (map f l) None.
Proof.
  intros H. rewrite (gfor_flat_map l body (fun x => [f x]) H).
  reflexivity.
Qed.

Lemma format_brackets (s : string) :
  format "[{}]" [s] = Ok ("[" ++ s ++ "]")%string.
Proof. reflexivity. Qed.

Lemma format_size (s : string) : format "size={}" [s] = Ok ("size=" ++ s)%string.
Proof. simpl. now rewrite append_empty_r. Qed.

(** ** Growable array *)

(** C6.  A growable-array provider built from a stored length [L] and an
    unwrapped data pointer [p] has summary [size=<L>], and its children are
    exactly the [L] entries keyed [[0]] .. [[L-1]] in ascending order, the
    [i]-th being the dereference of [p + i]. *)
Theorem StdVec_summary_and_children
    (h : Host) (valobj p : Value) (L : Z) (elems : Z -> Value)
    (Hlen : (len <- field h valobj "len" ;; int len) = Ok L)
    (Hptr : (buf <- field h valobj "buf" ;; ptr <- field h buf "ptr" ;;
             unwrap_unique_or_non_null h ptr) = Ok p)
    (Hmem : forall i, 0 <= i < L ->
              (q <- ptr_add p i ;; dereference h q) = Ok (elems i)) :
  exists self,
    StdVecProvider.init h valobj = Ok self /\
    StdVecProvider.to_string self = Ok ("size=" ++ str_of_int L)%string /\
    StdVecProvider.children h self =
      Gen (map (fun i => ("[" ++ str_of_int i ++ "]", elems i)%string)
               (xrange 0 L)) None /\
    List.length (yielded (StdVecProvider.children h self)) = Z.to_nat L.
Proof.
  unfold StdVecProvider.init, bind in *.
  destruct (field h valobj "len") as [len|]; [|discriminate].
  rewrite Hlen.
  destruct (field h valobj "buf") as [buf|]; [|discriminate].
  destruct (field h buf "ptr") as [ptr|]; [|discriminate].
  rewrite Hptr.
  eexists. split; [reflexivity|].
  assert (Hc : StdVecProvider.children h (StdVecProvider.mk valobj L p) =
               Gen (map (fun i => ("[" ++ str_of_int i ++ "]", elems i)%string)
                        (xrange 0 L)) None).
  { unfold StdVecProvider.children.
    cbn [StdVecProvider.length StdVecProvider.data_ptr].
    apply gfor_map. intros i Hi. apply xrange_In in Hi.
    rewrite format_brackets. unfold gbind.
    specialize (Hmem i Hi).
    destruct (ptr_add p i) as [q|]; [|discriminate].
    now rewrite Hmem. }
  split; [apply format_size|]. split; [exact Hc|].
  rewrite Hc. simpl. rewrite length_map, xrange_length. f_equal. lia.
Qed.

(** The round trip of the specification: length 3, capacity 4, backing
    values 10, 20, 30. *)
Lemma StdVec_roundtrip :
  exists self,
    StdVecProvider.init VecFixture.host VecFixture.valobj = Ok self /\
    StdVecProvider.to_string self = Ok "size=3"%string /\
    StdVecProvider.children VecFixture.host self =
      Gen [("[0]", VInt i32 10); ("[1]", VInt i32 20); ("[2]", VInt i32 30)]%string
          None /\
    List.length (yielded (StdVecProvider.children VecFixture.host self)) = 3%nat.
Proof.
  refine (StdVec_summary_and_children VecFixture.host VecFixture.valobj
            (VPtr i32 1000) 3 VecFixture.elems eq_refl eq_refl _).
  intros i Hi.
  assert (Hc : i = 0 \/ i = 1 \/ i = 2) by lia.
  destruct Hc as [-> | [-> | ->]]; reflexivity.
Defined.

(** ** Ring buffer *)

Lemma map_nth_xrange {A : Type} (f : Z -> A) (n i : Z) :
  0 <= i < n ->
  nth_error (map f (xrange 0 n)) (Z.to_nat i) = Some (f i).
Proof.
  intros H. rewrite nth_error_map, xrange_nth by lia.
  simpl. f_equal. f_equal. lia.
Qed.

(** C4.  A ring-buffer provider built from stored [head = hd], [tail = tl]
    and [capacity = C] has logical size [hd - tl] when [hd >= tl] and
    [C + hd - tl] otherwise; for every [i] in [[0, size)] the slot read is
    [(tl + i) mod C], and the [i]-th child, keyed [[i]], is the element of
    that slot of the backing buffer. *)
Theorem StdVecDeque_size_and_children
    (h : Host) (valobj p : Value) (hd tl C : Z) (slots : Z -> Value)
    (Hhead : (x <- field h valobj "head" ;; int x) = Ok hd)
    (Htail : (x <- field h valobj "tail" ;; int x) = Ok tl)
    (Hcap : (buf <- field h valobj "buf" ;; c <- field h buf "cap" ;; int c)
            = Ok C)
    (Hptr : (buf <- field h valobj "buf" ;; ptr <- field h buf "ptr" ;;
             unwrap_unique_or_non_null h ptr) = Ok p) :
  exists self,
    StdVecDequeProvider.init h valobj = Ok self /\
    (hd >= tl -> StdVecDequeProvider.size self = hd - tl) /\
    (hd < tl -> StdVecDequeProvider.size self = C + hd - tl) /\
    (C <> 0 ->
     forall i, StdVecDequeProvider.slot self i = Ok ((tl + i) mod C)) /\
    (C <> 0 ->
     (forall i, 0 <= i < StdVecDequeProvider.size self ->
        (q <- ptr_add p ((tl + i) mod C) ;; dereference h q)
        = Ok (slots ((tl + i) mod C))) ->
     StdVecDequeProvider.children h self =
       Gen (map (fun i => ("[" ++ str_of_int i ++ "]",
                           slots ((tl + i) mod C))%string)
                (xrange 0 (StdVecDequeProvider.size self))) None /\
     forall i, 0 <= i < StdVecDequeProvider.size self ->
       nth_error (yielded (StdVecDequeProvider.children h self)) (Z.to_nat i)
       = Some (("[" ++ str_of_int i ++ "]")%string, slots ((tl + i) mod C))).
Proof.
  unfold StdVecDequeProvider.init, bind in *.
  destruct (field h valobj "head") as [x|]; [|discriminate]. rewrite Hhead.
  destruct (field h valobj "tail") as [y|]; [|discriminate]. rewrite Htail.
  destruct (field h valobj "buf") as [buf|]; [|discriminate].
  destruct (field h buf "cap") as [c|]; [|discriminate]. rewrite Hcap.
  destruct (field h buf "ptr") as [ptr|]; [|discriminate]. rewrite Hptr.
  eexists. split; [reflexivity|].
  cbn [StdVecDequeProvider.size].
  split; [intros G; destruct (Z.geb_spec hd tl); [reflexivity | lia]|].
  split; [intros G; destruct (Z.geb_spec hd tl); [lia | reflexivity]|].
  set (sz := if hd >=? tl then hd - tl else C + hd - tl).
  set (self := StdVecDequeProvider.mk valobj hd tl C p sz).
  assert (Hslot : C <> 0 ->
            forall i, StdVecDequeProvider.slot self i = Ok ((tl + i) mod C)).
  { intros HC i. unfold StdVecDequeProvider.slot, py_mod. simpl.
    destruct (Z.eqb_spec C 0); [contradiction | reflexivity]. }
  split; [exact Hslot|].
  intros HC Hmem.
  assert (Hc : StdVecDequeProvider.children h self =
               Gen (map (fun i => ("[" ++ str_of_int i ++ "]",
                                   slots ((tl + i) mod C))%string)
                        (xrange 0 sz)) None).
  { unfold StdVecDequeProvider.children.
    cbn [StdVecDequeProvider.size StdVecDequeProvider.data_ptr self].
    apply gfor_map. intros i Hi. apply xrange_In in Hi.
    rewrite format_brackets, (Hslot HC). unfold gbind.
    specialize (Hmem i Hi).
    destruct (ptr_add p ((tl + i) mod C)) as [q|]; [|discriminate].
    now rewrite Hmem. }
  split; [exact Hc|].
  intros i Hi.
  rewrite Hc. cbn [yielded].
  exact (map_nth_xrange
           (fun i => ("[" ++ str_of_int i ++ "]", slots ((tl + i) mod C))%string)
           sz i Hi).
Qed.

(** The round trip of the specification: capacity 4, head 1, tail 3 gives
    size 2 and the elements of slots 3 and 0, in that order. *)
Lemma StdVecDeque_roundtrip :
  exists self,
    StdVecDequeProvider.init DequeFixture.host DequeFixture.valobj = Ok self /\
    StdVecDequeProvider.size self = 2 /\
    StdVecDequeProvider.slot self 0 = Ok 3 /\
    StdVecDequeProvider.slot self 1 = Ok 0 /\
    StdVecDequeProvider.children DequeFixture.host self =
      Gen [("[0]", DequeFixture.slots 3); ("[1]", DequeFixture.slots 0)]%string
          None.
Proof.
  destruct (StdVecDeque_size_and_children DequeFixture.host DequeFixture.valobj
              (VPtr i32 2000) 1 3 4 DequeFixture.slots
              eq_refl eq_refl eq_refl eq_refl)
    as (self & Hinit & _ & Hsize & Hslot & Hchildren).
  assert (Hsz : StdVecDequeProvider.size self = 2) by (apply Hsize; lia).
  assert (H4 : 4 <> 0) by lia.
  exists self. split; [exact Hinit|]. split; [exact Hsz|].
  split; [exact (Hslot H4 0)|]. split; [exact (Hslot H4 1)|].
  destruct (Hchildren H4) as [Hc _].
  - rewrite Hsz. intros i Hi.
    assert (Hcases : i = 0 \/ i = 1) by lia.
    destruct Hcases as [-> | ->]; reflexivity.
  - rewrite Hc, Hsz. reflexivity.
Defined.

(** The same scenario evaluated: size 2, children D then A. *)
Example StdVecDeque_roundtrip_values :
  exists self,
    StdVecDequeProvider.init DequeFixture.host DequeFixture.valobj = Ok self /\
    StdVecDequeProvider.size self = 2 /\
    StdVecDequeProvider.children DequeFixture.host self =
      Gen [("[0]", VInt i32 68); ("[1]", VInt i32 65)]%string None.
Proof. eexists. split; [reflexivity|]. split; reflexivity. Qed.

(** C10.  A ring buffer whose logical size is 0, in particular whenever
    [head = tail] and whatever its capacity (zero included), has no
    children, and enumerating them ends normally: the index expression with
    its modulo is never evaluated. *)
Theorem StdVecDeque_empty_total
    (h : Host) (valobj : Value) (self : StdVecDequeProvider.t)
    (Hinit : StdVecDequeProvider.init h valobj = Ok self)
    (Hempty : StdVecDequeProvider.size self = 0 \/
              StdVecDequeProvider.head self = StdVecDequeProvider.tail self) :
  StdVecDequeProvider.size self = 0 /\
  StdVecDequeProvider.children h self = Gen [] None /\
  raised (StdVecDequeProvider.children h self) <> Some ZeroDivisionError.
Proof.
  assert (Hsz : StdVecDequeProvider.size self = 0).
  { destruct Hempty as [H0 | Heq]; [exact H0|].
    unfold StdVecDequeProvider.init, bind in Hinit.
    destruct (field h valobj "head") as [x|]; [|discriminate].
    destruct (int x) as [hd|]; [|discriminate].
    destruct (field h valobj "tail") as [y|]; [|discriminate].
    destruct (int y) as [tl|]; [|discriminate].
    destruct (field h valobj "buf") as [buf|]; [|discriminate].
    destruct (field h buf "cap") as [c|]; [|discriminate].
    destruct (int c) as [C|]; [|discriminate].
    destruct (field h buf "ptr") as [ptr|]; [|discriminate].
    destruct (unwrap_unique_or_non_null h ptr) as [p|]; [|discriminate].
    injection Hinit as <-. simpl in Heq |- *. subst tl.
    destruct (Z.geb_spec hd hd); lia. }
  assert (Hc : StdVecDequeProvider.children h self = Gen [] None).
  { unfold StdVecDequeProvider.children. rewrite Hsz. reflexivity. }
  split; [exact Hsz|]. split; [exact Hc|].
  rewrite Hc. discriminate.
Qed.

(** An empty ring buffer whose capacity field is zero. *)
Lemma StdVecDeque_empty_zero_capacity :
  StdVecDequeProvider.cap
    (StdVecDequeProvider.mk DequeFixture.empty_valobj 0 0 0 (VPtr i32 2000) 0)
  = 0 /\
  StdVecDequeProvider.size
    (StdVecDequeProvider.mk DequeFixture.empty_valobj 0 0 0 (VPtr i32 2000) 0)
  = 0 /\
  StdVecDequeProvider.children DequeFixture.host
    (StdVecDequeProvider.mk DequeFixture.empty_valobj 0 0 0 (VPtr i32 2000) 0)
  = Gen [] None /\
  raised (StdVecDequeProvider.children DequeFixture.host
    (StdVecDequeProvider.mk DequeFixture.empty_valobj 0 0 0 (VPtr i32 2000) 0))
  <> Some ZeroDivisionError.
Proof.
  split; [reflexivity|].
  apply (StdVecDeque_empty_total DequeFixture.host DequeFixture.empty_valobj).
  - reflexivity.
  - right. reflexivity.
Defined.

(** ** B-tree traversal *)

Lemma xrange_seq (n : nat) :
  xrange 0 (Z.of_nat n) = map Z.of_nat (seq 0 n).
Proof.
  unfold xrange. rewrite Z.sub_0_r, Nat2Z.id. reflexivity.
Qed.

Lemma flat_map_shift {A : Type} (f : nat -> list A) (n : nat) :
  flat_map f (seq 1 n) = flat_map (fun j => f (S j)) (seq 0 n).
Proof.
  rewrite <- seq_shift. induction (seq 0 n) as [|x l IH]; simpl; congruence.
Qed.

(** Walking the indices [0 .. len], subtree [j] first and key [j] after it,
    produces the interleaving. *)
Lemma flat_map_interleave {A : Type} (subs : list (list A)) (seps : list A) :
  subs = [] \/ List.length subs = S (List.length seps) ->
  flat_map (fun j => nth j subs [] ++ opt_list (nth_error seps j))%list
           (seq 0 (S (List.length seps)))
  = interleave subs seps.
Proof.
  intros [-> | Hlen].
  - induction seps as [|k seps IH]; [reflexivity|].
    cbn [List.length]. rewrite <- cons_seq.
    cbn [flat_map nth nth_error opt_list app interleave].
    f_equal. rewrite flat_map_shift.
    etransitivity; [|exact IH].
    apply flat_map_ext. intros [|j]; reflexivity.
  - revert subs Hlen. induction seps as [|k seps IH]; intros subs Hlen.
    + destruct subs as [|s [|s' subs]]; try discriminate. simpl.
      now rewrite !app_nil_r.
    + destruct subs as [|s subs]; [discriminate|].
      cbn [List.length] in Hlen |- *. injection Hlen as Hlen.
      rewrite <- cons_seq.
      cbn [flat_map nth nth_error opt_list interleave].
      rewrite flat_map_shift, <- app_assoc. cbn [app]. do 2 f_equal.
      etransitivity; [|exact (IH subs Hlen)].
      apply flat_map_ext. intros j. reflexivity.
Qed.

Lemma nth_error_combine {A B : Type} (l : list A) (l' : list B) (j : nat) :
  nth_error (combine l l') j =
  match nth_error l j, nth_error l' j with
  | Some a, Some b => Some (a, b)
  | _, _ => None
  end.
Proof.
  revert l' j. induction l as [|a l IH]; intros [|b l'] [|j]; simpl;
    try reflexivity; try apply IH.
  now destruct (nth_error l j).
Qed.

Lemma nth_error_items (w : bool) (ks vs : list Value) (j : nat) :
  List.length vs = List.length ks ->
  nth_error (items w ks vs) j =
  match nth_error ks j, nth_error vs j with
  | Some k, Some v => Some (if w then KeyVal k v else Key k)
  | _, _ => None
  end.
Proof.
  intros Hlen. unfold items. destruct w.
  - rewrite nth_error_map, nth_error_combine.
    destruct (nth_error ks j), (nth_error vs j); reflexivity.
  - rewrite nth_error_map.
    destruct (nth_error ks j) eqn:E1; simpl.
    + destruct (nth_error vs j) eqn:E2; [reflexivity|].
      apply nth_error_None in E2.
      assert (j < List.length ks)%nat by (apply nth_error_Some; congruence).
      lia.
    + reflexivity.
Qed.

Lemma nth_error_firstn_lt {A : Type} (l : list A) (n j : nat) :
  (j < n)%nat -> nth_error (firstn n l) j = nth_error l j.
Proof.
  revert l j. induction n as [|n IH]; intros l j H; [lia|].
  destruct l as [|a l]; [now destruct j|].
  destruct j as [|j]; [reflexivity|]. simpl. apply IH. lia.
Qed.

Lemma subscript_array (h : Host) (arr : list Value) (i : Z) (x : Value) :
  0 <= i -> nth_error arr (Z.to_nat i) = Some x ->
  subscript h (VArray arr) i = Ok x.
Proof.
  intros Hi Hx. unfold subscript.
  destruct (Z.ltb_spec i 0); [lia|]. now rewrite Hx.
Qed.

Lemma Forall2_prefix_nth {A B : Type} (P : A -> B -> Prop)
    (bs : list A) (l : list B) (j : nat) (e : B) :
  Forall2 P (firstn (List.length l) bs) l ->
  nth_error l j = Some e ->
  exists b, nth_error bs j = Some b /\ P b e.
Proof.
  revert bs j. induction l as [|e' l IH]; intros bs j HF Hj.
  - now destruct j.
  - destruct bs as [|b bs]; simpl in HF; [inversion HF|].
    inversion HF; subst. destruct j as [|j]; simpl in Hj |- *.
    + injection Hj as <-. eauto.
    + eauto.
Qed.

(** One iteration of the loop body of [children_of_node], below its
    recursive call: the key (and value) at index [i], if [i < length]. *)
Lemma key_part (h : Host) (w : bool) (karr varr ks vs : list Value) (i : Z) :
  List.length vs = List.length ks ->
  firstn (List.length ks) karr = ks ->
  firstn (List.length ks) varr = vs ->
  0 <= i ->
  (if i <? Z.of_nat (List.length ks) then
     if w then
       key <~ subscript h (VArray karr) i ;;
       val <~ subscript h (VArray varr) i ;;
       gyield (KeyVal key val)
     else
       key <~ subscript h (VArray karr) i ;;
       gyield (Key key)
   else gpass)
  = Gen (opt_list (nth_error (items w ks vs) (Z.to_nat i))) None.
Proof.
  intros Hlen Hk Hv Hi.
  rewrite nth_error_items by exact Hlen.
  destruct (Z.ltb_spec i (Z.of_nat (List.length ks))) as [Hlt | Hge].
  - assert (Hj : (Z.to_nat i < List.length ks)%nat) by lia.
    destruct (nth_error ks (Z.to_nat i)) as [k|] eqn:Ek;
      [|apply nth_error_None in Ek; lia].
    destruct (nth_error vs (Z.to_nat i)) as [v|] eqn:Ev;
      [|apply nth_error_None in Ev; lia].
    assert (Hk' : nth_error karr (Z.to_nat i) = Some k).
    { rewrite <- Ek, <- Hk at 1. symmetry. now apply nth_error_firstn_lt. }
    assert (Hv' : nth_error varr (Z.to_nat i) = Some v).
    { rewrite <- Ev, <- Hv at 1. symmetry. now apply nth_error_firstn_lt. }
    rewrite (subscript_array h karr i k Hi Hk').
    rewrite (subscript_array h varr i v Hi Hv').
    now destruct w.
  - replace (nth_error ks (Z.to_nat i)) with (@None Value);
      [reflexivity|].
    symmetry. apply nth_error_None. lia.
Qed.

Lemma children_of_node_unfold (h : Host) (boxed_node : Value) (height : nat)
    (want_values : bool) :
  children_of_node h boxed_node height want_values =
  (p <~ field h boxed_node "ptr" ;;
   ptr <~ field h p "pointer" ;;
   node <~ field h ptr ZERO_FIELD ;;
   node <~ (match height with S _ => cast_to_internal h node | O => Ok node end) ;;
   leaf <~ (match height with S _ => field h node "data" | O => dereference h node end) ;;
   k <~ field h leaf "keys" ;;
   k' <~ field h k "value" ;;
   keys <~ field h k' "value" ;;
   v <~ field h leaf "vals" ;;
   v' <~ field h v "value" ;;
   values <~ field h v' "value" ;;
   len <~ field h leaf "len" ;;
   length <~ int len ;;
   gfor (xrange 0 (length + 1)) (fun i =>
     match height with
     | S height' =>
         edges <~ field h node "edges" ;;
         edge <~ subscript h edges i ;;
         children_of_node h edge height' want_values
     | O => gpass
     end ;;;
     if i <? length then
       if want_values then
         key <~ subscript h keys i ;;
         val <~ subscript h values i ;;
         gyield (KeyVal key val)
       else
         key <~ subscript h keys i ;;
         gyield (Key key)
     else gpass))%py.
Proof. destruct height; reflexivity. Qed.

Lemma cast_to_internal_ok (h : Host) (lty ity : gdb_type) (a : Z) :
  lookup_type h (replace "LeafNode" "InternalNode" (type_str lty)) = Ok ity ->
  cast_to_internal h (VPtr lty a) = Ok (VPtr ity a).
Proof.
  intros H. unfold cast_to_internal. cbn [type_of target bind].
  rewrite H. reflexivity.
Qed.

(** Consume the next successful read of a chain recorded in [H], in [H] and
    in the goal. *)
Ltac read H :=
  match type of H with
  | match ?x with Ok _ => _ | Raise _ => _ end = Ok _ =>
      destruct x; [|discriminate H]; cbv beta iota in H; cbn [gbind]
  end.

(** On a node that represents the tree [t], the walk ends normally and
    yields the in-order traversal of [t]. *)
Lemma children_of_node_inorder (h : Host) (w : bool) :
  forall (height : nat) (boxed : Value) (t : btree),
    node_repr h height boxed t ->
    children_of_node h boxed height w = Gen (inorder w t) None.
Proof.
  induction height as [|height IH];
    intros boxed [ks vs es] (lty & a & leaf & Hp & Hleaf & Hrest);
    destruct Hleaf as (karr & varr & Hkeys & Hvals & Hlen & Hvs & Hk & Hv);
    rewrite children_of_node_unfold;
    unfold bind in Hp, Hkeys, Hvals, Hlen.
  - destruct Hrest as [-> Hderef].
    read Hp. read Hp. rewrite Hp. cbn [gbind]. rewrite Hderef. cbn [gbind].
    read Hkeys. read Hkeys. rewrite Hkeys. cbn [gbind].
    read Hvals. read Hvals. rewrite Hvals. cbn [gbind].
    read Hlen. rewrite Hlen. cbn [gbind].
    rewrite (gfor_flat_map _ _
               (fun i => opt_list (nth_error (items w ks vs) (Z.to_nat i)))).
    + f_equal. cbn [inorder map].
      rewrite <- (flat_map_interleave [] (items w ks vs)) by now left.
      assert (Hn : List.length (items w ks vs) = List.length ks).
      { unfold items. destruct w; rewrite length_map;
          [rewrite length_combine; lia | reflexivity]. }
      rewrite Hn.
      replace (Z.of_nat (List.length ks) + 1)
        with (Z.of_nat (S (List.length ks))) by lia.
      rewrite xrange_seq, flat_map_concat_map, map_map,
        <- flat_map_concat_map.
      apply flat_map_ext. intros j. rewrite Nat2Z.id.
      now destruct j.
    + intros i Hi. apply xrange_In in Hi.
      rewrite (key_part h w karr varr ks vs i Hvs Hk Hv) by lia.
      reflexivity.
  - destruct Hrest as (ity & earr & Hty & Hdata & Hedges & Hes & Hall).
    read Hp. read Hp. rewrite Hp. cbn [gbind].
    rewrite (cast_to_internal_ok h lty ity a Hty). cbn [gbind].
    rewrite Hdata. cbn [gbind].
    read Hkeys. read Hkeys. rewrite Hkeys. cbn [gbind].
    read Hvals. read Hvals. rewrite Hvals. cbn [gbind].
    read Hlen. rewrite Hlen. cbn [gbind].
    assert (Hn : List.length (items w ks vs) = List.length ks).
    { unfold items. destruct w; rewrite length_map;
        [rewrite length_combine; lia | reflexivity]. }
    rewrite (gfor_flat_map _ _
               (fun i => nth (Z.to_nat i) (map (inorder w) es) [] ++
                         opt_list (nth_error (items w ks vs) (Z.to_nat i)))%list).
    + f_equal. cbn [inorder].
      rewrite <- (flat_map_interleave (map (inorder w) es) (items w ks vs))
        by (right; rewrite length_map; lia).
      rewrite Hn.
      replace (Z.of_nat (List.length ks) + 1)
        with (Z.of_nat (S (List.length ks))) by lia.
      rewrite xrange_seq, flat_map_concat_map, map_map,
        <- flat_map_concat_map.
      apply flat_map_ext. intros j. now rewrite Nat2Z.id.
    + intros i Hi. apply xrange_In in Hi.
      rewrite (key_part h w karr varr ks vs i Hvs Hk Hv) by lia.
      rewrite Hedges. cbn [gbind].
      destruct (nth_error es (Z.to_nat i)) as [e|] eqn:Ee;
        [|apply nth_error_None in Ee; lia].
      destruct (Forall2_prefix_nth _ _ _ _ _ Hall Ee) as (b & Hb & Hrep).
      rewrite (subscript_array h earr i b) by (lia || exact Hb).
      cbn [gbind]. rewrite (IH b e Hrep).
      rewrite gseq_done. cbn [yielded raised].
      do 2 f_equal.
      symmetry. apply nth_error_nth.
      now rewrite nth_error_map, Ee.
Qed.

Lemma interleave_map {A B : Type} (f : A -> B) (subs : list (list A))
    (seps : list A) :
  map f (interleave subs seps) = interleave (map (map f) subs) (map f seps).
Proof.
  revert seps. induction subs as [|s subs IH]; intros seps; [reflexivity|].
  destruct seps as [|k seps]; simpl; rewrite map_app; simpl;
    now rewrite IH.
Qed.

Lemma interleave_perm {A : Type} (subs : list (list A)) (seps : list A) :
  Permutation (interleave subs seps) (seps ++ List.concat subs).
Proof.
  revert seps. induction subs as [|s subs IH]; intros seps.
  - simpl. now rewrite app_nil_r.
  - destruct seps as [|k seps]; simpl.
    + apply Permutation_app_head. exact (IH []).
    + rewrite <- Permutation_middle. constructor.
      rewrite (IH seps).
      rewrite !app_assoc. apply Permutation_app_tail, Permutation_app_comm.
Qed.

Lemma concat_map_perm {A B : Type} (f g : A -> list B) (l : list A) :
  Forall (fun e => Permutation (f e) (g e)) l ->
  Permutation (List.concat (map f l)) (List.concat (map g l)).
Proof.
  induction 1 as [|e l He _ IH]; simpl; [constructor|].
  now apply Permutation_app.
Qed.

(** The in-order traversal visits every stored key exactly once. *)
Lemma inorder_keys_perm (t : btree) : Permutation (inorder_keys t) (keys_of t).
Proof.
  induction t as [ks vs es IH] using btree_induction.
  cbn [inorder_keys keys_of].
  rewrite interleave_perm, flat_map_concat_map.
  apply Permutation_app_head. now apply concat_map_perm.
Qed.

Lemma inorder_false_keys (t : btree) :
  inorder false t = map Key (inorder_keys t).
Proof.
  induction t as [ks vs es IH] using btree_induction.
  cbn [inorder inorder_keys items]. rewrite interleave_map, map_map.
  f_equal. apply map_ext_Forall. exact IH.
Qed.

Lemma items_keys (w : bool) (ks vs : list Value) :
  List.length vs = List.length ks -> map item_key (items w ks vs) = ks.
Proof.
  intros Hlen. unfold items. destruct w; rewrite map_map; cbn [item_key].
  - revert vs Hlen. induction ks as [|k ks IH]; intros [|v vs] Hlen;
      try discriminate; [reflexivity|].
    simpl. f_equal. apply IH. now injection Hlen.
  - apply map_id.
Qed.

Lemma inorder_item_keys (w : bool) (t : btree) :
  forall height, well_formed height t ->
  map item_key (inorder w t) = inorder_keys t.
Proof.
  induction t as [ks vs es IH] using btree_induction.
  intros height Hwf. cbn [inorder inorder_keys].
  rewrite interleave_map, map_map.
  destruct height as [|height]; cbn [well_formed] in Hwf.
  - destruct Hwf as [Hlen ->]. cbn [map interleave]. now apply items_keys.
  - destruct Hwf as (Hlen & _ & Hall).
    rewrite (items_keys w ks vs Hlen). f_equal.
    apply map_ext_Forall.
    rewrite Forall_forall in IH, Hall |- *.
    intros e He. exact (IH e He height (Hall e He)).
Qed.

Lemma Forall2_right {A B : Type} (P : A -> B -> Prop) (Q : B -> Prop)
    (l1 : list A) (l2 : list B) :
  Forall2 P l1 l2 -> (forall a b, P a b -> Q b) -> Forall Q l2.
Proof. induction 1; intros HQ; constructor; eauto. Qed.

(** A node that represents a tree gives it the shape of its height. *)
Lemma node_repr_well_formed (h : Host) :
  forall (height : nat) (boxed : Value) (t : btree),
    node_repr h height boxed t -> well_formed height t.
Proof.
  induction height as [|height IH];
    intros boxed [ks vs es] (lty & a & leaf & _ & Hleaf & Hrest);
    destruct Hleaf as (karr & varr & _ & _ & _ & Hvs & _ & _);
    cbn [well_formed]; split; try exact Hvs.
  - now destruct Hrest.
  - destruct Hrest as (ity & earr & _ & _ & _ & Hes & Hall).
    split; [exact Hes|].
    exact (Forall2_right _ _ _ _ Hall (fun b e => IH b e)).
Qed.

Section SearchOrderFacts.

Variable lt : Value -> Value -> Prop.
Hypothesis lt_trans : forall x y z, lt x y -> lt y z -> lt x z.
Hypothesis lt_irrefl : forall x, ~ lt x x.

(** A strictly sorted list is determined by its elements. *)
Lemma sorted_unique (l1 l2 : list Value) :
  StronglySorted lt l1 -> StronglySorted lt l2 -> Permutation l1 l2 ->
  l1 = l2.
Proof.
  revert l2. induction l1 as [|a l1 IH]; intros l2 H1 H2 HP.
  - apply Permutation_nil in HP. now subst.
  - destruct l2 as [|b l2];
      [apply Permutation_sym, Permutation_nil in HP; discriminate|].
    apply StronglySorted_inv in H1 as [H1 Ha].
    apply StronglySorted_inv in H2 as [H2 Hb].
    rewrite Forall_forall in Ha, Hb.
    assert (Hab : a = b).
    { assert (Hin : In a (b :: l2))
        by (apply (Permutation_in _ HP); now left).
      destruct Hin as [Heq | Hin]; [now symmetry|].
      assert (Hin' : In b (a :: l1))
        by (apply (Permutation_in _ (Permutation_sym HP)); now left).
      destruct Hin' as [Heq | Hin']; [exact Heq|].
      exfalso. apply (lt_irrefl a). eauto. }
    subst b. f_equal. apply IH; try assumption.
    now apply Permutation_cons_inv in HP.
Qed.

Lemma sorted_app (l1 l2 : list Value) :
  StronglySorted lt l1 -> StronglySorted lt l2 ->
  (forall x y, In x l1 -> In y l2 -> lt x y) ->
  StronglySorted lt (l1 ++ l2).
Proof.
  intros H1 H2 H. induction l1 as [|a l1 IH]; [exact H2|].
  apply StronglySorted_inv in H1 as [H1 Ha]. simpl. constructor.
  - apply IH; [exact H1|]. intros x y Hx. apply H. now right.
  - apply Forall_app. split; [exact Ha|].
    apply Forall_forall. intros y Hy. apply H; [now left | exact Hy].
Qed.

(** Below a key that is smaller than the first subtree and than every
    later key, everything to the right is larger. *)
Lemma separates_lower_bound (k : Value) :
  forall (ks : list Value) (s : list Value) (subs : list (list Value)),
    List.length subs = List.length ks ->
    Forall (lt k) s -> Forall (lt k) ks -> StronglySorted lt ks ->
    separates lt (s :: subs) ks ->
    Forall (Forall (lt k)) (s :: subs).
Proof.
  induction ks as [|k1 ks IH]; intros s subs Hlen Hs Hks Hsorted Hsep.
  - destruct subs; [|discriminate]. now constructor.
  - destruct subs as [|s1 subs]; [discriminate|].
    change (Forall (fun x => lt x k1) s /\ Forall (lt k1) s1 /\
            separates lt (s1 :: subs) ks) in Hsep.
    destruct Hsep as (_ & Hs1 & Hsep).
    constructor; [exact Hs|].
    apply StronglySorted_inv in Hsorted as [Hsorted Hk1].
    inversion Hks as [|? ? Hkk1 Hks']; subst.
    apply IH; try assumption.
    + now injection Hlen.
    + eapply Forall_impl; [|exact Hs1]. intros x. now apply lt_trans.
Qed.

Lemma In_interleave (x : Value) (subs : list (list Value))
    (seps : list Value) :
  In x (interleave subs seps) ->
  In x seps \/ exists s, In s subs /\ In x s.
Proof.
  intros H. apply (Permutation_in _ (interleave_perm subs seps)) in H.
  apply in_app_or in H as [H | H]; [now left|].
  apply in_concat in H as (s & Hs & Hx). right. eauto.
Qed.

Lemma sorted_interleave :
  forall (ks : list Value) (subs : list (list Value)),
    Forall (StronglySorted lt) subs ->
    StronglySorted lt ks ->
    subs = [] \/ List.length subs = S (List.length ks) ->
    separates lt subs ks ->
    StronglySorted lt (interleave subs ks).
Proof.
  induction ks as [|k ks IH]; intros subs Hsubs Hks Hshape Hsep.
  - destruct Hshape as [-> | Hlen]; [constructor|].
    destruct subs as [|s [|s' subs]]; try discriminate.
    simpl. rewrite app_nil_r. now inversion Hsubs.
  - destruct Hshape as [-> | Hlen]; [exact Hks|].
    destruct subs as [|s0 [|s1 subs]]; try discriminate.
    change (interleave (s0 :: s1 :: subs) (k :: ks))
      with (s0 ++ k :: interleave (s1 :: subs) ks)%list.
    change (Forall (fun x => lt x k) s0 /\ Forall (lt k) s1 /\
            separates lt (s1 :: subs) ks) in Hsep.
    destruct Hsep as (Hs0 & Hs1 & Hsep).
    apply StronglySorted_inv in Hks as [Hks Hk].
    inversion Hsubs as [|? ? Hs0s Hrest]; subst.
    assert (Hlen' : List.length subs = List.length ks)
      by (cbn [List.length] in Hlen; lia).
    assert (Hright : Forall (lt k) (interleave (s1 :: subs) ks)).
    { pose proof (separates_lower_bound k ks s1 subs Hlen' Hs1 Hk Hks Hsep)
        as Hall.
      rewrite Forall_forall in Hall, Hk |- *.
      intros x Hx. apply In_interleave in Hx as [Hx | (s & Hs & Hx)].
      - now apply Hk.
      - specialize (Hall s Hs). rewrite Forall_forall in Hall.
        now apply Hall. }
    apply sorted_app; [exact Hs0s | |].
    + constructor; [|exact Hright].
      apply IH; try assumption. right. cbn [List.length]. lia.
    + rewrite Forall_forall in Hs0, Hright.
      intros x y Hx [<- | Hy]; [now apply Hs0|].
      apply (lt_trans x k y); [now apply Hs0 | now apply Hright].
Qed.

Lemma separates_perm (ks : list Value) :
  forall (subs subs' : list (list Value)),
    Forall2 (@Permutation Value) subs subs' ->
    separates lt subs ks -> separates lt subs' ks.
Proof.
  induction ks as [|k ks IH]; intros subs subs' HP Hsep.
  - destruct subs' as [|? [|? ?]]; exact I.
  - inversion HP as [|s0 s0' r r' P0 HP']; subst; [exact I|].
    inversion HP' as [|s1 s1' r2 r2' P1 HP'']; subst; [exact I|].
    change (Forall (fun x => lt x k) s0 /\ Forall (lt k) s1 /\
            separates lt (s1 :: r2) ks) in Hsep.
    change (Forall (fun x => lt x k) s0' /\ Forall (lt k) s1' /\
            separates lt (s1' :: r2') ks).
    destruct Hsep as (H0 & H1 & Hsep).
    split; [|split].
    + rewrite Forall_forall in H0 |- *. intros x Hx. apply H0.
      now apply (Permutation_in _ (Permutation_sym P0)).
    + rewrite Forall_forall in H1 |- *. intros x Hx. apply H1.
      now apply (Permutation_in _ (Permutation_sym P1)).
    + now apply (IH (s1 :: r2)).
Qed.

(** The in-order traversal of a search tree is strictly ascending. *)
Lemma inorder_keys_sorted (t : btree) :
  search_tree lt t -> StronglySorted lt (inorder_keys t).
Proof.
  induction t as [ks vs es IH] using btree_induction.
  intros Hst. inversion Hst as [? ? ? Hks Hshape Hsep Hall]; subst.
  cbn [inorder_keys]. apply sorted_interleave.
  - rewrite Forall_forall in IH, Hall |- *.
    intros s Hs. apply in_map_iff in Hs as (e & <- & He). auto.
  - exact Hks.
  - rewrite length_map. destruct Hshape as [-> | Hlen]; [now left | now right].
  - apply (separates_perm ks (map keys_of es)); [|exact Hsep].
    clear. induction es as [|e es IHes]; simpl; constructor;
      [apply Permutation_sym, inorder_keys_perm | exact IHes].
Qed.

End SearchOrderFacts.

(** C1.  On a B-tree of any height whose nodes store [len] keys (and
    values) and, at internal height, [len + 1] child edges, the walk yields
    the keys in in-order; so for a tree built from the sorted distinct keys
    [ks] it ends normally having yielded exactly [ks], in that order,
    whatever the shape of the tree, with or without the values. *)
Theorem children_of_node_in_order
    (lt : Value -> Value -> Prop)
    (lt_trans : forall x y z, lt x y -> lt y z -> lt x z)
    (lt_irrefl : forall x, ~ lt x x)
    (h : Host) (height : nat) (boxed : Value) (t : btree) (ks : list Value)
    (Hrepr : node_repr h height boxed t)
    (Hsearch : search_tree lt t)
    (Hsorted : StronglySorted lt ks)
    (Hkeys : Permutation ks (keys_of t)) :
  children_of_node h boxed height false = Gen (map Key ks) None /\
  (forall w,
     children_of_node h boxed height w = Gen (inorder w t) None /\
     map item_key (inorder w t) = ks).
Proof.
  assert (Heq : inorder_keys t = ks).
  { apply (sorted_unique lt lt_trans lt_irrefl).
    - now apply inorder_keys_sorted.
    - exact Hsorted.
    - rewrite inorder_keys_perm. now apply Permutation_sym. }
  split.
  - rewrite (children_of_node_inorder h false height boxed t Hrepr).
    now rewrite inorder_false_keys, Heq.
  - intros w. split.
    + exact (children_of_node_inorder h w height boxed t Hrepr).
    + rewrite <- Heq.
      apply (inorder_item_keys w t height).
      exact (node_repr_well_formed h height boxed t Hrepr).
Qed.

Lemma key_lt_trans (x y z : Value) :
  BTreeFixture.key_lt x y -> BTreeFixture.key_lt y z -> BTreeFixture.key_lt x z.
Proof.
  destruct x, y, z; simpl; try tauto. lia.
Qed.

Lemma key_lt_irrefl (x : Value) : ~ BTreeFixture.key_lt x x.
Proof. destruct x; simpl; try tauto. lia. Qed.

Lemma fixture_leaf_repr (ks : list Z) :
  (List.length ks <= 3)%nat ->
  leaf_repr BTreeFixture.host (BTreeFixture.leaf ks)
            (map BTreeFixture.key ks) (map BTreeFixture.val ks).
Proof.
  intros Hlen.
  exists (BTreeFixture.pad (map BTreeFixture.key ks) 3 (VInt i32 (-1))),
         (BTreeFixture.pad (map BTreeFixture.val ks) 3 (VInt i32 (-1))).
  repeat split.
  - now rewrite length_map.
  - now rewrite !length_map.
  - unfold BTreeFixture.pad.
    rewrite firstn_app, length_map, Nat.sub_diag, firstn_O, app_nil_r.
    rewrite <- (length_map BTreeFixture.key ks) at 1. apply firstn_all.
  - unfold BTreeFixture.pad.
    rewrite firstn_app, !length_map, Nat.sub_diag, firstn_O, app_nil_r.
    rewrite <- (length_map BTreeFixture.val ks) at 1. apply firstn_all.
Qed.

Lemma fixture_node_repr :
  node_repr BTreeFixture.host 2 (BTreeFixture.boxed 100) BTreeFixture.tree.
Proof.
  assert (Hleaf : forall a ks,
            (List.length ks <= 3)%nat ->
            dereference BTreeFixture.host (VPtr BTreeFixture.leaf_ty a)
              = Ok (BTreeFixture.leaf ks) ->
            node_repr BTreeFixture.host 0 (BTreeFixture.boxed a)
                      (BTreeFixture.node ks [])).
  { intros a ks Hlen Hd.
    exists BTreeFixture.leaf_ty, a, (BTreeFixture.leaf ks).
    split; [reflexivity|]. split; [now apply fixture_leaf_repr|].
    split; [reflexivity | exact Hd]. }
  assert (Hint : forall height a ks edges es,
            (List.length ks <= 3)%nat ->
            List.length es = S (List.length ks) ->
            List.length edges = List.length es ->
            dereference BTreeFixture.host (VPtr BTreeFixture.internal_ty a)
              = Ok (BTreeFixture.internal ks edges) ->
            Forall2 (node_repr BTreeFixture.host height)
                    (map BTreeFixture.boxed edges) es ->
            node_repr BTreeFixture.host (S height) (BTreeFixture.boxed a)
                      (BTreeFixture.node ks es)).
  { intros height a ks edges es Hlen Hes Hedges Hd Hall.
    exists BTreeFixture.leaf_ty, a, (BTreeFixture.leaf ks).
    split; [reflexivity|]. split; [now apply fixture_leaf_repr|].
    exists BTreeFixture.internal_ty,
           (BTreeFixture.pad (map BTreeFixture.boxed edges) 4
                             (BTreeFixture.boxed 0)).
    split; [reflexivity|].
    split; [unfold field, bind; now rewrite Hd|].
    split; [unfold field, bind; now rewrite Hd|].
    split; [now rewrite length_map|].
    unfold BTreeFixture.pad.
    rewrite firstn_app, length_map, Hedges, Nat.sub_diag, firstn_O, app_nil_r.
    rewrite <- Hedges, <- (length_map BTreeFixture.boxed edges), firstn_all.
    exact Hall. }
  apply (Hint 1%nat 100 [40] [200; 300]); try reflexivity; [simpl; lia|].
  repeat constructor.
  - apply (Hint 0%nat 200 [20] [400; 500]); try reflexivity; [simpl; lia|].
    repeat constructor; apply Hleaf; (reflexivity || (simpl; lia)).
  - apply (Hint 0%nat 300 [60] [600; 700]); try reflexivity; [simpl; lia|].
    repeat constructor; apply Hleaf; (reflexivity || (simpl; lia)).
Defined.

Lemma fixture_search_tree :
  search_tree BTreeFixture.key_lt BTreeFixture.tree.
Proof.
  repeat (constructor; simpl; try lia; try (now left); try (now right);
          try tauto).
Defined.

(** The height-2 fixture: the keys 10 .. 80 spread over three levels come
    out in ascending order. *)
Lemma children_of_node_fixture :
  children_of_node BTreeFixture.host (BTreeFixture.boxed 100) 2 false
    = Gen (map Key BTreeFixture.sorted_keys) None /\
  (forall w,
     children_of_node BTreeFixture.host (BTreeFixture.boxed 100) 2 w
       = Gen (inorder w BTreeFixture.tree) None /\
     map item_key (inorder w BTreeFixture.tree) = BTreeFixture.sorted_keys).
Proof.
  apply (children_of_node_in_order BTreeFixture.key_lt
           key_lt_trans key_lt_irrefl).
  - exact fixture_node_repr.
  - exact fixture_search_tree.
  - unfold BTreeFixture.sorted_keys. simpl.
    repeat (constructor; simpl; try lia).
  - exact (inorder_keys_perm BTreeFixture.tree).
Defined.

(** Heights 0 and 1 of the same fixture, evaluated. *)
Example children_of_node_height_0 :
  children_of_node BTreeFixture.host (BTreeFixture.boxed 700) 0 false
  = Gen (map Key (map BTreeFixture.key [70; 80])) None.
Proof. reflexivity. Qed.

Example children_of_node_height_1 :
  children_of_node BTreeFixture.host (BTreeFixture.boxed 200) 1 true
  = Gen [KeyVal (BTreeFixture.key 10) (BTreeFixture.val 10);
         KeyVal (BTreeFixture.key 20) (BTreeFixture.val 20);
         KeyVal (BTreeFixture.key 30) (BTreeFixture.val 30)] None.
Proof. reflexivity. Qed.

(** ** Generators that only yield what a predicate allows *)

Lemma yielded_gseq {A : Type} (P : A -> Prop) (g1 g2 : gen A) :
  Forall P (yielded g1) -> Forall P (yielded g2) ->
  Forall P (yielded (gseq g1 g2)).
Proof.
  intros H1 H2. unfold gseq. destruct (raised g1); [exact H1|].
  simpl. apply Forall_app. now split.
Qed.

Lemma yielded_gbind {X A : Type} (P : A -> Prop) (r : result X)
    (k : X -> gen A) :
  (forall x, Forall P (yielded (k x))) -> Forall P (yielded (gbind r k)).
Proof. intros H. destruct r; simpl; [apply H | constructor]. Qed.

Lemma yielded_gfor {I A : Type} (P : A -> Prop) (l : list I)
    (body : I -> gen A) :
  (forall x, Forall P (yielded (body x))) -> Forall P (yielded (gfor l body)).
Proof.
  intros H. induction l as [|x l IH]; simpl; [constructor|].
  now apply yielded_gseq.
Qed.

(** Without [want_values] the walk yields bare keys only, on any memory. *)
Lemma children_of_node_keys_only (h : Host) :
  forall (height : nat) (boxed : Value),
    Forall (fun c => exists k, c = Key k)
           (yielded (children_of_node h boxed height false)).
Proof.
  induction height as [|height IH]; intros boxed;
    rewrite children_of_node_unfold;
    repeat (apply yielded_gbind; intros ?);
    apply yielded_gfor; intros i; apply yielded_gseq;
    repeat (apply yielded_gbind; intros ?);
    try apply IH; try (constructor; eauto; fail).
  - destruct (i <? _); repeat (apply yielded_gbind; intros ?);
      repeat constructor; eauto.
  - destruct (i <? _); repeat (apply yielded_gbind; intros ?);
      repeat constructor; eauto.
Qed.

(** ** Reference-counted boxes *)

Lemma format_strong_weak (a b : string) :
  format "strong={}, weak={}" [a; b]
  = Ok ("strong=" ++ a ++ ", weak=" ++ b)%string.
Proof. simpl. now rewrite append_empty_r. Qed.

Lemma value_sub_usize (W : Z) :
  1 <= W < 2 ^ 64 ->
  value_sub (VInt usize W) 1 = Ok (VInt (TInt "unsigned long" false 8) (W - 1)).
Proof.
  intros H. unfold value_sub, binop. cbn [promote usize wrap].
  change (word_size <=? 8) with true. cbv beta iota.
  cbn [wrap]. change (2 ^ long_bits) with (2 ^ 64).
  rewrite Z.mod_small by lia. reflexivity.
Qed.

(** C7.  For a reference-counted box, plain or atomic, whose control block
    stores strong [S] and weak [W] (a live box always has [W >= 1], the
    implicit weak reference), the weak count shown is [W - 1], the strong
    count shown is [S], the summary is [strong=<S>, weak=<W-1>] and the
    children are the payload, the strong count and the weak count, in that
    order. *)
Theorem StdRc_counts
    (h : Host) (valobj ptr payload : Value) (is_atomic : bool) (S W : Z)
    (Hptr : (p <- field h valobj "ptr" ;; unwrap_unique_or_non_null h p)
            = Ok ptr)
    (Hvalue : field h ptr (if is_atomic then "data" else "value") = Ok payload)
    (Hstrong : (s <- field h ptr "strong" ;;
                s' <- field h s (if is_atomic then "v" else "value") ;;
                field h s' "value") = Ok (VInt usize S))
    (Hweak : (w <- field h ptr "weak" ;;
              w' <- field h w (if is_atomic then "v" else "value") ;;
              field h w' "value") = Ok (VInt usize W))
    (HW : 1 <= W < 2 ^ 64) :
  exists self,
    StdRcProvider.init h valobj is_atomic = Ok self /\
    StdRcProvider.strong self = VInt usize S /\
    int (StdRcProvider.strong self) = Ok S /\
    int (StdRcProvider.weak self) = Ok (W - 1) /\
    StdRcProvider.to_string self
      = Ok ("strong=" ++ str_of_int S ++ ", weak=" ++ str_of_int (W - 1))%string /\
    StdRcProvider.children self
      = Gen [("value", payload); ("strong", StdRcProvider.strong self);
             ("weak", StdRcProvider.weak self)]%string None.
Proof.
  unfold StdRcProvider.init, bind in *.
  destruct (field h valobj "ptr") as [p|]; [|discriminate]. rewrite Hptr, Hvalue.
  destruct (field h ptr "strong") as [s|]; [|discriminate].
  destruct (field h s (if is_atomic then "v" else "value")) as [s'|];
    [|discriminate].
  rewrite Hstrong.
  destruct (field h ptr "weak") as [w|]; [|discriminate].
  destruct (field h w (if is_atomic then "v" else "value")) as [w'|];
    [|discriminate].
  rewrite Hweak, (value_sub_usize W HW).
  eexists. split; [reflexivity|].
  unfold StdRcProvider.to_string. cbn [StdRcProvider.strong StdRcProvider.weak int].
  repeat split. apply format_strong_weak.
Qed.

(** Stored strong 2 and weak 3 in a plain box: shown as strong 2, weak 2. *)
Lemma StdRc_counts_plain :
  exists self,
    StdRcProvider.init RcFixture.host RcFixture.rc_valobj false = Ok self /\
    StdRcProvider.strong self = VInt usize 2 /\
    int (StdRcProvider.strong self) = Ok 2 /\
    int (StdRcProvider.weak self) = Ok 2 /\
    StdRcProvider.to_string self = Ok "strong=2, weak=2"%string /\
    StdRcProvider.children self
      = Gen [("value", VInt i32 42); ("strong", StdRcProvider.strong self);
             ("weak", StdRcProvider.weak self)]%string None.
Proof.
  refine (StdRc_counts RcFixture.host RcFixture.rc_valobj
            (VPtr RcFixture.rcbox_ty 3000) (VInt i32 42) false 2 3
            eq_refl eq_refl eq_refl eq_refl _).
  lia.
Defined.

(** Stored strong 1 and weak 1 in an atomic box: shown as strong 1, weak 0. *)
Example StdRc_counts_atomic :
  exists self,
    StdRcProvider.init RcFixture.host RcFixture.arc_valobj true = Ok self /\
    StdRcProvider.to_string self = Ok "strong=1, weak=0"%string.
Proof. eexists. split; reflexivity. Qed.

(** ** Borrow-tracking cell and its guard *)

Lemma prefix_empty (s : string) : prefix "" s = true.
Proof. now destruct s. Qed.

Lemma format_borrow (s : string) :
  format "borrow={}" [s] = Ok ("borrow=" ++ s)%string.
Proof. simpl. now rewrite append_empty_r. Qed.

Lemma format_borrow_mut (s : string) :
  format "borrow_mut={}" [s] = Ok ("borrow_mut=" ++ s)%string.
Proof. simpl. now rewrite append_empty_r. Qed.

(** The summary methods alone, on provider objects that hold a counter
    reading [n]: [borrow=<n>] when [n >= 0] and [borrow_mut=<-n>] when
    [n < 0]; exactly one of the two cases applies to every integer, and the
    two summaries can be told apart. *)
Theorem borrow_summary
    (borrow value : Value) (n : Z) (Hn : int borrow = Ok n) :
  let cell := StdRefCellProvider.mk value borrow in
  let guard := StdRefProvider.mk value borrow in
  (0 <= n ->
     StdRefCellProvider.to_string cell = Ok ("borrow=" ++ str_of_int n)%string /\
     StdRefProvider.to_string guard = Ok ("borrow=" ++ str_of_int n)%string) /\
  (n < 0 ->
     StdRefCellProvider.to_string cell
       = Ok ("borrow_mut=" ++ str_of_int (- n))%string /\
     StdRefProvider.to_string guard
       = Ok ("borrow_mut=" ++ str_of_int (- n))%string) /\
  (0 <= n \/ n < 0) /\
  ~ (0 <= n /\ n < 0) /\
  (forall s, StdRefCellProvider.to_string cell = Ok s ->
             (prefix "borrow_mut=" s = true <-> n < 0)) /\
  (forall s, StdRefProvider.to_string guard = Ok s ->
             (prefix "borrow_mut=" s = true <-> n < 0)).
Proof.
  intros cell guard.
  assert (Hpos : 0 <= n ->
            StdRefCellProvider.to_string cell = Ok ("borrow=" ++ str_of_int n)%string /\
            StdRefProvider.to_string guard = Ok ("borrow=" ++ str_of_int n)%string).
  { intros H. unfold StdRefCellProvider.to_string, StdRefProvider.to_string.
    cbn [StdRefCellProvider.borrow StdRefProvider.borrow cell guard].
    rewrite Hn. cbn [bind].
    destruct (Z.geb_spec n 0); [|lia]. now rewrite format_borrow. }
  assert (Hneg : n < 0 ->
            StdRefCellProvider.to_string cell
              = Ok ("borrow_mut=" ++ str_of_int (- n))%string /\
            StdRefProvider.to_string guard
              = Ok ("borrow_mut=" ++ str_of_int (- n))%string).
  { intros H. unfold StdRefCellProvider.to_string, StdRefProvider.to_string.
    cbn [StdRefCellProvider.borrow StdRefProvider.borrow cell guard].
    rewrite Hn. cbn [bind].
    destruct (Z.geb_spec n 0); [lia|]. now rewrite format_borrow_mut. }
  split; [exact Hpos|]. split; [exact Hneg|].
  split; [lia|]. split; [lia|].
  split; intros s Hs.
  - destruct (Z.lt_ge_cases n 0) as [H | H].
    + destruct (Hneg H) as [E _]. rewrite E in Hs. injection Hs as <-.
      split; [intros _; exact H | intros _; simpl; apply prefix_empty].
    + destruct (Hpos H) as [E _]. rewrite E in Hs. injection Hs as <-.
      split; [intros Hp; simpl in Hp; discriminate | lia].
  - destruct (Z.lt_ge_cases n 0) as [H | H].
    + destruct (Hneg H) as [_ E]. rewrite E in Hs. injection Hs as <-.
      split; [intros _; exact H | intros _; simpl; apply prefix_empty].
    + destruct (Hpos H) as [_ E]. rewrite E in Hs. injection Hs as <-.
      split; [intros Hp; simpl in Hp; discriminate | lia].
Qed.

(** An exclusively borrowed cell: counter -1 is shown as [borrow_mut=1]. *)
Lemma borrow_summary_exclusive :
  StdRefCellProvider.to_string
    (StdRefCellProvider.mk (VInt i32 5) (VInt isize (-1)))
  = Ok "borrow_mut=1"%string /\
  StdRefProvider.to_string (StdRefProvider.mk (VInt i32 5) (VInt isize (-1)))
  = Ok "borrow_mut=1"%string.
Proof.
  destruct (borrow_summary (VInt isize (-1)) (VInt i32 5) (-1) eq_refl)
    as (_ & Hneg & _).
  apply Hneg. lia.
Defined.

(** The providers the constructors build from the fixtures. *)
Example borrow_summary_constructed :
  (exists self,
     StdRefCellProvider.init (RefCellFixture.host (-1))
                             (RefCellFixture.refcell_valobj (-1)) = Ok self /\
     StdRefCellProvider.to_string self = Ok "borrow_mut=1"%string) /\
  (exists self,
     StdRefProvider.init (RefCellFixture.host 2) RefCellFixture.ref_valobj
       = Ok self /\
     StdRefProvider.to_string self = Ok "borrow=2"%string).
Proof. split; eexists; split; reflexivity. Qed.

(** C8.  For every borrow-tracking cell, and for every guard, whose stored
    signed borrow counter reads [n]: the constructor builds the provider
    from the value (the cell reads [borrow.value.value], the guard reads
    [borrow.borrow.value.value] and dereferences its payload), and the
    summary of that provider is exactly [borrow=<n>] when [n >= 0] and
    exactly [borrow_mut=<-n>], the negated magnitude, when [n < 0].  The
    two cases exclude each other and cover every integer, and the summary
    starts with [borrow_mut=] exactly when [n < 0]. *)
Theorem borrow_summary_of_stored_counter
    (h : Host) (cell guard payload counter gpayload gcounter : Value) (n : Z) :
  ((v <- field h cell "value" ;; field h v "value") = Ok payload ->
   (b <- field h cell "borrow" ;; b' <- field h b "value" ;;
    field h b' "value") = Ok counter ->
   int counter = Ok n ->
   exists c,
     StdRefCellProvider.init h cell = Ok c /\
     StdRefCellProvider.borrow c = counter /\
     (0 <= n ->
      StdRefCellProvider.to_string c = Ok ("borrow=" ++ str_of_int n)%string) /\
     (n < 0 ->
      StdRefCellProvider.to_string c
      = Ok ("borrow_mut=" ++ str_of_int (- n))%string) /\
     (forall s, StdRefCellProvider.to_string c = Ok s ->
                (prefix "borrow_mut=" s = true <-> n < 0))) /\
  ((v <- field h guard "value" ;; dereference h v) = Ok gpayload ->
   (b <- field h guard "borrow" ;; b' <- field h b "borrow" ;;
    b'' <- field h b' "value" ;; field h b'' "value") = Ok gcounter ->
   int gcounter = Ok n ->
   exists g,
     StdRefProvider.init h guard = Ok g /\
     StdRefProvider.borrow g = gcounter /\
     (0 <= n ->
      StdRefProvider.to_string g = Ok ("borrow=" ++ str_of_int n)%string) /\
     (n < 0 ->
      StdRefProvider.to_string g
      = Ok ("borrow_mut=" ++ str_of_int (- n))%string) /\
     (forall s, StdRefProvider.to_string g = Ok s ->
                (prefix "borrow_mut=" s = true <-> n < 0))) /\
  (0 <= n \/ n < 0) /\
  ~ (0 <= n /\ n < 0).
Proof.
  split; [|split; [|split; lia]].
  - intros Hv Hb Hn. unfold StdRefCellProvider.init, bind in *.
    destruct (field h cell "value") as [v|]; [|discriminate]. rewrite Hv.
    destruct (field h cell "borrow") as [b|]; [|discriminate].
    destruct (field h b "value") as [b'|]; [|discriminate]. rewrite Hb.
    eexists. split; [reflexivity|]. split; [reflexivity|].
    destruct (borrow_summary counter payload n Hn)
      as (Hpos & Hneg & _ & _ & Hpre & _).
    split; [intros H0; now apply Hpos|].
    split; [intros H0; now apply Hneg|]. exact Hpre.
  - intros Hv Hb Hn. unfold StdRefProvider.init, bind in *.
    destruct (field h guard "value") as [v|]; [|discriminate]. rewrite Hv.
    destruct (field h guard "borrow") as [b|]; [|discriminate].
    destruct (field h b "borrow") as [b'|]; [|discriminate].
    destruct (field h b' "value") as [b''|]; [|discriminate]. rewrite Hb.
    eexists. split; [reflexivity|]. split; [reflexivity|].
    destruct (borrow_summary gcounter gpayload n Hn)
      as (Hpos & Hneg & _ & _ & _ & Hpre).
    split; [intros H0; now apply Hpos|].
    split; [intros H0; now apply Hneg|]. exact Hpre.
Qed.

(** An exclusively borrowed cell and a guard borrowed from it, the stored
    counter reading -1: both are shown as [borrow_mut=1]. *)
Lemma borrow_summary_of_stored_counter_exclusive :
  (exists c,
     StdRefCellProvider.init (RefCellFixture.host (-1))
                             (RefCellFixture.refcell_valobj (-1)) = Ok c /\
     StdRefCellProvider.to_string c = Ok "borrow_mut=1"%string) /\
  (exists g,
     StdRefProvider.init (RefCellFixture.host (-1)) RefCellFixture.ref_valobj
       = Ok g /\
     StdRefProvider.to_string g = Ok "borrow_mut=1"%string).
Proof.
  destruct (borrow_summary_of_stored_counter (RefCellFixture.host (-1))
              (RefCellFixture.refcell_valobj (-1)) RefCellFixture.ref_valobj
              (VInt i32 5) (VInt isize (-1)) (VInt i32 5) (VInt isize (-1))
              (-1))
    as (Hcell & Hguard & _).
  split.
  - destruct (Hcell eq_refl eq_refl eq_refl) as (c & Hinit & _ & _ & Hneg & _).
    exists c. split; [exact Hinit|]. apply Hneg. lia.
  - destruct (Hguard eq_refl eq_refl eq_refl) as (g & Hinit & _ & _ & Hneg & _).
    exists g. split; [exact Hinit|]. apply Hneg. lia.
Defined.

(** A cell with two shared borrows and a guard borrowed from it. *)
Lemma borrow_summary_of_stored_counter_shared :
  (exists c,
     StdRefCellProvider.init (RefCellFixture.host 2)
                             (RefCellFixture.refcell_valobj 2) = Ok c /\
     StdRefCellProvider.to_string c = Ok "borrow=2"%string) /\
  (exists g,
     StdRefProvider.init (RefCellFixture.host 2) RefCellFixture.ref_valobj
       = Ok g /\
     StdRefProvider.to_string g = Ok "borrow=2"%string).
Proof. split; eexists; split; reflexivity. Qed.

(** ** Enums *)

Lemma format_variant (tn nm : string) :
  format "{}::{}" [tn; nm] = Ok (tn ++ "::" ++ nm)%string.
Proof. simpl. now rewrite append_empty_r. Qed.

Lemma py_index_nth {A : Type} (l : list A) (i : Z) (a : A) :
  0 <= i -> nth_error l (Z.to_nat i) = Some a -> py_index l i = Ok a.
Proof.
  intros Hi Ha. unfold py_index.
  destruct (Z.ltb_spec i 0); [lia|].
  destruct (Z.ltb_spec i 0); [lia|]. now rewrite Ha.
Qed.

(** C9.  The enum provider reads the field list of the first sub-field.
    Empty: the summary is the type name alone and there are no children.
    One sub-field: the discriminant is 0.  Otherwise the discriminant is
    [int(first subfield) + 1], the payloads starting at slot 1.  In the
    non-empty cases the summary is [<type>::<variant>] and the only child
    is the active variant's payload, keyed by the variant name. *)
Theorem EnumProvider_decode
    (h : Host) (valobj content : Value) (f0 : Field) (tn : string)
    (Hf0 : py_index (fields valobj) 0 = Ok f0)
    (Hcontent : field_of h valobj f0 = Ok content)
    (Htn : type_name_of valobj = Ok tn) :
  (fields content = [] ->
     exists self,
       EnumProvider.init h valobj = Ok self /\
       EnumProvider.empty self = true /\
       EnumProvider.to_string self = tn /\
       EnumProvider.children self = Gen [] None) /\
  (forall f payload,
     fields content = [f] ->
     field_of h content f = Ok payload ->
     EnumProvider.discriminant h content (fields content) = Ok 0 /\
     exists self,
       EnumProvider.init h valobj = Ok self /\
       EnumProvider.to_string self = (tn ++ "::" ++ name f)%string /\
       EnumProvider.children self = Gen [(name f, payload)] None) /\
  (forall ft tag d f payload,
     (2 <= List.length (fields content))%nat ->
     nth_error (fields content) 0 = Some ft ->
     field_of h content ft = Ok tag ->
     int tag = Ok d ->
     0 <= d ->
     nth_error (fields content) (Z.to_nat (d + 1)) = Some f ->
     field_of h content f = Ok payload ->
     EnumProvider.discriminant h content (fields content) = Ok (d + 1) /\
     exists self,
       EnumProvider.init h valobj = Ok self /\
       EnumProvider.to_string self = (tn ++ "::" ++ name f)%string /\
       EnumProvider.children self = Gen [(name f, payload)] None).
Proof.
  unfold EnumProvider.init. rewrite Hf0. cbn [bind]. rewrite Hcontent.
  cbn [bind]. split; [|split].
  - intros Hnil. rewrite Hnil, Htn. cbn.
    eexists. repeat split.
  - intros f payload Hone Hpay. rewrite Hone.
    cbn [List.length Nat.eqb negb EnumProvider.discriminant bind].
    change (py_index [f] 0) with (Ok f). cbn [bind].
    rewrite Hpay, Htn. cbn [bind]. rewrite format_variant. cbn [bind].
    split; [reflexivity|]. eexists. repeat split.
  - intros ft tag d f payload Hlen Hft Htag Hd Hpos Hf Hpay.
    assert (Hdisc : EnumProvider.discriminant h content (fields content)
                    = Ok (d + 1)).
    { unfold EnumProvider.discriminant.
      destruct (Nat.eqb_spec (List.length (fields content)) 1); [lia|].
      rewrite (py_index_nth (fields content) 0 ft) by (lia || exact Hft).
      cbn [bind]. rewrite Htag. cbn [bind]. rewrite Hd. reflexivity. }
    split; [exact Hdisc|].
    destruct (Nat.eqb_spec (List.length (fields content)) 0); [lia|].
    cbn [negb]. rewrite Hdisc. cbn [bind].
    rewrite (py_index_nth (fields content) (d + 1) f) by (lia || exact Hf).
    cbn [bind]. rewrite Hpay, Htn. cbn [bind].
    rewrite format_variant. cbn [bind].
    eexists. repeat split.
Qed.

(** Three sub-fields with tag 1: the payload at slot 2 is shown. *)
Lemma EnumProvider_decode_tagged :
  exists self,
    EnumProvider.init EnumFixture.host EnumFixture.tagged = Ok self /\
    EnumProvider.to_string self = "shapes::Shape::Square"%string /\
    EnumProvider.children self
      = Gen [("Square"%string, EnumFixture.variant "shapes::Shape::Square" 4)]
            None.
Proof.
  destruct (EnumProvider_decode EnumFixture.host EnumFixture.tagged
              (VStruct (TStruct "shapes::Shape::payload" 16 [])
                 [("RUST$ENUM$DISR", VInt u8 1);
                  ("Circle", EnumFixture.variant "shapes::Shape::Circle" 3);
                  ("Square", EnumFixture.variant "shapes::Shape::Square" 4)]%string)
              (mkField "__enum") "shapes::Shape" eq_refl eq_refl eq_refl)
    as (_ & _ & H).
  destruct (H (mkField "RUST$ENUM$DISR") (VInt u8 1) 1 (mkField "Square")
              (EnumFixture.variant "shapes::Shape::Square" 4))
    as [_ Hself]; try reflexivity; try (simpl; lia).
  exact Hself.
Defined.

(** The single-variant and the empty enum, evaluated. *)
Example EnumProvider_decode_single_and_empty :
  (exists self,
     EnumProvider.init EnumFixture.host EnumFixture.single = Ok self /\
     EnumProvider.to_string self = "shapes::Shape::Circle"%string /\
     EnumProvider.children self
       = Gen [("Circle"%string, EnumFixture.variant "shapes::Shape::Circle" 3)]
             None) /\
  (exists self,
     EnumProvider.init EnumFixture.host EnumFixture.uninhabited = Ok self /\
     EnumProvider.to_string self = "shapes::Shape"%string /\
     EnumProvider.children self = Gen [] None).
Proof. split; eexists; repeat split. Qed.

(** ** Ordered set and map summaries *)

(** A template without a replacement field ignores its arguments. *)
Lemma format_size_no_field (args : list string) :
  format "size=" args = Ok "size="%string.
Proof. reflexivity. Qed.

(** C2.  The summaries of the ordered set and of the ordered map are the
    bare text [size=], not [size=<n>]: on a set and a map whose length
    field holds 8 the count is read and then dropped by the template, while
    the growable array formats its own length correctly. *)
Theorem StdBTree_summary_drops_count :
  (m <- field BTreeFixture.host BTreeFixture.set_valobj "map" ;;
   len <- field BTreeFixture.host m "length" ;; int len) = Ok 8 /\
  StdBTreeSetProvider.to_string BTreeFixture.host
    (StdBTreeSetProvider.init BTreeFixture.set_valobj) = Ok "size="%string /\
  (len <- field BTreeFixture.host BTreeFixture.map_valobj "length" ;; int len)
    = Ok 8 /\
  StdBTreeMapProvider.to_string BTreeFixture.host
    (StdBTreeMapProvider.init BTreeFixture.map_valobj) = Ok "size="%string /\
  "size="%string <> "size=8"%string /\
  StdVecProvider.to_string (StdVecProvider.mk VecFixture.valobj 8 (VPtr i32 1000))
    = Ok "size=8"%string.
Proof. repeat split; discriminate. Qed.

(** Whatever the stored length, the summaries are [size=]. *)
Lemma StdBTree_summary_constant (h : Host) (valobj : Value) (s : string) :
  (StdBTreeSetProvider.to_string h (StdBTreeSetProvider.init valobj) = Ok s ->
   s = "size="%string) /\
  (StdBTreeMapProvider.to_string h (StdBTreeMapProvider.init valobj) = Ok s ->
   s = "size="%string).
Proof.
  unfold StdBTreeSetProvider.to_string, StdBTreeMapProvider.to_string, bind.
  cbn [StdBTreeSetProvider.valobj StdBTreeSetProvider.init
       StdBTreeMapProvider.valobj StdBTreeMapProvider.init].
  split.
  - destruct (field h valobj "map") as [m|]; [|discriminate].
    destruct (field h m "length"); [|discriminate].
    rewrite format_size_no_field. congruence.
  - destruct (field h valobj "length"); [|discriminate].
    rewrite format_size_no_field. congruence.
Qed.

(** ** Legacy hash table *)

(** The capacity the legacy provider derives is [capacity_mask + 1] reduced
    modulo two to the power of the size in bytes of a hash word. *)
Lemma StdOldHashMap_capacity_formula
    (h : Host) (valobj : Value) (show_values : bool)
    (self : StdOldHashMapProvider.t) :
  StdOldHashMapProvider.init h valobj show_values = Ok self ->
  StdOldHashMapProvider.hash_uint_size self
    = sizeof (StdOldHashMapProvider.hash_uint_type self) /\
  StdOldHashMapProvider.modulo self
    = 2 ^ StdOldHashMapProvider.hash_uint_size self /\
  StdOldHashMapProvider.capacity self
    = (StdOldHashMapProvider.capacity_mask self + 1)
      mod StdOldHashMapProvider.modulo self.
Proof.
  unfold StdOldHashMapProvider.init, bind. intros H.
  repeat match type of H with
         | match ?x with Ok _ => _ | Raise _ => _ end = Ok _ =>
             destruct x eqn:?; [|discriminate H]
         end.
  injection H as <-. cbn. repeat split.
  match goal with
  | E : py_mod _ _ = Ok _ |- _ => unfold py_mod in E;
      destruct (_ =? 0) in E; [discriminate|]; now injection E as <-
  end.
Qed.

(** C3.  A legacy table with [capacity_mask = 255] and 8-byte hash words
    has 256 buckets, but the provider derives capacity [256 mod 2^8 = 0]
    and inspects no bucket at all: the modulus is two to the power of the
    word size in bytes, not in bits. *)
Theorem StdOldHashMap_capacity_mask_255 :
  exists self,
    StdOldHashMapProvider.init OldHashFixture.big_host
      OldHashFixture.big_valobj true = Ok self /\
    StdOldHashMapProvider.capacity_mask self = 255 /\
    StdOldHashMapProvider.hash_uint_size self = 8 /\
    StdOldHashMapProvider.modulo self = 256 /\
    StdOldHashMapProvider.capacity self = 0 /\
    StdOldHashMapProvider.capacity self
      <> StdOldHashMapProvider.capacity_mask self + 1 /\
    StdOldHashMapProvider.valid_indices self = [].
Proof.
  eexists. split; [reflexivity|]. cbn. repeat split. discriminate.
Qed.

(** C5.  The same table holds one entry, in bucket 0 of its 256 buckets
    (the provider's own occupancy test says so of each bucket), and its
    stored size is 1: the memory is consistent.  The legacy provider
    nevertheless builds an empty occupied-index list, and its children
    raise on the first entry instead of yielding it.  The current-layout
    provider, and the legacy one on a table its scan covers, do what is
    expected ([StdHashMap_children_occupied],
    [StdOldHashMap_children_occupied]). *)
Theorem StdOldHashMap_children_mask_255 :
  filter OldHashFixture.big_occupied (xrange 0 (255 + 1)) = [0] /\
  forallb (fun idx =>
             match StdOldHashMapProvider.occupied OldHashFixture.big_host
                     (VPtr usize OldHashFixture.base) OldHashFixture.tagged_ty
                     idx with
             | Ok b => Bool.eqb b (OldHashFixture.big_occupied idx)
             | Raise _ => false
             end) (xrange 0 (255 + 1)) = true /\
  exists self,
    StdOldHashMapProvider.init OldHashFixture.big_host
      OldHashFixture.big_valobj true = Ok self /\
    StdOldHashMapProvider.size self = 1 /\
    StdOldHashMapProvider.valid_indices self = [] /\
    Z.of_nat (List.length (StdOldHashMapProvider.valid_indices self))
      <> StdOldHashMapProvider.size self /\
    StdOldHashMapProvider.children OldHashFixture.big_host self
      = Gen [] (Some IndexError).
Proof.
  split; [vm_compute; reflexivity|].
  split; [vm_compute; reflexivity|].
  eexists. split; [reflexivity|]. cbn. repeat split. discriminate.
Qed.

(** ** Current hash table *)

Lemma land_pow2 (a n : Z) :
  0 <= n -> Z.land a (2 ^ n) = if Z.testbit a n then 2 ^ n else 0.
Proof.
  intros Hn. apply Z.bits_inj'. intros m Hm.
  rewrite Z.land_spec, Z.pow2_bits_eqb by exact Hn.
  destruct (Z.eqb_spec n m) as [<- | Hne].
  - rewrite andb_true_r. destruct (Z.testbit a n) eqn:E.
    + now rewrite Z.pow2_bits_true.
    + now rewrite Z.bits_0.
  - rewrite andb_false_r. destruct (Z.testbit a n).
    + rewrite Z.pow2_bits_false; [reflexivity | exact Hne].
    + now rewrite Z.bits_0.
Qed.

(** A bucket is presented iff the high bit of its control byte is clear. *)
Lemma is_presented_high_bit (h : Host) (ctrl : Value) (idx b : Z) :
  (p <- ptr_add ctrl idx ;; dereference h p) = Ok (VInt u8 b) ->
  StdHashMapProvider.is_presented h ctrl idx = Ok (negb (Z.testbit b 7)).
Proof.
  unfold StdHashMapProvider.is_presented, bind. intros H.
  destruct (ptr_add ctrl idx) as [p|]; [|discriminate]. rewrite H.
  cbn [value_and binop promote u8 int].
  change (word_size <=? 1) with false. cbv beta iota. cbn [wrap].
  f_equal. change 128 with (2 ^ 7). rewrite land_pow2 by lia.
  destruct (Z.testbit b 7); reflexivity.
Qed.

(** The scan loop of both constructors collects, in ascending order, the
    indices its test accepts. *)
Lemma for_acc_filter (test : Z -> result bool) (p : Z -> bool) (l acc : list Z) :
  (forall x, In x l -> test x = Ok (p x)) ->
  for_acc l acc (fun valid_indices idx =>
    b <- test idx ;;
    Ok (if b then (valid_indices ++ [idx])%list else valid_indices))
  = Ok (acc ++ filter p l)%list.
Proof.
  revert acc. induction l as [|x l IH]; intros acc H; simpl.
  - now rewrite app_nil_r.
  - rewrite (H x (or_introl eq_refl)). cbn [bind].
    rewrite IH by (intros; apply H; now right).
    destruct (p x); [now rewrite <- app_assoc | reflexivity].
Qed.

Lemma gfor_ext_in {I A : Type} (l : list I) (b1 b2 : I -> gen A) :
  (forall x, In x l -> b1 x = b2 x) -> gfor l b1 = gfor l b2.
Proof.
  induction l as [|x l IH]; intros H; simpl; [reflexivity|].
  rewrite (H x (or_introl eq_refl)), IH by (intros; apply H; now right).
  reflexivity.
Qed.

Lemma gfor_map_list {I J A : Type} (f : I -> J) (l : list I) (body : J -> gen A) :
  gfor (map f l) body = gfor l (fun x => body (f x)).
Proof. induction l as [|x l IH]; simpl; congruence. Qed.

Lemma enumerate_from_seq {A : Type} (d : A) (l : list A) (i : Z) :
  enumerate_from i l
  = map (fun j => (i + Z.of_nat j, nth j l d)) (seq 0 (List.length l)).
Proof.
  revert i. induction l as [|x l IH]; intros i; [reflexivity|].
  cbn [enumerate_from List.length]. rewrite <- cons_seq, <- seq_shift.
  cbn [map nth]. rewrite Z.add_0_r. f_equal.
  rewrite IH, map_map. apply map_ext. intros j. f_equal. lia.
Qed.

(** Indexing a list at the positions [0 .. len - 1] visits its elements in
    order, with their positions. *)
Lemma gfor_indexed {A B : Type} (l : list A) (body : Z -> A -> gen B) :
  gfor (xrange 0 (Z.of_nat (List.length l)))
       (fun index => x <~ py_index l index ;; body index x)
  = gfor (enumerate l) (fun p => body (fst p) (snd p)).
Proof.
  destruct l as [|d l']; [reflexivity|]. set (l := d :: l').
  unfold enumerate. rewrite (enumerate_from_seq d l 0), xrange_seq.
  rewrite !gfor_map_list. apply gfor_ext_in. intros j Hj.
  apply in_seq in Hj. cbn [fst snd].
  rewrite (py_index_nth l (Z.of_nat j) (nth j l d)).
  - reflexivity.
  - lia.
  - rewrite Nat2Z.id. apply nth_error_nth'. lia.
Qed.

Lemma format_key (s : string) : format "key{}" [s] = Ok ("key" ++ s)%string.
Proof. simpl. now rewrite append_empty_r. Qed.

Lemma format_val (s : string) : format "val{}" [s] = Ok ("val" ++ s)%string.
Proof. simpl. now rewrite append_empty_r. Qed.

Lemma table_entry_ok (h : Host) (show_values : bool) (n : Z)
    (element k v : Value) :
  field h element ZERO_FIELD = Ok k ->
  field h element FIRST_FIELD = Ok v ->
  table_entry h show_values n element = Gen (entries show_values n k v) None.
Proof.
  intros Hk Hv. unfold table_entry, entries. destruct show_values.
  - rewrite format_key, format_val. cbn [gbind]. rewrite Hk, Hv. reflexivity.
  - rewrite format_brackets. cbn [gbind]. rewrite Hk. reflexivity.
Qed.

(** The current-layout provider on a consistent table: the stored size is
    the number of buckets whose control byte has its high bit clear.  The
    occupied-index list is exactly those buckets, in ascending order, so
    its length is the reported size and no index reaches the capacity;
    the children are the entries of those buckets and of no other, and
    enumeration ends normally. *)
Theorem StdHashMap_children_occupied
    (h : Host) (valobj table ctrl : Value) (pty : gdb_type) (a : Z)
    (show_values : bool) (bucket_mask size : Z)
    (ctrl_bytes : Z -> Z) (elems keys vals : Z -> Value)
    (Htable : (b <- field h valobj "base" ;; field h b "table") = Ok table)
    (Hmask : (x <- field h table "bucket_mask" ;; int x) = Ok bucket_mask)
    (Hctrl : (c <- field h table "ctrl" ;; field h c "pointer") = Ok ctrl)
    (Hitems : (x <- field h table "items" ;; int x) = Ok size)
    (Hdata : (d <- field h table "data" ;; field h d "pointer")
             = Ok (VPtr pty a))
    (Hbytes : forall idx, 0 <= idx < bucket_mask + 1 ->
                (p <- ptr_add ctrl idx ;; dereference h p)
                = Ok (VInt u8 (ctrl_bytes idx)))
    (Hconsistent :
       size = Z.of_nat (List.length (occupied_buckets ctrl_bytes (bucket_mask + 1))))
    (Helems : forall idx, In idx (occupied_buckets ctrl_bytes (bucket_mask + 1)) ->
                dereference h (VPtr pty (a + idx * sizeof pty)) = Ok (elems idx) /\
                field h (elems idx) ZERO_FIELD = Ok (keys idx) /\
                field h (elems idx) FIRST_FIELD = Ok (vals idx)) :
  exists self,
    StdHashMapProvider.init h valobj show_values = Ok self /\
    StdHashMapProvider.valid_indices self
      = occupied_buckets ctrl_bytes (bucket_mask + 1) /\
    (forall idx, In idx (StdHashMapProvider.valid_indices self) <->
                 0 <= idx < bucket_mask + 1 /\
                 Z.testbit (ctrl_bytes idx) 7 = false) /\
    Z.of_nat (List.length (StdHashMapProvider.valid_indices self))
      = StdHashMapProvider.size self /\
    StdHashMapProvider.size self = size /\
    StdHashMapProvider.children h self
      = Gen (flat_map (fun p => entries show_values (fst p)
                                        (keys (snd p)) (vals (snd p)))
                      (enumerate (StdHashMapProvider.valid_indices self)))
            None /\
    (size = 0 -> StdHashMapProvider.children h self = Gen [] None).
Proof.
  set (occ := occupied_buckets ctrl_bytes (bucket_mask + 1)) in *.
  assert (Hscan :
    for_acc (xrange 0 (bucket_mask + 1)) [] (fun valid_indices idx =>
      b <- StdHashMapProvider.is_presented h ctrl idx ;;
      Ok (if b then (valid_indices ++ [idx])%list else valid_indices))
    = Ok occ).
  { rewrite (for_acc_filter _ (fun idx => negb (Z.testbit (ctrl_bytes idx) 7)));
      [reflexivity|].
    intros idx Hidx. apply xrange_In in Hidx.
    now apply is_presented_high_bit, Hbytes. }
  unfold StdHashMapProvider.init, bind in *.
  destruct (field h valobj "base") as [b|]; [|discriminate]. rewrite Htable.
  destruct (field h table "bucket_mask") as [bm|]; [|discriminate].
  rewrite Hmask.
  destruct (field h table "ctrl") as [c|]; [|discriminate]. rewrite Hctrl.
  destruct (field h table "items") as [it|]; [|discriminate]. rewrite Hitems.
  destruct (field h table "data") as [d|]; [|discriminate]. rewrite Hdata.
  cbn [type_of target]. rewrite Hscan.
  eexists. split; [reflexivity|].
  cbn [StdHashMapProvider.valid_indices StdHashMapProvider.size].
  assert (Hchildren :
    StdHashMapProvider.children h
      (StdHashMapProvider.mk valobj show_values size (VPtr pty a) pty occ)
    = Gen (flat_map (fun p => entries show_values (fst p)
                                      (keys (snd p)) (vals (snd p)))
                    (enumerate occ)) None).
  { unfold StdHashMapProvider.children.
    cbn [StdHashMapProvider.valid_indices StdHashMapProvider.size
         StdHashMapProvider.data_ptr StdHashMapProvider.show_values].
    rewrite Hconsistent.
    rewrite (gfor_indexed occ (fun index idx =>
               p <~ ptr_add (VPtr pty a) idx ;;
               element <~ dereference h p ;;
               table_entry h show_values index element)).
    apply gfor_flat_map. intros [n idx] Hin. cbn [fst snd].
    assert (Hidx : In idx occ).
    { unfold enumerate in Hin.
      rewrite (enumerate_from_seq 0 occ 0) in Hin.
      apply in_map_iff in Hin as (j & Hj & Hjin). apply in_seq in Hjin.
      injection Hj as _ <-. apply nth_In. lia. }
    destruct (Helems idx Hidx) as (He & Hk & Hv).
    cbn [ptr_add gbind]. rewrite He. cbn [gbind].
    now apply table_entry_ok. }
  split; [reflexivity|]. split.
  { intros idx. unfold occ, occupied_buckets.
    rewrite filter_In, xrange_In, negb_true_iff. reflexivity. }
  split; [now rewrite Hconsistent|]. split; [reflexivity|].
  split; [exact Hchildren|].
  intros H0. rewrite Hchildren.
  destruct occ as [|x occ']; [reflexivity|].
  rewrite H0 in Hconsistent. discriminate.
Qed.

(** Four buckets with control bytes 0x25, 0xFF, 0x80, 0x11 and two items:
    buckets 0 and 3 are shown, buckets 1 (empty) and 2 (tombstone) are
    not. *)
Lemma StdHashMap_fixture :
  exists self,
    StdHashMapProvider.init HashFixture.host HashFixture.valobj true = Ok self /\
    StdHashMapProvider.valid_indices self = [0; 3] /\
    StdHashMapProvider.size self = 2 /\
    StdHashMapProvider.children HashFixture.host self
      = Gen [("key0", VInt i32 1); ("val0", VInt i32 100);
             ("key1", VInt i32 4); ("val1", VInt i32 400)]%string None.
Proof.
  destruct (StdHashMap_children_occupied HashFixture.host HashFixture.valobj
              (HashFixture.table 3 2) (VPtr u8 5000) pair_ty 6000 true 3 2
              HashFixture.ctrl_bytes HashFixture.elems
              (fun idx => VInt i32 (idx + 1))
              (fun idx => VInt i32 (100 * (idx + 1)))
              eq_refl eq_refl eq_refl eq_refl eq_refl)
    as (self & Hinit & Hvi & _ & _ & Hsize & Hch & _).
  - intros idx Hidx.
    assert (Hc : idx = 0 \/ idx = 1 \/ idx = 2 \/ idx = 3) by lia.
    destruct Hc as [-> | [-> | [-> | ->]]]; reflexivity.
  - reflexivity.
  - intros idx Hidx. vm_compute in Hidx.
    destruct Hidx as [<- | [<- | []]]; repeat split.
  - exists self. rewrite Hch, Hvi. repeat split; assumption.
Defined.

(** ** Pointer wrappers *)

(** The growable-array provider does not depend on which of the two
    historical layouts the owning-pointer wrapper has: with the raw pointer
    stored directly, or one level deeper behind a non-pointer field, the
    same length and the same data pointer are decoded, so summary and
    children agree. *)
Theorem StdVec_same_for_both_pointer_layouts
    (h : Host) (v1 v2 w1 w2 inner : Value) (L : Z) (t : gdb_type) (a : Z)
    (Hlen1 : (x <- field h v1 "len" ;; int x) = Ok L)
    (Hlen2 : (x <- field h v2 "len" ;; int x) = Ok L)
    (Hw1 : (b <- field h v1 "buf" ;; field h b "ptr") = Ok w1)
    (Hw2 : (b <- field h v2 "buf" ;; field h b "ptr") = Ok w2)
    (Hdirect : field h w1 "pointer" = Ok (VPtr t a))
    (Hnested : field h w2 "pointer" = Ok inner)
    (Hcode : code inner <> TYPE_CODE_PTR)
    (Hinner : field h inner ZERO_FIELD = Ok (VPtr t a)) :
  unwrap_unique_or_non_null h w1 = Ok (VPtr t a) /\
  unwrap_unique_or_non_null h w2 = Ok (VPtr t a) /\
  exists s1 s2,
    StdVecProvider.init h v1 = Ok s1 /\
    StdVecProvider.init h v2 = Ok s2 /\
    StdVecProvider.data_ptr s1 = StdVecProvider.data_ptr s2 /\
    StdVecProvider.to_string s1 = StdVecProvider.to_string s2 /\
    StdVecProvider.children h s1 = StdVecProvider.children h s2.
Proof.
  assert (U1 : unwrap_unique_or_non_null h w1 = Ok (VPtr t a)).
  { unfold unwrap_unique_or_non_null. rewrite Hdirect. reflexivity. }
  assert (U2 : unwrap_unique_or_non_null h w2 = Ok (VPtr t a)).
  { unfold unwrap_unique_or_non_null. rewrite Hnested. cbn [bind].
    destruct inner; cbn [code type_code_eqb] in *;
      try exact Hinner. contradiction. }
  split; [exact U1|]. split; [exact U2|].
  unfold StdVecProvider.init, bind in *.
  destruct (field h v1 "len") as [l1|]; [|discriminate]. rewrite Hlen1.
  destruct (field h v2 "len") as [l2|]; [|discriminate]. rewrite Hlen2.
  destruct (field h v1 "buf") as [b1|]; [|discriminate]. rewrite Hw1, U1.
  destruct (field h v2 "buf") as [b2|]; [|discriminate]. rewrite Hw2, U2.
  do 2 eexists. repeat split.
Qed.

(** The two layouts of the fixtures: [Unique { pointer }] and
    [Unique { pointer: NonZero { __0 } }]. *)
Lemma StdVec_same_for_both_pointer_layouts_fixture :
  unwrap_unique_or_non_null VecFixture.host (unique i32 1000)
    = Ok (VPtr i32 1000) /\
  unwrap_unique_or_non_null VecFixture.host (unique_nested i32 1000)
    = Ok (VPtr i32 1000) /\
  exists s1 s2,
    StdVecProvider.init VecFixture.host VecFixture.valobj = Ok s1 /\
    StdVecProvider.init VecFixture.host
      (VStruct (TStruct "alloc::vec::Vec<i32>" 24 [i32])
         [("buf", VStruct (TStruct "alloc::raw_vec::RawVec" 16 [i32])
                    [("ptr", unique_nested i32 1000); ("cap", VInt usize 4)]);
          ("len", VInt usize 3)]%string) = Ok s2 /\
    StdVecProvider.data_ptr s1 = StdVecProvider.data_ptr s2 /\
    StdVecProvider.to_string s1 = StdVecProvider.to_string s2 /\
    StdVecProvider.children VecFixture.host s1
      = StdVecProvider.children VecFixture.host s2.
Proof.
  refine (StdVec_same_for_both_pointer_layouts VecFixture.host
            VecFixture.valobj
            (VStruct (TStruct "alloc::vec::Vec<i32>" 24 [i32])
               [("buf", VStruct (TStruct "alloc::raw_vec::RawVec" 16 [i32])
                          [("ptr", unique_nested i32 1000);
                           ("cap", VInt usize 4)]);
                ("len", VInt usize 3)]%string)
            (unique i32 1000) (unique_nested i32 1000)
            (VStruct (TStruct "core::nonzero::NonZero" 8 [TPtr i32])
               [(ZERO_FIELD, VPtr i32 1000)])
            3 i32 1000 eq_refl eq_refl eq_refl eq_refl eq_refl eq_refl _ eq_refl).
  discriminate.
Defined.

(** ** Structs and tuples *)

Lemma assoc_NoDup (fl : list (string * Value)) (n : string) (v : Value) :
  NoDup (map fst fl) -> In (n, v) fl -> assoc fl n = Ok v.
Proof.
  induction fl as [|[n' v'] fl IH]; intros Hnd Hin; [contradiction|].
  cbn [map fst] in Hnd. apply NoDup_cons_iff in Hnd as [Hnotin Hnd].
  cbn [assoc]. destruct Hin as [Heq | Hin].
  - injection Heq as -> ->. now rewrite String.eqb_refl.
  - destruct (String.eqb_spec n' n) as [-> | Hne].
    + exfalso. apply Hnotin. apply in_map_iff. now exists (n, v).
    + now apply IH.
Qed.

Lemma enumerate_from_map {A B : Type} (f : A -> B) (l : list A) (i : Z) :
  enumerate_from i (map f l)
  = map (fun p => (fst p, f (snd p))) (enumerate_from i l).
Proof.
  revert i. induction l as [|x l IH]; intros i; simpl; [reflexivity|].
  now rewrite IH.
Qed.

Lemma enumerate_from_length {A : Type} (l : list A) (i : Z) :
  List.length (enumerate_from i l) = List.length l.
Proof. revert i. induction l; intros i; simpl; congruence. Qed.

Lemma enumerate_from_snd {A : Type} (l : list A) (i : Z) :
  map snd (enumerate_from i l) = l.
Proof. revert i. induction l; intros i; simpl; congruence. Qed.

Lemma enumerate_from_In {A : Type} (l : list A) (i : Z) (p : Z * A) :
  In p (enumerate_from i l) -> In (snd p) l.
Proof.
  intros H. rewrite <- (enumerate_from_snd l i). now apply in_map.
Qed.

Lemma struct_children (h : Host) (ty : gdb_type) (fl : list (string * Value)) :
  NoDup (map fst fl) ->
  StructProvider.children h (StructProvider.init (VStruct ty fl)) = Gen fl None.
Proof.
  intros Hnames.
  unfold StructProvider.children, StructProvider.init, StructProvider.type_fields.
  cbn [StructProvider.fields StructProvider.valobj fields].
  rewrite gfor_map_list.
  rewrite (gfor_map fl _ (fun p => p)); [now rewrite map_id|].
  intros [n v] Hin. cbn [name fst field_of field].
  rewrite (assoc_NoDup fl n v Hnames Hin). reflexivity.
Qed.

(** The struct provider, on a struct whose field names are distinct: the
    summary is the type name, and the children are exactly the declared
    fields, in declaration order, each keyed by its name; enumeration ends
    normally. *)
Theorem StructProvider_children_are_the_fields
    (h : Host) (ty : gdb_type) (fl : list (string * Value))
    (Hnames : NoDup (map fst fl)) :
  StructProvider.to_string (StructProvider.init (VStruct ty fl))
    = Ok (type_name ty) /\
  StructProvider.children h (StructProvider.init (VStruct ty fl))
    = Gen fl None.
Proof.
  split; [reflexivity | now apply struct_children].
Qed.

Lemma StructProvider_point :
  StructProvider.to_string (StructProvider.init StructFixture.point)
    = Ok "geometry::Point"%string /\
  StructProvider.children StructFixture.host
    (StructProvider.init StructFixture.point)
    = Gen [("x", VInt i32 3); ("y", VInt i32 4)]%string None.
Proof.
  apply (StructProvider_children_are_the_fields StructFixture.host).
  repeat constructor; simpl; intuition discriminate.
Defined.

(** The tuple provider, on a value whose field names are distinct: the
    summary is [size=<n>] for its [n] fields, and the children are the [n]
    field values in declaration order, keyed by their positions [0], [1],
    ... written in decimal: the same values the struct provider shows. *)
Theorem TupleProvider_children_are_positional
    (h : Host) (ty : gdb_type) (fl : list (string * Value))
    (Hnames : NoDup (map fst fl)) :
  TupleProvider.to_string (TupleProvider.init (VStruct ty fl))
    = Ok ("size=" ++ str_of_int (Z.of_nat (List.length fl)))%string /\
  TupleProvider.children h (TupleProvider.init (VStruct ty fl))
    = Gen (map (fun p => (str_of_int (fst p), snd (snd p))) (enumerate fl))
          None /\
  map snd (yielded (TupleProvider.children h
                      (TupleProvider.init (VStruct ty fl))))
    = map snd (yielded (StructProvider.children h
                          (StructProvider.init (VStruct ty fl)))) /\
  List.length (yielded (TupleProvider.children h
                          (TupleProvider.init (VStruct ty fl))))
    = List.length fl.
Proof.
  assert (Hc : TupleProvider.children h (TupleProvider.init (VStruct ty fl))
               = Gen (map (fun p => (str_of_int (fst p), snd (snd p)))
                          (enumerate fl)) None).
  { unfold TupleProvider.children, TupleProvider.init, TupleProvider.type_fields.
    cbn [TupleProvider.fields TupleProvider.valobj fields].
    unfold enumerate. rewrite enumerate_from_map, gfor_map_list.
    apply gfor_map. intros [i [n v]] Hin. cbn [name fst snd field_of field].
    apply enumerate_from_In in Hin. cbn [snd] in Hin.
    rewrite (assoc_NoDup fl n v Hnames Hin). reflexivity. }
  split.
  { unfold TupleProvider.to_string, TupleProvider.init, TupleProvider.type_fields.
    cbn [TupleProvider.fields fields]. now rewrite length_map, format_size. }
  split; [exact Hc|].
  rewrite Hc, (struct_children h ty fl Hnames). cbn [yielded]. unfold enumerate.
  split.
  - rewrite map_map. cbn [snd].
    rewrite <- (enumerate_from_snd fl 0) at 2. now rewrite map_map.
  - now rewrite length_map, enumerate_from_length.
Qed.

Lemma TupleProvider_pair :
  TupleProvider.to_string (TupleProvider.init StructFixture.tuple)
    = Ok "size=2"%string /\
  TupleProvider.children StructFixture.host
    (TupleProvider.init StructFixture.tuple)
    = Gen [("0", VInt i32 3); ("1", VInt i32 4)]%string None /\
  map snd (yielded (TupleProvider.children StructFixture.host
                      (TupleProvider.init StructFixture.tuple)))
    = map snd (yielded (StructProvider.children StructFixture.host
                          (StructProvider.init StructFixture.tuple))) /\
  List.length (yielded (TupleProvider.children StructFixture.host
                          (TupleProvider.init StructFixture.tuple)))
    = 2%nat.
Proof.
  apply (TupleProvider_children_are_positional StructFixture.host).
  repeat constructor; simpl; intuition discriminate.
Defined.

(** ** Text *)

(** A platform-native string is decoded exactly like an owned string over
    the same byte vector, on either platform: when the inner buffer is the
    vector itself (its type name does not mention [Wtf8Buf]) and when it is
    a [Wtf8Buf] holding the vector one field deeper.  The three summaries
    coincide, failures included. *)
Theorem StdOsString_decodes_like_StdString
    (h : Host) (s unix win wbuf vec : Value) (nu nw : string)
    (Hs : field h s "vec" = Ok vec)
    (Hunix : (i <- field h unix "inner" ;; field h i "inner") = Ok vec)
    (Hnu : type_name_of vec = Ok nu)
    (Hcu : contains "Wtf8Buf" nu = false)
    (Hwin : (i <- field h win "inner" ;; field h i "inner") = Ok wbuf)
    (Hnw : type_name_of wbuf = Ok nw)
    (Hcw : contains "Wtf8Buf" nw = true)
    (Hw0 : field h wbuf ZERO_FIELD = Ok vec) :
  (p <- StdOsStringProvider.init h unix ;; StdOsStringProvider.to_string p)
    = (p <- StdStringProvider.init h s ;; StdStringProvider.to_string p) /\
  (p <- StdOsStringProvider.init h win ;; StdOsStringProvider.to_string p)
    = (p <- StdStringProvider.init h s ;; StdStringProvider.to_string p).
Proof.
  unfold StdOsStringProvider.init, StdStringProvider.init, bind in *.
  rewrite Hs.
  destruct (field h unix "inner") as [iu|]; [|discriminate]. rewrite Hunix, Hnu, Hcu.
  destruct (field h win "inner") as [iw|]; [|discriminate].
  rewrite Hwin, Hnw, Hcw, Hw0.
  destruct (field h vec "len") as [len|]; [|split; reflexivity].
  destruct (int len) as [L|]; [|split; reflexivity].
  destruct (field h vec "buf") as [b|]; [|split; reflexivity].
  destruct (field h b "ptr") as [ptr|]; [|split; reflexivity].
  destruct (unwrap_unique_or_non_null h ptr) as [d|]; split; reflexivity.
Qed.

Lemma StdOsString_decodes_like_StdString_hello :
  (p <- StdOsStringProvider.init StringFixture.host StringFixture.unix_valobj ;;
   StdOsStringProvider.to_string p)
    = Ok (LazyString.mk 9000 5 "utf-8" u8) /\
  (p <- StdOsStringProvider.init StringFixture.host StringFixture.windows_valobj ;;
   StdOsStringProvider.to_string p)
    = Ok (LazyString.mk 9000 5 "utf-8" u8).
Proof.
  exact (StdOsString_decodes_like_StdString StringFixture.host
           StringFixture.string_valobj StringFixture.unix_valobj
           StringFixture.windows_valobj StringFixture.wtf8buf StringFixture.vec
           "alloc::vec::Vec<u8>" "std::sys_common::wtf8::Wtf8Buf"
           eq_refl eq_refl eq_refl eq_refl eq_refl eq_refl eq_refl eq_refl).
Defined.

(** An owned string and a string slice over the same bytes are shown as
    the same text: the UTF-8 lazy string that starts at the data pointer
    (unwrapped, for the owned string) and has the stored length, whatever
    the capacity of the buffer. *)
Theorem StdStr_and_StdString_show_the_stored_bytes
    (h : Host) (s str vec : Value) (L a : Z) (t : gdb_type)
    (Hs : field h s "vec" = Ok vec)
    (Hlen : (x <- field h vec "len" ;; int x) = Ok L)
    (Hptr : (b <- field h vec "buf" ;; p <- field h b "ptr" ;;
             unwrap_unique_or_non_null h p) = Ok (VPtr t a))
    (Hslen : (x <- field h str "length" ;; int x) = Ok L)
    (Hsptr : field h str "data_ptr" = Ok (VPtr t a))
    (HL : 0 <= L) :
  (p <- StdStringProvider.init h s ;; StdStringProvider.to_string p)
    = Ok (LazyString.mk a L "utf-8" t) /\
  (p <- StdStrProvider.init h str ;; StdStrProvider.to_string p)
    = Ok (LazyString.mk a L "utf-8" t).
Proof.
  assert (Hlazy : lazy_string (VPtr t a) "utf-8" L
                  = Ok (LazyString.mk a L "utf-8" t)).
  { unfold lazy_string. destruct (Z.ltb_spec L (-1)); [lia | reflexivity]. }
  unfold StdStringProvider.init, StdStrProvider.init, bind in *.
  rewrite Hs.
  destruct (field h vec "len") as [len|]; [|discriminate]. rewrite Hlen.
  destruct (field h vec "buf") as [b|]; [|discriminate].
  destruct (field h b "ptr") as [ptr|]; [|discriminate]. rewrite Hptr.
  destruct (field h str "length") as [slen|]; [|discriminate].
  rewrite Hslen, Hsptr.
  split; exact Hlazy.
Qed.

Lemma StdStr_and_StdString_hello :
  (p <- StdStringProvider.init StringFixture.host StringFixture.string_valobj ;;
   StdStringProvider.to_string p)
    = Ok (LazyString.mk 9000 5 "utf-8" u8) /\
  (p <- StdStrProvider.init StringFixture.host StringFixture.str_valobj ;;
   StdStrProvider.to_string p)
    = Ok (LazyString.mk 9000 5 "utf-8" u8).
Proof.
  refine (StdStr_and_StdString_show_the_stored_bytes StringFixture.host
            StringFixture.string_valobj StringFixture.str_valobj
            StringFixture.vec 5 9000 u8
            eq_refl eq_refl eq_refl eq_refl eq_refl _).
  lia.
Defined.

(** ** Cells and guards *)

(** A guard borrowed from a borrow-tracking cell shows what the cell shows:
    when the guard's reference points at the cell's payload and its borrow
    reference at the cell's counter, both providers are built, their
    summaries are equal, and their two children carry the same payload and
    the same counter; only the payload key differs ([*value] for the
    guard, [value] for the cell). *)
Theorem StdRef_shows_its_cell
    (h : Host) (cell guard payload counter : Value)
    (fty : gdb_type) (ffl : list (string * Value))
    (tv tb : gdb_type) (av ab : Z)
    (Hvalue : (v <- field h cell "value" ;; field h v "value") = Ok payload)
    (Hflag : field h cell "borrow" = Ok (VStruct fty ffl))
    (Hcounter : (b <- field h (VStruct fty ffl) "value" ;; field h b "value")
                = Ok counter)
    (Hgv : field h guard "value" = Ok (VPtr tv av))
    (Hpv : dereference h (VPtr tv av) = Ok payload)
    (Hgb : (b <- field h guard "borrow" ;; field h b "borrow")
           = Ok (VPtr tb ab))
    (Hpb : dereference h (VPtr tb ab) = Ok (VStruct fty ffl)) :
  exists c g,
    StdRefCellProvider.init h cell = Ok c /\
    StdRefProvider.init h guard = Ok g /\
    StdRefProvider.to_string g = StdRefCellProvider.to_string c /\
    StdRefCellProvider.children c
      = Gen [("value", payload); ("borrow", counter)]%string None /\
    StdRefProvider.children g
      = Gen [("*value", payload); ("borrow", counter)]%string None.
Proof.
  assert (Hthrough : forall nm,
            field h (VPtr tb ab) nm = field h (VStruct fty ffl) nm).
  { intros nm. unfold field at 1. rewrite Hpb. reflexivity. }
  unfold StdRefCellProvider.init, StdRefProvider.init, bind in *.
  destruct (field h cell "value") as [v|]; [|discriminate].
  rewrite Hvalue, Hflag.
  rewrite Hgv, Hpv.
  destruct (field h guard "borrow") as [gb|]; [|discriminate].
  rewrite Hgb, Hthrough.
  destruct (field h (VStruct fty ffl) "value") as [b'|]; [|discriminate].
  rewrite Hcounter.
  do 2 eexists. repeat split.
Qed.

Lemma StdRef_shows_its_cell_fixture :
  exists c g,
    StdRefCellProvider.init (RefCellFixture.host 2)
                            (RefCellFixture.refcell_valobj 2) = Ok c /\
    StdRefProvider.init (RefCellFixture.host 2) RefCellFixture.ref_valobj
      = Ok g /\
    StdRefProvider.to_string g = StdRefCellProvider.to_string c /\
    StdRefCellProvider.children c
      = Gen [("value", VInt i32 5); ("borrow", VInt isize 2)]%string None /\
    StdRefProvider.children g
      = Gen [("*value", VInt i32 5); ("borrow", VInt isize 2)]%string None.
Proof.
  exact (StdRef_shows_its_cell (RefCellFixture.host 2)
           (RefCellFixture.refcell_valobj 2) RefCellFixture.ref_valobj
           (VInt i32 5) (VInt isize 2)
           (TStruct "core::cell::Cell" 8 [isize])
           [("value", RcFixture.unsafe_cell isize 2)]%string
           i32 RefCellFixture.cell_isize_ty 7000 7008
           eq_refl eq_refl eq_refl eq_refl eq_refl eq_refl eq_refl).
Defined.

(** ** Ordered set and map children *)

Lemma gfor_gen_done {A B : Type} (l : list A) (body : Z -> A -> gen B) :
  gfor_gen (Gen l None) body
  = gfor (enumerate l) (fun p => body (fst p) (snd p)).
Proof. unfold gfor_gen. cbn [yielded raised]. apply gseq_pass_r. Qed.

Lemma inorder_true_pairs (t : btree) :
  inorder true t
  = map (fun kv => KeyVal (fst kv) (snd kv)) (inorder_pairs t).
Proof.
  induction t as [ks vs es IH] using btree_induction.
  cbn [inorder inorder_pairs items]. rewrite interleave_map, map_map.
  f_equal. apply map_ext_Forall. exact IH.
Qed.

Lemma inorder_pairs_keys (t : btree) (height : nat) :
  well_formed height t -> map fst (inorder_pairs t) = inorder_keys t.
Proof.
  intros Hwf. rewrite <- (inorder_item_keys true t height Hwf).
  rewrite inorder_true_pairs, map_map. reflexivity.
Qed.

(** The ordered-set provider on a set whose root owns a tree that satisfies
    the search-tree invariant: the children are the stored keys, each
    exactly once, in ascending order, keyed [[0]], [[1]], ... by their
    position in that order; enumeration ends normally. *)
Theorem StdBTreeSet_children_ascending
    (lt : Value -> Value -> Prop)
    (lt_trans : forall x y z, lt x y -> lt y z -> lt x z)
    (h : Host) (valobj boxed : Value) (H : Z) (t : btree)
    (Hnode : (m <- field h valobj "map" ;; r <- field h m "root" ;;
              field h r "node") = Ok boxed)
    (Hheight : (m <- field h valobj "map" ;; r <- field h m "root" ;;
                x <- field h r "height" ;; int x) = Ok H)
    (Hrepr : node_repr h (Z.to_nat H) boxed t)
    (Hsearch : search_tree lt t) :
  StdBTreeSetProvider.children h (StdBTreeSetProvider.init valobj)
    = Gen (map (fun p => ("[" ++ str_of_int (fst p) ++ "]", snd p)%string)
               (enumerate (inorder_keys t))) None /\
  Permutation
    (map snd (yielded (StdBTreeSetProvider.children h
                         (StdBTreeSetProvider.init valobj))))
    (keys_of t) /\
  StronglySorted lt
    (map snd (yielded (StdBTreeSetProvider.children h
                         (StdBTreeSetProvider.init valobj)))).
Proof.
  assert (Hc : StdBTreeSetProvider.children h (StdBTreeSetProvider.init valobj)
               = Gen (map (fun p => ("[" ++ str_of_int (fst p) ++ "]",
                                      snd p)%string)
                          (enumerate (inorder_keys t))) None).
  { unfold StdBTreeSetProvider.children, StdBTreeSetProvider.init, bind in *.
    cbn [StdBTreeSetProvider.valobj].
    read Hnode. cbv beta iota in Hheight.
    read Hnode. cbv beta iota in Hheight.
    rewrite Hnode. cbn [gbind].
    read Hheight. rewrite Hheight. cbn [gbind].
    rewrite (children_of_node_inorder h false _ boxed t Hrepr).
    rewrite gfor_gen_done, inorder_false_keys.
    unfold enumerate. rewrite enumerate_from_map, gfor_map_list.
    apply gfor_map. intros [i k] _. cbn [fst snd].
    rewrite format_brackets. reflexivity. }
  rewrite Hc. cbn [yielded]. rewrite map_map. cbn [snd].
  unfold enumerate. rewrite enumerate_from_snd.
  split; [reflexivity|]. split.
  - apply inorder_keys_perm.
  - now apply inorder_keys_sorted.
Qed.

Lemma StdBTreeSet_children_fixture :
  StdBTreeSetProvider.children BTreeFixture.host
    (StdBTreeSetProvider.init BTreeFixture.set_valobj)
    = Gen (map (fun p => ("[" ++ str_of_int (fst p) ++ "]", snd p)%string)
               (enumerate BTreeFixture.sorted_keys)) None /\
  Permutation
    (map snd (yielded (StdBTreeSetProvider.children BTreeFixture.host
                         (StdBTreeSetProvider.init BTreeFixture.set_valobj))))
    (keys_of BTreeFixture.tree) /\
  StronglySorted BTreeFixture.key_lt
    (map snd (yielded (StdBTreeSetProvider.children BTreeFixture.host
                         (StdBTreeSetProvider.init BTreeFixture.set_valobj)))).
Proof.
  exact (StdBTreeSet_children_ascending BTreeFixture.key_lt key_lt_trans
           BTreeFixture.host BTreeFixture.set_valobj (BTreeFixture.boxed 100)
           2 BTreeFixture.tree eq_refl eq_refl
           fixture_node_repr fixture_search_tree).
Defined.

Lemma flat_map_length_const {A B : Type} (f : A -> list B) (n : nat)
    (l : list A) :
  (forall x, List.length (f x) = n) ->
  List.length (flat_map f l) = (n * List.length l)%nat.
Proof.
  intros Hf. induction l as [|x l IH]; [simpl; lia|].
  change (flat_map f (x :: l)) with (f x ++ flat_map f l)%list.
  rewrite length_app, IH, Hf. cbn [List.length]. nia.
Qed.

(** The ordered-map provider on a map whose root owns a tree: for the
    [i]-th entry in key order it yields [key<i>] with the key and then
    [val<i>] with the value stored beside that key, so twice as many
    children as entries; the keys are those the set provider shows. *)
Theorem StdBTreeMap_children_alternate
    (h : Host) (valobj boxed : Value) (H : Z) (t : btree)
    (Hnode : (r <- field h valobj "root" ;; field h r "node") = Ok boxed)
    (Hheight : (r <- field h valobj "root" ;; x <- field h r "height" ;;
                int x) = Ok H)
    (Hrepr : node_repr h (Z.to_nat H) boxed t) :
  StdBTreeMapProvider.children h (StdBTreeMapProvider.init valobj)
    = Gen (flat_map (fun p => entries true (fst p) (fst (snd p)) (snd (snd p)))
                    (enumerate (inorder_pairs t))) None /\
  map fst (inorder_pairs t) = inorder_keys t /\
  List.length (yielded (StdBTreeMapProvider.children h
                          (StdBTreeMapProvider.init valobj)))
    = (2 * List.length (inorder_keys t))%nat.
Proof.
  assert (Hkeys : map fst (inorder_pairs t) = inorder_keys t).
  { apply (inorder_pairs_keys t (Z.to_nat H)).
    exact (node_repr_well_formed h _ boxed t Hrepr). }
  assert (Hc : StdBTreeMapProvider.children h (StdBTreeMapProvider.init valobj)
               = Gen (flat_map (fun p => entries true (fst p) (fst (snd p))
                                                 (snd (snd p)))
                               (enumerate (inorder_pairs t))) None).
  { unfold StdBTreeMapProvider.children, StdBTreeMapProvider.init, bind in *.
    cbn [StdBTreeMapProvider.valobj].
    read Hnode. cbv beta iota in Hheight.
    rewrite Hnode. cbn [gbind].
    read Hheight. rewrite Hheight. cbn [gbind].
    rewrite (children_of_node_inorder h true _ boxed t Hrepr).
    rewrite gfor_gen_done, inorder_true_pairs.
    unfold enumerate. rewrite enumerate_from_map, gfor_map_list.
    apply gfor_flat_map. intros [i [k v]] _. cbn [fst snd].
    rewrite format_key, format_val. reflexivity. }
  split; [exact Hc|]. split; [exact Hkeys|].
  rewrite Hc. cbn [yielded]. rewrite <- Hkeys, length_map.
  unfold enumerate. rewrite <- (enumerate_from_length (inorder_pairs t) 0).
  apply flat_map_length_const. reflexivity.
Qed.

Lemma StdBTreeMap_children_fixture :
  StdBTreeMapProvider.children BTreeFixture.host
    (StdBTreeMapProvider.init BTreeFixture.map_valobj)
    = Gen (flat_map (fun p => entries true (fst p) (fst (snd p)) (snd (snd p)))
                    (enumerate (inorder_pairs BTreeFixture.tree))) None /\
  map fst (inorder_pairs BTreeFixture.tree) = BTreeFixture.sorted_keys /\
  List.length (yielded (StdBTreeMapProvider.children BTreeFixture.host
                          (StdBTreeMapProvider.init BTreeFixture.map_valobj)))
    = 16%nat.
Proof.
  exact (StdBTreeMap_children_alternate BTreeFixture.host
           BTreeFixture.map_valobj (BTreeFixture.boxed 100) 2
           BTreeFixture.tree eq_refl eq_refl fixture_node_repr).
Defined.

(** The walk needs the internal-node type only above the leaves.  At
    height 0 its result does not depend on the host's type table at all;
    at any height above 0, when the name obtained by replacing [LeafNode]
    with [InternalNode] is unknown to the host, the walk raises before it
    yields anything. *)
Theorem children_of_node_internal_type_lookup
    (mem : Z -> string -> option Value)
    (tys tys' : string -> option gdb_type)
    (boxed : Value) (lty : gdb_type) (a : Z)
    (Hptr : (p <- field (mkHost mem tys) boxed "ptr" ;;
             q <- field (mkHost mem tys) p "pointer" ;;
             field (mkHost mem tys) q ZERO_FIELD) = Ok (VPtr lty a))
    (Hunknown : tys (replace "LeafNode" "InternalNode" (type_str lty)) = None) :
  (forall w,
     children_of_node (mkHost mem tys) boxed 0 w
     = children_of_node (mkHost mem tys') boxed 0 w) /\
  (forall height w,
     children_of_node (mkHost mem tys) boxed (S height) w
     = Gen [] (Some GdbError)).
Proof.
  split; [reflexivity|].
  intros height w. rewrite children_of_node_unfold.
  unfold bind in Hptr.
  read Hptr. read Hptr. rewrite Hptr. cbn [gbind].
  unfold cast_to_internal, lookup_type. cbn [type_of target bind types].
  rewrite Hunknown. reflexivity.
Qed.

(** A leaf of the fixture on a host that knows no node type at all. *)
Lemma children_of_node_internal_type_lookup_fixture :
  (forall w,
     children_of_node (mkHost (memory BTreeFixture.host) (type_table []))
                      (BTreeFixture.boxed 700) 0 w
     = children_of_node BTreeFixture.host (BTreeFixture.boxed 700) 0 w) /\
  (forall height w,
     children_of_node (mkHost (memory BTreeFixture.host) (type_table []))
                      (BTreeFixture.boxed 700) (S height) w
     = Gen [] (Some GdbError)).
Proof.
  exact (children_of_node_internal_type_lookup (memory BTreeFixture.host)
           (type_table []) (types BTreeFixture.host) (BTreeFixture.boxed 700)
           BTreeFixture.leaf_ty 700 eq_refl eq_refl).
Defined.

(** ** Ring buffer: bounds and the unwrapped case *)

Lemma StdVecDeque_init_size (h : Host) (valobj : Value)
    (self : StdVecDequeProvider.t) :
  StdVecDequeProvider.init h valobj = Ok self ->
  StdVecDequeProvider.size self
  = if StdVecDequeProvider.head self >=? StdVecDequeProvider.tail self
    then StdVecDequeProvider.head self - StdVecDequeProvider.tail self
    else StdVecDequeProvider.cap self + StdVecDequeProvider.head self
         - StdVecDequeProvider.tail self.
Proof.
  unfold StdVecDequeProvider.init, bind. intros H.
  repeat match type of H with
         | match ?x with Ok _ => _ | Raise _ => _ end = Ok _ =>
             destruct x; [|discriminate H]
         end.
  now injection H as <-.
Qed.

Lemma mod_below_twice (x C : Z) :
  0 <= x < 2 * C -> x mod C = if x <? C then x else x - C.
Proof.
  intros H. destruct (Z.ltb_spec x C).
  - apply Z.mod_small. lia.
  - symmetry. apply (Z.mod_unique x C 1 (x - C)); lia.
Qed.

(** A ring buffer whose stored head and tail are valid positions reads
    only inside its buffer and shows no element twice: the logical size is
    in [[0, capacity)], every slot that is read lies in [[0, capacity)],
    and different positions read different slots. *)
Theorem StdVecDeque_slots_in_bounds
    (h : Host) (valobj : Value) (self : StdVecDequeProvider.t)
    (Hinit : StdVecDequeProvider.init h valobj = Ok self)
    (Hhead : 0 <= StdVecDequeProvider.head self < StdVecDequeProvider.cap self)
    (Htail : 0 <= StdVecDequeProvider.tail self < StdVecDequeProvider.cap self) :
  0 <= StdVecDequeProvider.size self < StdVecDequeProvider.cap self /\
  (forall i, 0 <= i < StdVecDequeProvider.size self ->
     exists k, StdVecDequeProvider.slot self i = Ok k /\
               0 <= k < StdVecDequeProvider.cap self) /\
  (forall i j k,
     0 <= i < StdVecDequeProvider.size self ->
     0 <= j < StdVecDequeProvider.size self ->
     StdVecDequeProvider.slot self i = Ok k ->
     StdVecDequeProvider.slot self j = Ok k ->
     i = j).
Proof.
  pose proof (StdVecDeque_init_size h valobj self Hinit) as Hsize.
  set (hd := StdVecDequeProvider.head self) in *.
  set (tl := StdVecDequeProvider.tail self) in *.
  set (C := StdVecDequeProvider.cap self) in *.
  assert (Hsz : 0 <= StdVecDequeProvider.size self < C).
  { rewrite Hsize. destruct (Z.geb_spec hd tl); lia. }
  assert (Hslot : forall i, 0 <= i < StdVecDequeProvider.size self ->
            StdVecDequeProvider.slot self i
            = Ok (if tl + i <? C then tl + i else tl + i - C)).
  { intros i Hi. unfold StdVecDequeProvider.slot, py_mod. fold tl C.
    destruct (Z.eqb_spec C 0); [lia|].
    now rewrite mod_below_twice by lia. }
  split; [exact Hsz|]. split.
  - intros i Hi. eexists. split; [now apply Hslot|].
    destruct (Z.ltb_spec (tl + i) C); lia.
  - intros i j k Hi Hj Hki Hkj.
    rewrite (Hslot i Hi) in Hki. rewrite (Hslot j Hj) in Hkj.
    injection Hki as Hki. injection Hkj as Hkj.
    rewrite Hsize in Hi, Hj.
    destruct (Z.ltb_spec (tl + i) C), (Z.ltb_spec (tl + j) C),
             (Z.geb_spec hd tl); lia.
Qed.

Lemma StdVecDeque_slots_in_bounds_fixture :
  exists self,
    StdVecDequeProvider.init DequeFixture.host DequeFixture.valobj = Ok self /\
    0 <= StdVecDequeProvider.size self < StdVecDequeProvider.cap self /\
    (forall i, 0 <= i < StdVecDequeProvider.size self ->
       exists k, StdVecDequeProvider.slot self i = Ok k /\
                 0 <= k < StdVecDequeProvider.cap self) /\
    (forall i j k,
       0 <= i < StdVecDequeProvider.size self ->
       0 <= j < StdVecDequeProvider.size self ->
       StdVecDequeProvider.slot self i = Ok k ->
       StdVecDequeProvider.slot self j = Ok k ->
       i = j).
Proof.
  eexists. split; [reflexivity|].
  apply (StdVecDeque_slots_in_bounds DequeFixture.host DequeFixture.valobj).
  - reflexivity.
  - simpl. lia.
  - simpl. lia.
Defined.

(** A ring buffer that has not wrapped around ([tail = 0], [head] within
    the capacity) is shown exactly like a growable array of length [head]
    over the same buffer: same size, same summary, same children, whatever
    the memory holds. *)
Theorem StdVecDeque_unwrapped_like_StdVec
    (h : Host) (dv vv : Value)
    (dq : StdVecDequeProvider.t) (v : StdVecProvider.t)
    (Hdq : StdVecDequeProvider.init h dv = Ok dq)
    (Hv : StdVecProvider.init h vv = Ok v)
    (Htail : StdVecDequeProvider.tail dq = 0)
    (Hhead : 0 <= StdVecDequeProvider.head dq <= StdVecDequeProvider.cap dq)
    (Hlen : StdVecProvider.length v = StdVecDequeProvider.head dq)
    (Hptr : StdVecProvider.data_ptr v = StdVecDequeProvider.data_ptr dq) :
  StdVecDequeProvider.size dq = StdVecProvider.length v /\
  StdVecDequeProvider.to_string dq = StdVecProvider.to_string v /\
  StdVecDequeProvider.children h dq = StdVecProvider.children h v.
Proof.
  pose proof (StdVecDeque_init_size h dv dq Hdq) as Hsize.
  rewrite Htail in Hsize.
  destruct (Z.geb_spec (StdVecDequeProvider.head dq) 0) as [_ | Hneg];
    [|lia].
  rewrite Z.sub_0_r in Hsize.
  assert (Heq : StdVecDequeProvider.size dq = StdVecProvider.length v)
    by congruence.
  split; [exact Heq|]. split.
  - unfold StdVecDequeProvider.to_string, StdVecProvider.to_string.
    now rewrite Heq.
  - unfold StdVecDequeProvider.children, StdVecProvider.children.
    rewrite Heq, Hptr. apply gfor_ext_in. intros i Hi.
    apply xrange_In in Hi.
    unfold StdVecDequeProvider.slot, py_mod. rewrite Htail.
    destruct (Z.eqb_spec (StdVecDequeProvider.cap dq) 0); [lia|].
    rewrite Z.add_0_l, Z.mod_small by lia. reflexivity.
Qed.

Lemma StdVecDeque_unwrapped_like_StdVec_fixture :
  exists dq v,
    StdVecDequeProvider.init VecFixture.host UnwrappedDequeFixture.valobj
      = Ok dq /\
    StdVecProvider.init VecFixture.host VecFixture.valobj = Ok v /\
    StdVecDequeProvider.size dq = StdVecProvider.length v /\
    StdVecDequeProvider.to_string dq = StdVecProvider.to_string v /\
    StdVecDequeProvider.children VecFixture.host dq
      = StdVecProvider.children VecFixture.host v.
Proof.
  do 2 eexists. split; [reflexivity|]. split; [reflexivity|].
  apply (StdVecDeque_unwrapped_like_StdVec VecFixture.host
           UnwrappedDequeFixture.valobj VecFixture.valobj);
    try reflexivity.
  simpl. lia.
Defined.

(** ** Enum: a discriminant that names no variant *)

(** When the enum has a tag and the tag names a slot at or beyond the end
    of the sub-field list, the constructor raises [IndexError]: no provider
    is built, so nothing wrong is displayed. *)
Theorem EnumProvider_discriminant_out_of_range
    (h : Host) (valobj content tag : Value) (f0 ft : Field) (d : Z)
    (Hf0 : py_index (fields valobj) 0 = Ok f0)
    (Hcontent : field_of h valobj f0 = Ok content)
    (Hlen : (2 <= List.length (fields content))%nat)
    (Hft : nth_error (fields content) 0 = Some ft)
    (Htag : field_of h content ft = Ok tag)
    (Hd : int tag = Ok d)
    (Hrange : Z.of_nat (List.length (fields content)) <= d + 1) :
  EnumProvider.init h valobj = Raise IndexError.
Proof.
  unfold EnumProvider.init. rewrite Hf0. cbn [bind]. rewrite Hcontent.
  cbn [bind].
  destruct (Nat.eqb_spec (List.length (fields content)) 0); [lia|].
  cbn [negb]. unfold EnumProvider.discriminant.
  destruct (Nat.eqb_spec (List.length (fields content)) 1); [lia|].
  rewrite (py_index_nth (fields content) 0 ft) by (lia || exact Hft).
  cbn [bind]. rewrite Htag. cbn [bind]. rewrite Hd. cbn [bind].
  unfold py_index at 1.
  destruct (Z.ltb_spec (d + 1) 0); [lia|].
  destruct (Z.ltb_spec (d + 1) 0); [lia|].
  replace (nth_error (fields content) (Z.to_nat (d + 1))) with (@None Field);
    [reflexivity|].
  symmetry. apply nth_error_None. lia.
Qed.

Lemma EnumProvider_discriminant_out_of_range_fixture :
  EnumProvider.init EnumFixture.host BadEnumFixture.valobj = Raise IndexError.
Proof.
  refine (EnumProvider_discriminant_out_of_range EnumFixture.host
            BadEnumFixture.valobj BadEnumFixture.content (VInt u8 2)
            (mkField "__enum") (mkField "RUST$ENUM$DISR") 2
            eq_refl eq_refl _ eq_refl eq_refl eq_refl _).
  - simpl. lia.
  - simpl. lia.
Defined.

(** ** Hash tables: what the scan covers, alignment, inconsistent sizes *)

Lemma for_acc_scan_subset (test : Z -> result bool) (l acc r : list Z) :
  for_acc l acc (fun valid_indices idx =>
    b <- test idx ;;
    Ok (if b then (valid_indices ++ [idx])%list else valid_indices))
  = Ok r ->
  forall x, In x r -> In x acc \/ In x l.
Proof.
  revert acc. induction l as [|y l IH]; intros acc H x Hx; simpl in H.
  - injection H as <-. now left.
  - destruct (test y) as [b|]; [|discriminate]. cbn [bind] in H.
    destruct (IH _ H x Hx) as [Hacc | Hl]; [|right; now right].
    destruct b; [|now left].
    apply in_app_or in Hacc as [Hacc | [<- | []]];
      [now left | right; now left].
Qed.

Lemma StdOldHashMap_init_scan
    (h : Host) (valobj : Value) (show_values : bool)
    (self : StdOldHashMapProvider.t) :
  StdOldHashMapProvider.init h valobj show_values = Ok self ->
  StdOldHashMapProvider.modulo self
    = 2 ^ sizeof (StdOldHashMapProvider.hash_uint_type self) /\
  StdOldHashMapProvider.modulo self <> 0 /\
  StdOldHashMapProvider.capacity self
    = (StdOldHashMapProvider.capacity_mask self + 1)
      mod StdOldHashMapProvider.modulo self /\
  for_acc (xrange 0 (StdOldHashMapProvider.capacity self)) []
    (fun valid_indices idx =>
       b <- StdOldHashMapProvider.occupied h
              (StdOldHashMapProvider.data_ptr self)
              (StdOldHashMapProvider.hash_uint_type self) idx ;;
       Ok (if b then (valid_indices ++ [idx])%list else valid_indices))
  = Ok (StdOldHashMapProvider.valid_indices self).
Proof.
  unfold StdOldHashMapProvider.init, bind. intros H.
  repeat match type of H with
         | match ?x with Ok _ => _ | Raise _ => _ end = Ok _ =>
             destruct x eqn:?; [|discriminate H]
         end.
  injection H as <-. cbn.
  match goal with
  | E : py_mod _ ?m = Ok _ |- _ => unfold py_mod in E;
      destruct (Z.eqb_spec m 0); [discriminate E|];
      injection E as <-
  end.
  repeat split; assumption.
Qed.

(** What the legacy constructor scans.  The modulus is two to the power of
    the size in bytes of the [hashes] field; the derived capacity is
    [capacity_mask + 1] reduced by it, so it lies in [[0, modulus)] and
    equals [capacity_mask + 1] exactly when that is below the modulus; and
    every index in the occupied-index list is below the derived capacity. *)
Theorem StdOldHashMap_scan_is_bounded_by_modulus
    (h : Host) (valobj : Value) (show_values : bool)
    (self : StdOldHashMapProvider.t)
    (Hinit : StdOldHashMapProvider.init h valobj show_values = Ok self) :
  StdOldHashMapProvider.modulo self
    = 2 ^ sizeof (StdOldHashMapProvider.hash_uint_type self) /\
  0 <= StdOldHashMapProvider.capacity self
    < StdOldHashMapProvider.modulo self /\
  (StdOldHashMapProvider.capacity self
     = StdOldHashMapProvider.capacity_mask self + 1 <->
   0 <= StdOldHashMapProvider.capacity_mask self + 1
     < StdOldHashMapProvider.modulo self) /\
  (forall idx, In idx (StdOldHashMapProvider.valid_indices self) ->
     0 <= idx < StdOldHashMapProvider.capacity self).
Proof.
  destruct (StdOldHashMap_init_scan h valobj show_values self Hinit)
    as (Hmod & Hnz & Hcap & Hscan).
  assert (Hpos : 0 < StdOldHashMapProvider.modulo self).
  { assert (0 <= StdOldHashMapProvider.modulo self)
      by (rewrite Hmod; apply Z.pow_nonneg; lia).
    lia. }
  assert (Hbound : 0 <= StdOldHashMapProvider.capacity self
                   < StdOldHashMapProvider.modulo self)
    by (rewrite Hcap; now apply Z.mod_pos_bound).
  split; [exact Hmod|]. split; [exact Hbound|]. split.
  - split.
    + intros Heq. rewrite <- Heq. exact Hbound.
    + intros Hsmall. rewrite Hcap. now apply Z.mod_small.
  - intros idx Hidx.
    destruct (for_acc_scan_subset _ _ _ _ Hscan idx Hidx) as [[] | Hin].
    apply xrange_In in Hin. lia.
Qed.

Lemma StdOldHashMap_scan_is_bounded_fixture :
  exists self,
    StdOldHashMapProvider.init OldHashFixture.small_host
      OldHashFixture.small_valobj false = Ok self /\
    StdOldHashMapProvider.modulo self = 256 /\
    0 <= StdOldHashMapProvider.capacity self
      < StdOldHashMapProvider.modulo self /\
    (StdOldHashMapProvider.capacity self
       = StdOldHashMapProvider.capacity_mask self + 1 <->
     0 <= StdOldHashMapProvider.capacity_mask self + 1
       < StdOldHashMapProvider.modulo self) /\
    (forall idx, In idx (StdOldHashMapProvider.valid_indices self) ->
       0 <= idx < StdOldHashMapProvider.capacity self).
Proof.
  eexists. split; [reflexivity|].
  exact (StdOldHashMap_scan_is_bounded_by_modulus OldHashFixture.small_host
           OldHashFixture.small_valobj false _ eq_refl).
Defined.

Lemma land_lnot_low_bits (b k : Z) :
  0 <= k -> Z.land b (Z.lnot (2 ^ k - 1)) = 2 ^ k * (b / 2 ^ k).
Proof.
  intros Hk. rewrite <- Z.ldiff_land.
  replace (2 ^ k - 1) with (Z.ones k) by (rewrite Z.ones_equiv; lia).
  rewrite Z.ldiff_ones_r, Z.shiftl_mul_pow2, Z.shiftr_div_pow2 by exact Hk.
  apply Z.mul_comm.
Qed.

(** The pair array of a legacy table starts at the size of the hash array
    rounded up to the alignment of a pair: when the pair size is a power
    of two and the rounding stays within the modulus, the offset is a
    multiple of the pair size, not below the hash array's size and less
    than one pair size above it. *)
Theorem StdOldHashMap_pairs_offset_aligned
    (self : StdOldHashMapProvider.t) (k : Z)
    (Hk : 0 <= k)
    (Halign : StdOldHashMapProvider.pair_type_size self = 2 ^ k)
    (Hhashes : 0 <= StdOldHashMapProvider.hash_uint_size self
                    * StdOldHashMapProvider.capacity self)
    (Hfits : StdOldHashMapProvider.hash_uint_size self
             * StdOldHashMapProvider.capacity self + 2 ^ k
             <= StdOldHashMapProvider.modulo self) :
  exists off,
    StdOldHashMapProvider.pairs_offset self = Ok off /\
    StdOldHashMapProvider.hash_uint_size self
      * StdOldHashMapProvider.capacity self <= off
      < StdOldHashMapProvider.hash_uint_size self
        * StdOldHashMapProvider.capacity self + 2 ^ k /\
    off mod 2 ^ k = 0.
Proof.
  set (H := StdOldHashMapProvider.hash_uint_size self
            * StdOldHashMapProvider.capacity self) in *.
  set (M := StdOldHashMapProvider.modulo self) in *.
  set (A := 2 ^ k) in *.
  assert (HA : 0 < A) by (apply Z.pow_pos_nonneg; lia).
  assert (HM : M <> 0) by lia.
  set (d := A * ((H + A - 1) / A)).
  assert (Hd : H <= d < H + A).
  { unfold d. pose proof (Z.div_mod (H + A - 1) A ltac:(lia)) as E.
    pose proof (Z.mod_pos_bound (H + A - 1) A HA). lia. }
  exists d. split.
  - unfold StdOldHashMapProvider.pairs_offset, py_mod.
    fold H M. rewrite Halign. fold A.
    destruct (Z.eqb_spec M 0); [contradiction|]. cbn [bind].
    rewrite (Zminus_mod_idemp_l (H + A) 1 M).
    rewrite (Z.mod_small (H + A - 1) M) by lia.
    rewrite (Z.mod_small (A - 1) M) by lia.
    change (A - 1) with (2 ^ k - 1).
    rewrite land_lnot_low_bits by exact Hk.
    change (2 ^ k * ((H + A - 1) / 2 ^ k)) with d.
    rewrite (Z.mod_small d M) by lia.
    rewrite (Z.mod_small (d - H) M) by lia.
    f_equal. lia.
  - split; [exact Hd|].
    unfold d. rewrite Z.mul_comm. apply Z.mod_mul. lia.
Qed.

(** Four 8-byte hash words and 8-byte pairs: the pairs start 32 bytes in. *)
Lemma StdOldHashMap_pairs_offset_fixture :
  StdOldHashMapProvider.init OldHashFixture.small_host
    OldHashFixture.small_valobj true = Ok OldHashProviderFixture.self /\
  exists off,
    StdOldHashMapProvider.pairs_offset OldHashProviderFixture.self = Ok off /\
    8 * 4 <= off < 8 * 4 + 2 ^ 3 /\
    off mod 2 ^ 3 = 0.
Proof.
  split; [reflexivity|].
  apply (StdOldHashMap_pairs_offset_aligned OldHashProviderFixture.self 3).
  - lia.
  - reflexivity.
  - simpl. lia.
  - simpl. lia.
Defined.

Lemma gfor_app {I A : Type} (l1 l2 : list I) (body : I -> gen A) :
  gfor (l1 ++ l2) body = gseq (gfor l1 body) (gfor l2 body).
Proof.
  induction l1 as [|x l1 IH]; simpl.
  - unfold gseq, gpass. simpl. now destruct (gfor l2 body).
  - rewrite IH. unfold gseq.
    destruct (body x) as [y1 [e1|]]; simpl; [reflexivity|].
    destruct (gfor l1 body) as [y2 [e2|]]; simpl; [reflexivity|].
    now rewrite app_assoc.
Qed.

Lemma map_seq_from {A : Type} (f : nat -> A) (s len : nat) :
  map f (seq s len) = map (fun k => f (s + k)%nat) (seq 0 len).
Proof.
  revert s. induction len as [|len IH]; intros s; [reflexivity|].
  cbn [seq map]. rewrite Nat.add_0_r. f_equal.
  rewrite (IH (S s)), <- seq_shift, map_map. apply map_ext.
  intros k. f_equal. lia.
Qed.

Lemma xrange_split (n hi : Z) :
  0 <= n < hi -> xrange 0 hi = (xrange 0 n ++ n :: xrange (n + 1) hi)%list.
Proof.
  intros H. unfold xrange.
  replace (Z.to_nat (hi - 0))
    with (Z.to_nat (n - 0) + S (Z.to_nat (hi - (n + 1))))%nat by lia.
  rewrite seq_app, map_app. f_equal.
  rewrite map_seq_from. cbn [seq map]. f_equal; [lia|].
  rewrite <- seq_shift, map_map. apply map_ext. intros j. lia.
Qed.

(** A current-layout table whose stored size exceeds the number of
    occupied buckets found at construction: the children are the entries
    of all the occupied buckets, in order, and then enumeration raises
    [IndexError] instead of ending or reading any other bucket. *)
Theorem StdHashMap_size_beyond_occupied
    (h : Host) (self : StdHashMapProvider.t) (keys vals : Z -> Value)
    (Helems : forall idx, In idx (StdHashMapProvider.valid_indices self) ->
       exists element,
         (p <- ptr_add (StdHashMapProvider.data_ptr self) idx ;;
          dereference h p) = Ok element /\
         field h element ZERO_FIELD = Ok (keys idx) /\
         field h element FIRST_FIELD = Ok (vals idx))
    (Hsize : Z.of_nat (List.length (StdHashMapProvider.valid_indices self))
             < StdHashMapProvider.size self) :
  StdHashMapProvider.children h self
  = Gen (flat_map (fun p => entries (StdHashMapProvider.show_values self)
                                    (fst p) (keys (snd p)) (vals (snd p)))
                  (enumerate (StdHashMapProvider.valid_indices self)))
        (Some IndexError).
Proof.
  unfold StdHashMapProvider.children.
  set (vi := StdHashMapProvider.valid_indices self) in *.
  set (n := Z.of_nat (List.length vi)) in *.
  rewrite (xrange_split n (StdHashMapProvider.size self)) by lia.
  rewrite gfor_app. unfold n at 1.
  rewrite (gfor_indexed vi (fun index idx =>
             p <~ ptr_add (StdHashMapProvider.data_ptr self) idx ;;
             element <~ dereference h p ;;
             table_entry h (StdHashMapProvider.show_values self) index element)).
  rewrite (gfor_flat_map _ _
             (fun p => entries (StdHashMapProvider.show_values self)
                               (fst p) (keys (snd p)) (vals (snd p)))).
  - cbn [gfor]. unfold py_index at 1.
    destruct (Z.ltb_spec n 0); [lia|].
    destruct (Z.ltb_spec n 0); [lia|].
    replace (nth_error vi (Z.to_nat n)) with (@None Z)
      by (symmetry; apply nth_error_None; lia).
    cbn [gbind]. unfold gseq. cbn [raised yielded].
    now rewrite app_nil_r.
  - intros [i idx] Hin. cbn [fst snd].
    apply enumerate_from_In in Hin. cbn [snd] in Hin.
    destruct (Helems idx Hin) as (element & He & Hk & Hv).
    unfold bind in He.
    destruct (ptr_add (StdHashMapProvider.data_ptr self) idx) as [p|];
      [|discriminate].
    cbn [gbind]. rewrite He. cbn [gbind].
    now apply table_entry_ok.
Qed.

(** Stored size 3, two occupied buckets: both entries, then [IndexError]. *)
Lemma StdHashMap_size_beyond_occupied_fixture :
  StdHashMapProvider.children HashFixture.host InconsistentHashFixture.self
  = Gen [("key0", VInt i32 1); ("val0", VInt i32 100);
         ("key1", VInt i32 4); ("val1", VInt i32 400)]%string
        (Some IndexError).
Proof.
  refine (StdHashMap_size_beyond_occupied HashFixture.host
            InconsistentHashFixture.self
            (fun idx => VInt i32 (idx + 1))
            (fun idx => VInt i32 (100 * (idx + 1))) _ _).
  - intros idx [<- | [<- | []]]; eexists; repeat split.
  - simpl. lia.
Defined.

(** ** The shape of what the walk yields *)

(** Whatever the memory holds, and even when the walk fails part-way,
    every item it has yielded is a bare key when values are not wanted and
    a key/value pair when they are: the two kinds are never mixed. *)
Theorem children_of_node_items_match_mode (h : Host) :
  forall (height : nat) (boxed : Value) (want_values : bool),
    Forall (fun c => if want_values
                     then exists k v, c = KeyVal k v
                     else exists k, c = Key k)
           (yielded (children_of_node h boxed height want_values)).
Proof.
  induction height as [|height IH]; intros boxed w;
    rewrite children_of_node_unfold;
    repeat (apply yielded_gbind; intros ?);
    apply yielded_gfor; intros i; apply yielded_gseq;
    repeat (apply yielded_gbind; intros ?);
    try apply IH; try (constructor; eauto; fail).
  - destruct (i <? _), w; repeat (apply yielded_gbind; intros ?);
      repeat constructor; eauto.
  - destruct (i <? _), w; repeat (apply yielded_gbind; intros ?);
      repeat constructor; eauto.
Qed.

(** ** Legacy hash table: a consistent table, from its memory *)

Lemma round_down_mod (x A c : Z) :
  0 < A -> 0 < c ->
  A * ((x mod (A * c)) / A) = (A * (x / A)) mod (A * c).
Proof.
  intros HA Hc.
  assert (HM : 0 < A * c) by nia.
  pose proof (Z.div_mod x (A * c) ltac:(lia)) as Hx.
  pose proof (Z.mod_pos_bound x (A * c) HM) as Hr.
  set (r := x mod (A * c)) in *. set (q := x / (A * c)) in *.
  assert (Hdiv : x / A = c * q + r / A).
  { rewrite Hx at 1. replace (A * c * q + r) with (c * q * A + r) by ring.
    apply Z.div_add_l. lia. }
  rewrite Hdiv.
  pose proof (Z.mul_div_le r A HA).
  pose proof (Z.div_pos r A ltac:(lia) HA).
  apply (Z.mod_unique _ _ q); [left; nia | ring].
Qed.

(** The offset of the pair array, computed with the wrap-around modulus,
    is the size of the hash array rounded up to the pair size, whenever the
    pair size is a power of two that divides the modulus. *)
Lemma pairs_offset_round_up (self : StdOldHashMapProvider.t) (k m : Z) :
  0 <= k <= m ->
  StdOldHashMapProvider.modulo self = 2 ^ m ->
  StdOldHashMapProvider.pair_type_size self = 2 ^ k ->
  0 <= StdOldHashMapProvider.hash_uint_size self
       * StdOldHashMapProvider.capacity self ->
  StdOldHashMapProvider.pairs_offset self
  = Ok (2 ^ k * ((StdOldHashMapProvider.hash_uint_size self
                  * StdOldHashMapProvider.capacity self + 2 ^ k - 1) / 2 ^ k)).
Proof.
  intros Hkm Hmod Halign Hhashes.
  set (H := StdOldHashMapProvider.hash_uint_size self
            * StdOldHashMapProvider.capacity self) in *.
  set (A := 2 ^ k) in *.
  set (c := 2 ^ (m - k)).
  assert (HA : 0 < A) by (apply Z.pow_pos_nonneg; lia).
  assert (Hc : 0 < c) by (apply Z.pow_pos_nonneg; lia).
  assert (HM : StdOldHashMapProvider.modulo self = A * c).
  { rewrite Hmod. unfold A, c. rewrite <- Z.pow_add_r by lia.
    f_equal. lia. }
  set (d := A * ((H + A - 1) / A)).
  assert (Hd : H <= d < H + A).
  { unfold d. pose proof (Z.div_mod (H + A - 1) A ltac:(lia)) as E.
    pose proof (Z.mod_pos_bound (H + A - 1) A HA). lia. }
  unfold StdOldHashMapProvider.pairs_offset, py_mod.
  fold H. rewrite Halign, HM. fold A.
  destruct (Z.eqb_spec (A * c) 0); [nia|]. cbn [bind].
  rewrite (Zminus_mod_idemp_l (H + A) 1 (A * c)).
  rewrite (Z.mod_small (A - 1) (A * c)) by nia.
  change (A - 1) with (2 ^ k - 1).
  rewrite land_lnot_low_bits by lia. fold A.
  rewrite (round_down_mod (H + A - 1) A c HA Hc). fold d.
  rewrite Z.mod_mod by lia.
  rewrite (Zminus_mod_idemp_l d H (A * c)).
  rewrite (Z.mod_small (d - H) (A * c)) by nia.
  f_equal. lia.
Qed.

(** The legacy provider on a consistent table that its scan covers, read
    from the table's memory.  The table has [capacity_mask + 1 = 2^n]
    buckets, fewer than the modulus; its [hashes] pointer is untagged and
    points at one hash word per bucket; the pairs, whose size is a power of
    two dividing the modulus, follow the hash words at the next multiple
    of the pair size; the stored size is the number of buckets with a
    non-zero hash word.  Then the constructor succeeds, the derived
    capacity is [capacity_mask + 1], the occupied-index list is exactly the
    buckets with a non-zero hash word, in ascending order, its length is
    the stored size, and the children are the entries of those buckets. *)
Theorem StdOldHashMap_children_occupied
    (h : Host) (valobj table hashes : Value) (show_values : bool)
    (hty dty pty : gdb_type) (a mask size n k : Z)
    (hash_words : Z -> Z) (elems keys vals : Z -> Value)
    (Htable : field h valobj "table" = Ok table)
    (Hsize : (x <- field h table "size" ;; int x) = Ok size)
    (Hhashes : field h table "hashes" = Ok hashes)
    (Hhty : type_of hashes = Ok hty)
    (Hdata : (z <- field h hashes ZERO_FIELD ;; field h z "pointer")
             = Ok (VPtr dty a))
    (Huntagged : Z.land a (Z.lnot 1) = a)
    (Hmask : (x <- field h table "capacity_mask" ;; int x) = Ok mask)
    (Hmarker : (m <- field h table "marker" ;; mt <- type_of m ;;
                template_argument mt 0) = Ok pty)
    (Hn : 0 <= n)
    (Hpow : mask + 1 = 2 ^ n)
    (Hnowrap : mask + 1 < 2 ^ sizeof hty)
    (Hk : 0 <= k <= sizeof hty)
    (Hpair : sizeof pty = 2 ^ k)
    (Hwords : forall idx, 0 <= idx < mask + 1 ->
        (w <- dereference h (VPtr hty (a + idx * sizeof hty)) ;;
         z <- field h w ZERO_FIELD ;;
         q <- field h z "pointer" ;;
         int q) = Ok (hash_words idx))
    (Hconsistent :
       size = Z.of_nat (List.length (occupied_words hash_words (mask + 1))))
    (Helems : forall idx, In idx (occupied_words hash_words (mask + 1)) ->
        dereference h
          (VPtr pty (a + 2 ^ k * ((sizeof hty * (mask + 1) + 2 ^ k - 1) / 2 ^ k)
                     + idx * sizeof pty))
        = Ok (elems idx) /\
        field h (elems idx) ZERO_FIELD = Ok (keys idx) /\
        field h (elems idx) FIRST_FIELD = Ok (vals idx)) :
  exists self,
    StdOldHashMapProvider.init h valobj show_values = Ok self /\
    StdOldHashMapProvider.capacity self = mask + 1 /\
    StdOldHashMapProvider.valid_indices self
      = occupied_words hash_words (mask + 1) /\
    Z.of_nat (List.length (StdOldHashMapProvider.valid_indices self))
      = StdOldHashMapProvider.size self /\
    StdOldHashMapProvider.size self = size /\
    StdOldHashMapProvider.children h self
      = Gen (flat_map (fun p => entries show_values (fst p)
                                        (keys (snd p)) (vals (snd p)))
                      (enumerate (StdOldHashMapProvider.valid_indices self)))
            None.
Proof.
  set (occ := occupied_words hash_words (mask + 1)) in *.
  assert (Hsz : 0 < sizeof hty).
  { destruct (Z.lt_ge_cases 0 (sizeof hty)) as [Hlt | Hge]; [exact Hlt|].
    assert (2 ^ sizeof hty <= 1).
    { destruct (Z.eq_dec (sizeof hty) 0) as [-> | Hne]; [simpl; lia|].
      rewrite Z.pow_neg_r by lia. lia. }
    assert (0 < 2 ^ n) by (apply Z.pow_pos_nonneg; lia). lia. }
  assert (Hcapacity : py_mod (mask + 1) (2 ^ sizeof hty) = Ok (mask + 1)).
  { unfold py_mod.
    assert (0 < 2 ^ n) by (apply Z.pow_pos_nonneg; lia).
    destruct (Z.eqb_spec (2 ^ sizeof hty) 0); [lia|].
    rewrite Z.mod_small by lia. reflexivity. }
  assert (Hocc : forall idx, 0 <= idx < mask + 1 ->
            StdOldHashMapProvider.occupied h (VPtr dty a) hty idx
            = Ok (negb (hash_words idx =? 0))).
  { intros idx Hidx. specialize (Hwords idx Hidx).
    unfold StdOldHashMapProvider.occupied.
    cbn [cast pointer bind ptr_add]. unfold bind in *.
    destruct (dereference h (VPtr hty (a + idx * sizeof hty))) as [w|];
      [|discriminate].
    destruct (field h w ZERO_FIELD) as [z|]; [|discriminate].
    destruct (field h z "pointer") as [q|]; [|discriminate].
    now rewrite Hwords. }
  assert (Hscan :
    for_acc (xrange 0 (mask + 1)) [] (fun valid_indices idx =>
      b <- StdOldHashMapProvider.occupied h (VPtr dty a) hty idx ;;
      Ok (if b then (valid_indices ++ [idx])%list else valid_indices))
    = Ok occ).
  { rewrite (for_acc_filter _ (fun idx => negb (hash_words idx =? 0)));
      [reflexivity|].
    intros idx Hidx. apply xrange_In in Hidx. now apply Hocc. }
  unfold StdOldHashMapProvider.init.
  rewrite Htable. cbn [bind].
  unfold bind in Hsize, Hdata, Hmask, Hmarker.
  destruct (field h table "size") as [sz|]; [|discriminate].
  cbn [bind]. rewrite Hsize. cbn [bind]. rewrite Hhashes. cbn [bind].
  rewrite Hhty. cbn [bind].
  destruct (field h hashes ZERO_FIELD) as [z|]; [|discriminate].
  cbn [bind]. rewrite Hdata. cbn [bind].
  destruct (field h table "capacity_mask") as [cm|]; [|discriminate].
  cbn [bind]. rewrite Hmask. cbn [bind]. rewrite Hcapacity. cbn [bind].
  destruct (field h table "marker") as [mk|]; [|discriminate].
  cbn [bind].
  destruct (type_of mk) as [mt|]; [|discriminate].
  cbn [bind]. rewrite Hmarker. cbn [bind]. rewrite Hscan. cbn [bind].
  eexists. split; [reflexivity|].
  cbn [StdOldHashMapProvider.capacity StdOldHashMapProvider.valid_indices
       StdOldHashMapProvider.size].
  split; [reflexivity|]. split; [reflexivity|].
  split; [now rewrite Hconsistent|]. split; [reflexivity|].
  unfold StdOldHashMapProvider.children.
  cbn [StdOldHashMapProvider.data_ptr StdOldHashMapProvider.valid_indices
       StdOldHashMapProvider.size StdOldHashMapProvider.capacity_mask
       StdOldHashMapProvider.pair_type StdOldHashMapProvider.show_values
       int gbind].
  rewrite (pairs_offset_round_up _ k (sizeof hty)); try assumption;
    try reflexivity;
    [| cbn [StdOldHashMapProvider.hash_uint_size
            StdOldHashMapProvider.capacity];
       assert (0 < 2 ^ n) by (apply Z.pow_pos_nonneg; lia); nia].
  cbn [StdOldHashMapProvider.hash_uint_size StdOldHashMapProvider.capacity
       gbind gdb_Value cast pointer].
  rewrite Huntagged, Hconsistent.
  set (start := a + 2 ^ k * ((sizeof hty * (mask + 1) + 2 ^ k - 1) / 2 ^ k))
    in *.
  rewrite (gfor_indexed occ (fun index table_index =>
             p <~ ptr_add (VPtr pty start) (Z.land table_index mask) ;;
             element <~ dereference h p ;;
             table_entry h show_values index element)).
  apply gfor_flat_map. intros [i idx] Hin. cbn [fst snd].
  apply enumerate_from_In in Hin. cbn [snd] in Hin.
  assert (Hrange : 0 <= idx < 2 ^ n).
  { unfold occ, occupied_words in Hin. apply filter_In in Hin as [Hin _].
    apply xrange_In in Hin. lia. }
  replace mask with (Z.ones n) by (rewrite Z.ones_equiv; lia).
  rewrite Z.land_ones, Z.mod_small by lia.
  destruct (Helems idx Hin) as (He & Hkey & Hval).
  cbn [ptr_add gbind]. rewrite He. cbn [gbind].
  now apply table_entry_ok.
Qed.

(** Four buckets, entries in buckets 1 and 3, pair array 32 bytes after
    the start of the hash words. *)
Lemma StdOldHashMap_small_table :
  exists self,
    StdOldHashMapProvider.init OldHashFixture.small_host
      OldHashFixture.small_valobj true = Ok self /\
    StdOldHashMapProvider.capacity self = 4 /\
    StdOldHashMapProvider.valid_indices self = [1; 3] /\
    Z.of_nat (List.length (StdOldHashMapProvider.valid_indices self))
      = StdOldHashMapProvider.size self /\
    StdOldHashMapProvider.size self = 2 /\
    StdOldHashMapProvider.children OldHashFixture.small_host self
      = Gen [("key0", VInt i32 1); ("val0", VInt i32 1001);
             ("key1", VInt i32 3); ("val1", VInt i32 1003)]%string None.
Proof.
  destruct (StdOldHashMap_children_occupied OldHashFixture.small_host
              OldHashFixture.small_valobj _ _ true
              OldHashFixture.tagged_ty usize pair_ty 8000 3 2 2 3
              (fun idx => if OldHashFixture.small_occupied idx
                          then 2 ^ 63 + idx else 0)
              (fun idx => pair idx (idx + 1000))
              (fun idx => VInt i32 idx) (fun idx => VInt i32 (idx + 1000))
              eq_refl eq_refl eq_refl eq_refl eq_refl eq_refl eq_refl eq_refl)
    as (self & Hinit & Hcap & Hvi & Hlen & Hsz & Hch).
  - lia.
  - reflexivity.
  - reflexivity.
  - simpl. lia.
  - reflexivity.
  - intros idx Hidx.
    assert (Hc : idx = 0 \/ idx = 1 \/ idx = 2 \/ idx = 3) by lia.
    destruct Hc as [-> | [-> | [-> | ->]]]; reflexivity.
  - reflexivity.
  - intros idx Hidx. vm_compute in Hidx.
    destruct Hidx as [<- | [<- | []]]; repeat split.
  - exists self. rewrite Hch, Hvi.
    split; [exact Hinit|]. split; [exact Hcap|]. split; [reflexivity|].
    split; [rewrite Hsz; reflexivity|]. split; [exact Hsz|]. reflexivity.
Defined.
